(** * MinCon: fleet store and controller workflows

    A shallow embedding of the controller side of MinCon
    ([controller/utils.py], [controller/imaging.py],
    [controller/positioning.py], [controller/networking.py]) and of what
    the capture program on the device ([files/minion.py]) logs and
    prints, and the properties of its store, its capture-output parser and
    its imaging, positioning and update workflows.

    - Python [str] values are Rocq strings (code points below 256).
    - [config/minions.yaml] is the [store] component of the [World]; it is
      a dictionary from addresses to device records and is modelled as a
      [gmap], and so is the ["cameras"] dictionary of a record.  The file
      is taken to be reliable: [write_yaml] succeeds.
    - [datetime.now()] reads a clock supplied by the environment; every
      read advances a tick counter, so two reads in one function may see
      two different times, as in the source.
    - Every remote operation ([execute_ssh_command], [transfer_file],
      [receive_file]) is answered by the environment and journalled in the
      [trace] of the world, together with every store write.  The answer
      may depend on the call and on the length of the journal, which
      stands for the time of the call.
    - Python exceptions are the [Raise] results of the monad [M].
    - Logging and [time.sleep] leave no trace in the model.  The table
      that [read_current_leases] builds with pandas is supplied by the
      environment; the unbounded [while True] of [monitor_position] is
      run for a given number of rounds. *)

From stdpp Require Import base option list gmap sets strings pretty.
From Stdlib Require Import ZArith String Ascii Lia.

#[local] Open Scope string_scope.
#[local] Open Scope list_scope.

(** ** Python string operations *)

Module Py.

(** [str.isspace] on the code points below 256. *)
Definition isspace (c : ascii) : bool :=
  let n := nat_of_ascii c in
  ((9 <=? n)%nat && (n <=? 13)%nat) || ((28 <=? n)%nat && (n <=? 32)%nat)
  || (n =? 133)%nat || (n =? 160)%nat.

Fixpoint lstrip (s : string) : string :=
  match s with
  | String c s' => if isspace c then lstrip s' else s
  | EmptyString => EmptyString
  end.

Fixpoint rstrip (s : string) : string :=
  match s with
  | String c s' =>
      match rstrip s' with
      | EmptyString => if isspace c then EmptyString else String c EmptyString
      | r => String c r
      end
  | EmptyString => EmptyString
  end.

(** [s.strip()] *)
Definition strip (s : string) : string := rstrip (lstrip s).

(** [sub in s] *)
Fixpoint contains (sub s : string) : bool :=
  prefix sub s ||
  match s with
  | String _ s' => contains sub s'
  | EmptyString => false
  end.

(** [s.split(sep)] for a non-empty [sep]: the pieces between the
    non-overlapping occurrences of [sep], scanned from the left.  [skip]
    counts the characters of a matched separator still to be dropped. *)
Fixpoint split_from (sep : string) (skip : nat) (s : string) : list string :=
  match s with
  | EmptyString => [EmptyString]
  | String c s' =>
      match skip with
      | S k => split_from sep k s'
      | O =>
          if prefix sep s
          then EmptyString :: split_from sep (String.length sep - 1) s'
          else match split_from sep 0 s' with
               | piece :: rest => String c piece :: rest
               | [] => [String c EmptyString]
               end
      end
  end.

Definition split (sep s : string) : list string := split_from sep 0 s.

(** [sep.join(l)] *)
Definition join (sep : string) (l : list string) : string :=
  String.concat sep l.

End Py.

(** ** Data model *)

(** One entry of ["cameras"]; [None] is an absent key. *)
Record Camera := mkCamera {
  cam_status : option string;      (* "status" *)
  last_captured : option string;
  camera_pos : option string
}.

(** A device record of [minions.yaml]; [None] is an absent key or a null.
    A stored record has its ["cameras"] key, as every record written by
    [write_minions] has, and so is not the empty dict. *)
Record Minion := mkMinion {
  status : option string;
  last_accessed : option string;
  last_update : option string;
  cameras : gmap string Camera
}.

Definition empty_camera : Camera := mkCamera None None None.

(** [{"cameras": {"camera1": {}, "camera2": {}}}] *)
Definition fresh_minion : Minion :=
  mkMinion None None None
    (<["camera1" := empty_camera]> (<["camera2" := empty_camera]> ∅)).

Record datetime := mkDatetime { dt_date : string; dt_time : string }.

(** [dt.isoformat()] and [dt.date().isoformat()] *)
Definition isoformat (dt : datetime) : string := dt_date dt +:+ "T" +:+ dt_time dt.
Definition date_isoformat (dt : datetime) : string := dt_date dt.

(** ** Exceptions, remote operations and the world *)

Inductive exn :=
| KeyError (key : string)
| IndexError
| Exception (msg : string).

(** [str(e)] *)
Definition str_exn (e : exn) : string :=
  match e with
  | KeyError k => "'" +:+ k +:+ "'"
  | IndexError => "list index out of range"
  | Exception msg => msg
  end.

Inductive Res (A : Type) :=
| Ok (a : A)
| Raise (e : exn).
Arguments Ok {A} a.
Arguments Raise {A} e.

(** The dictionary returned by [_run_ssh_command]. *)
Record CmdResult := mkResult {
  success : bool;
  output : string;
  error : option string
}.

Inductive Call :=
| SshCommand (connection_type command : string) (ip : option string)
             (sudo : bool) (timeout : option Z)
| TransferFile (connection_type source dest : string) (ip : option string)
| ReceiveFile (connection_type remote_path local_path : string)
              (ip : option string).

Definition call_ip (c : Call) : option string :=
  match c with
  | SshCommand _ _ ip _ _ => ip
  | TransferFile _ _ _ ip => ip
  | ReceiveFile _ _ _ ip => ip
  end.

Inductive Event :=
| Remote (c : Call) (r : Res CmdResult)
| Commit (minion_ip status : string) (updated : bool).

Record World := mkWorld {
  store : gmap string Minion;
  ticks : nat;
  trace : list Event
}.

(** The environment: the clock, the answers of the remote hosts (a raise
    is a failure to resolve [config/config.yaml] in [_get_target_ip]) and
    the addresses read from the lease table.  Answers are indexed by the
    length of the journal at the time of the call. *)
Record Env := mkEnv {
  clock : nat → datetime;
  respond : nat → Call → Res CmdResult;
  lease_ips : nat → bool → option string → option (list string)
}.

(** The counters logged at the end of [update_all_minions]. *)
Record Stats := mkStats {
  n_total : nat;
  n_updated : nat;
  n_skipped : nat;
  n_failed : nat
}.

Definition M (A : Type) : Type := World → Res A * World.

#[global] Instance M_ret : MRet M := λ A a w, (Ok a, w).
#[global] Instance M_bind : MBind M := λ A B f m w,
  match m w with
  | (Ok a, w') => f a w'
  | (Raise e, w') => (Raise e, w')
  end.

Definition raise {A} (e : exn) : M A := λ w, (Raise e, w).

(** [try: body except Exception as e: handler(e)] *)
Definition try_except {A} (body : M A) (handler : exn → M A) : M A := λ w,
  match body w with
  | (Raise e, w') => handler e w'
  | r => r
  end.

Definition lift_res {A} (r : Res A) : M A := λ w, (r, w).

#[global] Instance Res_ret : MRet Res := λ A a, Ok a.
#[global] Instance Res_bind : MBind Res := λ A B f r,
  match r with
  | Ok a => f a
  | Raise e => Raise e
  end.

(** [d[k]] *)
Definition getitem {V} (d : gmap string V) (k : string) : Res V :=
  match d !! k with
  | Some v => Ok v
  | None => Raise (KeyError k)
  end.

(** Truth value of an optional string argument: [None] and [""] are false. *)
Definition truthy (o : option string) : bool :=
  match o with
  | Some s => negb (String.eqb s "")
  | None => false
  end.

(** [d[k]] for a key of a record that may be absent. *)
Definition getfield {V} (field : option V) (k : string) : Res V :=
  match field with
  | Some v => Ok v
  | None => Raise (KeyError k)
  end.

Definition newline : string := String (ascii_of_nat 10) EmptyString.

(** Evaluation of a list display [[a, b, ...]]: the elements in order. *)
Fixpoint py_list {A} (l : list (M A)) : M (list A) :=
  match l with
  | [] => mret []
  | m :: l' => a ← m; r ← py_list l'; mret (a :: r)
  end.

(** [all(l)] *)
Definition all (l : list bool) : bool := forallb id l.

Section Controller.

Context (env : Env).

(** *** utils.py *)

(** [datetime.now()] *)
Definition now : M datetime := λ w,
  (Ok (clock env (ticks w)), mkWorld (store w) (S (ticks w)) (trace w)).

(** [load_yaml(MINIONS_YAML) or {}] *)
Definition load_minions : M (gmap string Minion) := λ w, (Ok (store w), w).

(** [write_yaml(data, MINIONS_YAML)], journalled with the status being
    committed. *)
Definition write_yaml (data : gmap string Minion)
    (minion_ip st : string) (updated : bool) : M bool := λ w,
  (Ok true, mkWorld data (ticks w) (trace w ++ [Commit minion_ip st updated])).

(** [data[minion_ip]["cameras"][cam].update({"status": .., "last_captured": ..})] *)
Definition update_camera_status (m : Minion) (cam : string)
    (st : option string) (current_time : string) : Res Minion :=
  match getitem (cameras m) cam with
  | Ok c =>
      Ok (mkMinion (status m) (last_accessed m) (last_update m)
            (<[cam := mkCamera st (Some current_time) (camera_pos c)]> (cameras m)))
  | Raise e => Raise e
  end.

(** [data[minion_ip]["cameras"][cam]["camera_pos"] = pos] *)
Definition set_camera_pos (m : Minion) (cam : string)
    (pos : option string) : Res Minion :=
  match getitem (cameras m) cam with
  | Ok c =>
      Ok (mkMinion (status m) (last_accessed m) (last_update m)
            (<[cam := mkCamera (cam_status c) (last_captured c) pos]> (cameras m)))
  | Raise e => Raise e
  end.

Definition write_minions (minion_ip st : string)
    (cam1_status cam2_status : option string) (updated : bool)
    (cam1_position cam2_position : option string) : M bool :=
  data ← load_minions;
  let data :=
    match data !! minion_ip with
    | Some _ => data
    | None => <[minion_ip := fresh_minion]> data
    end in
  m ← lift_res (getitem data minion_ip);
  accessed ← now;
  last ← (if updated
          then today ← now; mret (Some (date_isoformat today))
          else mret (last_update m));
  let m := mkMinion (Some st) (Some (isoformat accessed)) last (cameras m) in
  t ← now;
  let current_time := isoformat t in
  m ← (if truthy cam1_status
       then lift_res (update_camera_status m "camera1" cam1_status current_time)
       else mret m);
  m ← (if truthy cam2_status
       then lift_res (update_camera_status m "camera2" cam2_status current_time)
       else mret m);
  m ← (if truthy cam1_position
       then lift_res (set_camera_pos m "camera1" cam1_position)
       else mret m);
  m ← (if truthy cam2_position
       then lift_res (set_camera_pos m "camera2" cam2_position)
       else mret m);
  write_yaml (<[minion_ip := m]> data) minion_ip st updated.

(** [get_minions()] *)
Definition get_minions : M (gmap string Minion) := load_minions.

(** [get_minions(minion_ip)] for a string; [None] is the empty dict. *)
Definition get_minion (minion_ip : string) : M (option Minion) :=
  data ← load_minions;
  mret (data !! minion_ip).

Definition remote (c : Call) : M CmdResult := λ w,
  let r := respond env (List.length (trace w)) c in
  (r, mkWorld (store w) (ticks w) (trace w ++ [Remote c r])).

Definition execute_ssh_command (connection_type command : string)
    (ip : option string) (sudo : bool) (timeout : option Z) : M CmdResult :=
  remote (SshCommand connection_type command ip sudo timeout).

Definition transfer_file (connection_type source dest : string)
    (ip : option string) : M CmdResult :=
  remote (TransferFile connection_type source dest ip).

Definition receive_file (connection_type remote_path local_path : string)
    (ip : option string) : M CmdResult :=
  remote (ReceiveFile connection_type remote_path local_path ip).

(** *** imaging.py *)

(** The body of the [try] of [image_minion]: both [camera_pos] entries,
    or the [KeyError] of the first missing key. *)
Definition camera_coordinates (minion_config : Minion) : Res (string * string) :=
  camera1 ← getitem (cameras minion_config) "camera1";
  coordinates_cam1 ← getfield (camera_pos camera1) "camera_pos";
  camera2 ← getitem (cameras minion_config) "camera2";
  coordinates_cam2 ← getfield (camera_pos camera2) "camera_pos";
  mret (coordinates_cam1, coordinates_cam2).

(** [[cam.strip() for cam in line.split("Failed cameras:")[1].strip().split(';')]] *)
Definition parse_failed_line (line : string) : Res (list string) :=
  match Py.split "Failed cameras:" line !! 1%nat with
  | Some piece =>
      let failed_info := Py.strip piece in
      Ok (map Py.strip (Py.split ";" failed_info))
  | None => Raise IndexError
  end.

(** The [for line in output_lines] loop, threading [failed_cameras]. *)
Fixpoint scan_failed_cameras (output_lines : list string)
    (failed_cameras : list string) : Res (list string) :=
  match output_lines with
  | [] => Ok failed_cameras
  | line :: rest =>
      if Py.contains "Failed cameras:" line
      then failed_cameras ← parse_failed_line line;
           scan_failed_cameras rest failed_cameras
      else scan_failed_cameras rest failed_cameras
  end.

Definition imaging_command (system_name minion_ip
    coordinates_cam1 coordinates_cam2 : string) : string :=
  "python3 minion.py --system " +:+ system_name +:+ " --module " +:+ minion_ip
  +:+ " --coordinates_cam1 '" +:+ coordinates_cam1
  +:+ "' --coordinates_cam2 '" +:+ coordinates_cam2 +:+ "'".

(** [system_name] defaults to ["lilo"] in the source. *)
Definition image_minion (minion_ip system_name : string) : M bool :=
  minion_config ← get_minion minion_ip;
  match minion_config with
  | None => mret false
  | Some minion_config =>
      match camera_coordinates minion_config with
      | Raise (KeyError _) =>
          _ ← write_minions minion_ip "position needed" None None true None None;
          mret false
      | Raise e => raise e
      | Ok (coordinates_cam1, coordinates_cam2) =>
          _ ← write_minions minion_ip "imaging" None None false None None;
          let command :=
            imaging_command system_name minion_ip coordinates_cam1 coordinates_cam2 in
          result ← execute_ssh_command "minion" command (Some minion_ip) false (Some 300%Z);
          if negb (success result)
          then _ ← write_minions minion_ip "error" None None true None None;
               mret false
          else
            let output_lines := Py.split newline (Py.strip (output result)) in
            if Py.contains "Partial success" (output result)
            then failed_cameras ← lift_res (scan_failed_cameras output_lines []);
                 _ ← write_minions minion_ip
                       ("partial - " +:+ Py.join ", " failed_cameras)
                       None None true None None;
                 mret false
            else if Py.contains "Error: No images" (output result)
            then _ ← write_minions minion_ip "error" None None true None None;
                 mret false
            else _ ← write_minions minion_ip "ready" None None true None None;
                 mret true
      end
  end.

(** *** positioning.py *)

(** [set(minions.keys())  # TODO capture positioned minions] *)
Definition unpositioned (minions : gmap string Minion) : gset string :=
  dom minions.

(** [for ip in unpositioned: execute_ssh_command('minion', 'rm -f requestLocation.file', ip=ip)] *)
Fixpoint clear_requests (ips : list string) : M () :=
  match ips with
  | [] => mret ()
  | ip :: rest =>
      _ ← execute_ssh_command "minion" "rm -f requestLocation.file" (Some ip) false None;
      clear_requests rest
  end.

Definition position_string (x y : Z) : string := "X" +:+ pretty x +:+ "Y" +:+ pretty y.

(** The [for minion_ip in unpositioned] loop over the devices still to be
    polled; [Some true] is [return True], [None] the end of the loop. *)
Fixpoint poll_requests (x y : Z) (unpositioned ips : list string) : M (option bool) :=
  match ips with
  | [] => mret None
  | minion_ip :: rest =>
      result ← receive_file "minion" "requestLocation.file"
                 "config/requestLocation.file" (Some minion_ip);
      if success result
      then written ← write_minions minion_ip "online" None None false
                       (Some (position_string x y))
                       (Some (position_string x (y + 1)));
           if (written : bool)
           then _ ← clear_requests unpositioned; mret (Some true)
           else poll_requests x y unpositioned rest
      else poll_requests x y unpositioned rest
  end.

(** One iteration of [while True]; [None] when the loop goes round again
    (after [time.sleep]).  A Python set is iterated in an order fixed for
    the set; [elements] plays that order. *)
Definition monitor_round (x y : Z) : M (option bool) :=
  try_except
    (minions ← get_minions;
     let ips := elements (unpositioned minions) in
     poll_requests x y ips ips)
    (λ e, mret None).

(** [monitor_position(x, y)], at most [fuel] iterations of [while True]. *)
Fixpoint monitor_position (fuel : nat) (x y : Z) : M (option bool) :=
  match fuel with
  | O => mret None
  | S fuel' =>
      r ← monitor_round x y;
      match r with
      | Some b => mret (Some b)
      | None => monitor_position fuel' x y
      end
  end.

(** *** networking.py *)

(** [read_current_leases]: the ['ip'] column of the filtered lease table;
    reading and filtering the CSV file is left to the environment. *)
Definition read_current_leases (linux : bool) (select_hostname : option string)
    : M (option (list string)) :=
  result ← receive_file "router" "/var/lib/misc/dnsmasq.leases" "config/leases.csv" None;
  if negb (success result)
  then mret None
  else λ w, (Ok (lease_ips env (List.length (trace w)) linux select_hostname), w).

Definition has_run_today (minion_ip : string) : M bool :=
  minion ← get_minion minion_ip;
  let last_update_date :=
    match minion with
    | Some m => last_update m
    | None => Some ""
    end in
  today ← now;
  mret (bool_decide (last_update_date = Some (date_isoformat today))).

(** [op(...)['success']] *)
Definition succeeded (op : M CmdResult) : M bool :=
  result ← op; mret (success result).

Definition config_stage (minion_ip : string) : list (M bool) :=
  [ succeeded (transfer_file "minion" "files/logind.conf" "logind.conf" (Some minion_ip));
    succeeded (execute_ssh_command "minion" "mv logind.conf /etc/systemd/logind.conf"
                 (Some minion_ip) true None);
    succeeded (transfer_file "minion" "files/wayfire.ini" ".config/wayfire.ini" (Some minion_ip));
    succeeded (transfer_file "minion" "files/button.sh" "button.sh" (Some minion_ip));
    succeeded (execute_ssh_command "minion" "chmod +x button.sh" (Some minion_ip) true None) ].

Definition core_stage (minion_ip : string) : list (M bool) :=
  [ succeeded (transfer_file "minion" "files/minion.py" "minion.py" (Some minion_ip));
    succeeded (execute_ssh_command "minion" "raspi-config nonint do_wayland W2"
                 (Some minion_ip) true None) ].

Definition services_stage (minion_ip : string) : list (M bool) :=
  [ succeeded (execute_ssh_command "minion" "systemctl restart systemd-logind"
                 (Some minion_ip) true None);
    succeeded (execute_ssh_command "minion" "reboot" (Some minion_ip) true None) ].

Definition update_minion (minion_ip : string) : M bool :=
  try_except
    (config ← py_list (config_stage minion_ip);
     if negb (all config)
     then _ ← write_minions minion_ip "failed_config" None None false None None;
          mret false
     else
       core ← py_list (core_stage minion_ip);
       if negb (all core)
       then _ ← write_minions minion_ip "failed_core" None None false None None;
            mret false
       else
         services ← py_list (services_stage minion_ip);
         if negb (all services)
         then _ ← write_minions minion_ip "failed_services" None None false None None;
              mret false
         else _ ← write_minions minion_ip "online" None None true None None;
              mret true)
    (λ e,
       _ ← write_minions minion_ip ("error: " +:+ str_exn e) None None false None None;
       mret false).

(** The body of the [for ip in minions_df['ip']] loop. *)
Definition update_one (force_update : bool) (ip : string) (st : Stats) : M Stats :=
  ran ← has_run_today ip;
  if negb ran || force_update
  then ok ← update_minion ip;
       if (ok : bool)
       then mret (mkStats (n_total st) (S (n_updated st)) (n_skipped st) (n_failed st))
       else mret (mkStats (n_total st) (n_updated st) (n_skipped st) (S (n_failed st)))
  else mret (mkStats (n_total st) (n_updated st) (S (n_skipped st)) (n_failed st)).

Fixpoint update_each (force_update : bool) (ips : list string) (st : Stats) : M Stats :=
  match ips with
  | [] => mret st
  | ip :: rest => st' ← update_one force_update ip st; update_each force_update rest st'
  end.

(** [update_all_minions]; the result is the counters it logs. *)
Definition update_all_minions (linux : bool) (select_hostname : option string)
    (force_update : bool) : M Stats :=
  minions_df ← read_current_leases linux select_hostname;
  match minions_df with
  | Some ((_ :: _) as ips) => update_each force_update ips (mkStats (List.length ips) 0 0 0)
  | _ => mret (mkStats 0 0 0 0)
  end.

End Controller.

(** * Vocabulary of the statements *)

(** The status and the update date stored for an address. *)
Definition status_of (w : World) (minion_ip : string) : option string :=
  store w !! minion_ip ≫= status.

Definition last_update_of (w : World) (minion_ip : string) : option string :=
  store w !! minion_ip ≫= last_update.

(** The position stored for a camera of a record. *)
Definition position_of (m : Minion) (cam : string) : option string :=
  cameras m !! cam ≫= camera_pos.

(** The events journalled between two worlds. *)
Definition new_events (w w' : World) : list Event :=
  drop (List.length (trace w)) (trace w').

(** An event is a remote operation against the device at [minion_ip]. *)
Definition contacts (minion_ip : string) (ev : Event) : Prop :=
  match ev with
  | Remote c _ => call_ip c = Some minion_ip
  | Commit _ _ _ => False
  end.

Definition is_remote (ev : Event) : Prop :=
  match ev with
  | Remote _ _ => True
  | Commit _ _ _ => False
  end.

(** The data-model invariant: a record has exactly the two camera entries. *)
Definition two_cameras (m : Minion) : Prop :=
  dom (cameras m) = ({["camera1"; "camera2"]} : gset string).

(** The remote operations of the workflows, as data. *)
Definition capture_call (system_name minion_ip p1 p2 : string) : Call :=
  SshCommand "minion" (imaging_command system_name minion_ip p1 p2)
    (Some minion_ip) false (Some 300%Z).

Definition poll_call (minion_ip : string) : Call :=
  ReceiveFile "minion" "requestLocation.file" "config/requestLocation.file"
    (Some minion_ip).

Definition clear_call (minion_ip : string) : Call :=
  SshCommand "minion" "rm -f requestLocation.file" (Some minion_ip) false None.

Definition config_calls (minion_ip : string) : list Call :=
  [ TransferFile "minion" "files/logind.conf" "logind.conf" (Some minion_ip);
    SshCommand "minion" "mv logind.conf /etc/systemd/logind.conf" (Some minion_ip) true None;
    TransferFile "minion" "files/wayfire.ini" ".config/wayfire.ini" (Some minion_ip);
    TransferFile "minion" "files/button.sh" "button.sh" (Some minion_ip);
    SshCommand "minion" "chmod +x button.sh" (Some minion_ip) true None ].

Definition core_calls (minion_ip : string) : list Call :=
  [ TransferFile "minion" "files/minion.py" "minion.py" (Some minion_ip);
    SshCommand "minion" "raspi-config nonint do_wayland W2" (Some minion_ip) true None ].

Definition services_calls (minion_ip : string) : list Call :=
  [ SshCommand "minion" "systemctl restart systemd-logind" (Some minion_ip) true None;
    SshCommand "minion" "reboot" (Some minion_ip) true None ].

(** A computation relates every world it starts from to the one it ends in. *)
Definition respects (R : World → World → Prop) {A} (m : M A) : Prop :=
  ∀ w r w', m w = (r, w') → R w w'.

(** The journal grows by events that satisfy [Q], and the records stored
    for the addresses in [K] are not touched. *)
Definition effects (Q : Event → Prop) (K : string → Prop) (w w' : World) : Prop :=
  (∃ evs, trace w' = trace w ++ evs ∧ Forall Q evs)
  ∧ (∀ minion_ip, K minion_ip → store w' !! minion_ip = store w !! minion_ip).

(** What the imaging workflow for [minion_ip] may journal: calls to that
    device, and commits for it that carry the confirm flag unless the
    status is the transient ["imaging"]. *)
Definition imaging_event (minion_ip : string) (ev : Event) : Prop :=
  match ev with
  | Remote c _ => call_ip c = Some minion_ip
  | Commit ip st updated => ip = minion_ip ∧ updated = negb (String.eqb st "imaging")
  end.

(** What the update workflow for [minion_ip] may journal: calls to that
    device, and commits for it that carry the confirm flag only with the
    status ["online"]. *)
Definition update_event (minion_ip : string) (ev : Event) : Prop :=
  match ev with
  | Remote c _ => call_ip c = Some minion_ip
  | Commit ip st updated => ip = minion_ip ∧ updated = String.eqb st "online"
  end.

(** What the positioning workflow may journal: polls and clears, and
    commits of ["online"] without the confirm flag. *)
Definition positioning_event (ev : Event) : Prop :=
  match ev with
  | Remote c _ => ∃ ip, c = poll_call ip ∨ c = clear_call ip
  | Commit _ st updated => st = "online" ∧ updated = false
  end.

(** The effect of the optional arguments of [write_minions] on one camera. *)
Definition with_status (cam : Camera) (st : option string) (current_time : string) : Camera :=
  if truthy st then mkCamera st (Some current_time) (camera_pos cam) else cam.

Definition with_position (cam : Camera) (pos : option string) : Camera :=
  if truthy pos then mkCamera (cam_status cam) (last_captured cam) pos else cam.

(** An optional argument with the empty string read as omitted. *)
Definition omit_empty (o : option string) : option string :=
  if truthy o then o else None.

(** A field is left as it was or holds a non-empty string. *)
Definition kept_or_set (old new : option string) : Prop :=
  new = old ∨ truthy new = true.

Definition cameras_kept_or_set (m m' : Minion) : Prop :=
  ∀ cam c, cameras m !! cam = Some c →
    ∃ c', cameras m' !! cam = Some c'
      ∧ kept_or_set (cam_status c) (cam_status c')
      ∧ kept_or_set (camera_pos c) (camera_pos c').

(** The world after [write_minions] with no camera argument. *)
Definition committed (env : Env) (w : World) (minion_ip st : string) (updated : bool) : World :=
  let m := default fresh_minion (store w !! minion_ip) in
  mkWorld
    (<[minion_ip :=
         mkMinion (Some st) (Some (isoformat (clock env (ticks w))))
           (if updated then Some (date_isoformat (clock env (S (ticks w))))
            else last_update m)
           (cameras m)]> (store w))
    (if updated then 3 + ticks w else 2 + ticks w)
    (trace w ++ [Commit minion_ip st updated]).

(** The journal entries of calls that all returned a result. *)
Definition answered (calls : list Call) (results : list CmdResult) : list Event :=
  zip_with (λ c r, Remote c (Ok r)) calls results.

(** Every call of a stage was made and returned, and all succeeded or not. *)
Definition stage_ran (calls : list Call) (results : list CmdResult) (ok : bool) : Prop :=
  List.length results = List.length calls ∧ all (success <$> results) = ok.

(** The world after a remote call was answered. *)
Definition called (w : World) (c : Call) (r : Res CmdResult) : World :=
  mkWorld (store w) (ticks w) (trace w ++ [Remote c r]).

(** The lines the imaging workflow scans. *)
Definition output_lines (result : CmdResult) : list string :=
  Py.split newline (Py.strip (output result)).

(** A status was committed for the address and is the last journal entry. *)
Definition final_commit (w : World) (minion_ip st : string) (updated : bool) : Prop :=
  status_of w minion_ip = Some st
  ∧ last (trace w) = Some (Commit minion_ip st updated).

(** One camera update of [write_minions]: the fields of the record are
    left alone, no camera entry appears or disappears, and no camera
    field is cleared. *)
Definition camera_step (m m' : Minion) : Prop :=
  status m' = status m ∧ last_accessed m' = last_accessed m
  ∧ last_update m' = last_update m
  ∧ dom (cameras m') = dom (cameras m)
  ∧ cameras_kept_or_set m m'.

(** A world with more journal entries. *)
Definition journalled (w : World) (evs : list Event) : World :=
  mkWorld (store w) (ticks w) (trace w ++ evs).

(** The outcomes of the update workflow for [minion_ip]: the remote
    operations journalled, the status committed, the confirm flag of the
    commit and the result. *)
Inductive update_outcome (minion_ip : string)
    : list Event → string → bool → bool → Prop :=
| failed_config rs1 :
    stage_ran (config_calls minion_ip) rs1 false →
    update_outcome minion_ip
      (answered (config_calls minion_ip) rs1) "failed_config" false false
| failed_core rs1 rs2 :
    stage_ran (config_calls minion_ip) rs1 true →
    stage_ran (core_calls minion_ip) rs2 false →
    update_outcome minion_ip
      (answered (config_calls minion_ip) rs1 ++ answered (core_calls minion_ip) rs2)
      "failed_core" false false
| failed_services rs1 rs2 rs3 :
    stage_ran (config_calls minion_ip) rs1 true →
    stage_ran (core_calls minion_ip) rs2 true →
    stage_ran (services_calls minion_ip) rs3 false →
    update_outcome minion_ip
      (answered (config_calls minion_ip) rs1 ++ answered (core_calls minion_ip) rs2
       ++ answered (services_calls minion_ip) rs3)
      "failed_services" false false
| updated_online rs1 rs2 rs3 :
    stage_ran (config_calls minion_ip) rs1 true →
    stage_ran (core_calls minion_ip) rs2 true →
    stage_ran (services_calls minion_ip) rs3 true →
    update_outcome minion_ip
      (answered (config_calls minion_ip) rs1 ++ answered (core_calls minion_ip) rs2
       ++ answered (services_calls minion_ip) rs3)
      "online" true true
| update_raised e done c rest rs :
    config_calls minion_ip ++ core_calls minion_ip ++ services_calls minion_ip
    = done ++ c :: rest →
    List.length rs = List.length done →
    update_outcome minion_ip
      (answered done rs ++ [Remote c (Raise e)])
      ("error: " +:+ str_exn e) false false.

(** Every remote operation returns a result: [config/config.yaml]
    resolves, so that [_get_target_ip] does not raise. *)
Definition answers (env : Env) : Prop :=
  ∀ n c, ∃ r, respond env n c = Ok r.

(** The event is an answered poll of one of the devices [ips]. *)
Definition is_poll_in (ips : list string) (ev : Event) : Prop :=
  ∃ ip r, ip ∈ ips ∧ ev = Remote (poll_call ip) (Ok r).

(** [m'] is [m] after the positioning commit for the coordinate [(x, y)]. *)
Definition positioned_at (x y : Z) (m m' : Minion) : Prop :=
  status m' = Some "online"
  ∧ last_update m' = last_update m
  ∧ position_of m' "camera1" = Some (position_string x y)
  ∧ position_of m' "camera2" = Some (position_string x (y + 1)).

(** What a returning positioning invocation has done, from the world [w]
    it started in to the world [w'] it returned in: one device of the
    polled set, whose poll was answered positively, has been assigned
    the coordinates without the confirm flag; the journal holds polls of
    devices of the set, that commit, and then one clear per device of the
    set; no other record has changed. *)
Definition assigned_once (x y : Z) (w w' : World) : Prop :=
  ∃ minion_ip m m' polls signal clears,
    store w !! minion_ip = Some m
    ∧ store w' = <[minion_ip := m']> (store w)
    ∧ positioned_at x y m m'
    ∧ success signal = true
    ∧ trace w'
      = trace w ++ polls ++ [Remote (poll_call minion_ip) (Ok signal)]
        ++ [Commit minion_ip "online" false]
        ++ answered (map clear_call (elements (unpositioned (store w)))) clears
    ∧ Forall (is_poll_in (elements (unpositioned (store w)))) polls
    ∧ List.length clears = List.length (elements (unpositioned (store w))).

(** [s.find(sub)]: the index of the first occurrence of [sub] in [s]. *)
Fixpoint find (sub s : string) : option nat :=
  if prefix sub s then Some 0%nat
  else match s with
       | String _ s' => S <$> find sub s'
       | EmptyString => None
       end.

(** A camera identifier as the device prints it: not empty, no white
    space at either end and no [';'] inside. *)
Definition camera_name (cam : string) : Prop :=
  cam ≠ "" ∧ Py.lstrip cam = cam ∧ Py.rstrip cam = cam
  ∧ Py.contains ";" cam = false.

(** * Sample environments and worlds *)

Definition sample_address : string := "10.0.0.5".

Definition sample_camera (pos : string) : Camera := mkCamera None None (Some pos).

(** A positioned device, last updated on 2024-01-01. *)
Definition sample_minion : Minion :=
  mkMinion (Some "online") (Some "2024-01-01T08:00:00") (Some "2024-01-01")
    (<["camera1" := sample_camera "X1Y1"]> (<["camera2" := sample_camera "X1Y2"]> ∅)).

(** A device whose second camera has no position. *)
Definition half_positioned_minion : Minion :=
  mkMinion (Some "online") (Some "2024-01-01T08:00:00") None
    (<["camera1" := sample_camera "X1Y1"]> (<["camera2" := empty_camera]> ∅)).

Definition world_of (data : gmap string Minion) : World := mkWorld data 0 [].

Definition sample_world : World := world_of {[ sample_address := sample_minion ]}.

Definition empty_world : World := world_of ∅.

(** A clock that stays on 2024-01-02. *)
Definition sample_clock (n : nat) : datetime :=
  mkDatetime "2024-01-02" ("09:00:" +:+ pretty n).

(** Every remote operation returns [answer]. *)
Definition constant_env (answer : CmdResult) : Env :=
  mkEnv sample_clock (λ _ _, Ok answer) (λ _ _ _, Some [sample_address]).

Definition transport_failure : CmdResult := mkResult false "" (Some "timed out").

Definition partial_output : string :=
  "Partial success: Images captured from Camera 1" +:+ newline +:+ "Failed cameras: 2".

Definition partial_result : CmdResult := mkResult true partial_output None.

Definition all_good : CmdResult := mkResult true "" None.

(** A positioned device already updated on the day of [sample_clock]. *)
Definition updated_minion : Minion :=
  mkMinion (Some "online") (Some "2024-01-02T07:00:00") (Some "2024-01-02")
    (<["camera1" := sample_camera "X1Y1"]> (<["camera2" := sample_camera "X1Y2"]> ∅)).

(** A device that was never positioned nor updated. *)
Definition unpositioned_minion : Minion :=
  mkMinion (Some "online") (Some "2024-01-01T08:00:00") None
    (<["camera1" := empty_camera]> (<["camera2" := empty_camera]> ∅)).

(** Capture output whose failed-camera segment is empty. *)
Definition empty_segment_output : string :=
  "Partial success: Images captured from Camera 1" +:+ newline +:+ "Failed cameras:".

(** * More of the controller and the capture program *)

(** ** utils.py: reading several records, resolving a target, running a command *)

(** [get_minions(minion_ip)] for a list:
    [{ip: data[ip] for ip in minion_ip if ip in data}] *)
Definition get_minions_list (minion_ip : list string) : M (gmap string Minion) :=
  data ← load_minions;
  mret (foldl (λ found ip,
                 match data !! ip with
                 | Some m => <[ip := m]> found
                 | None => found
                 end) ∅ minion_ip).

(** [_get_target_ip(config, connection_type, ip)].  [config] is the parsed
    [config/config.yaml], [None] when it could not be loaded; a
    [ValueError] with message [msg] is [Exception msg]. *)
Definition _get_target_ip (config : option (gmap string (gmap string string)))
    (connection_type : string) (ip : option string)
    : Res (string * gmap string string) :=
  match config with
  | None => Raise (Exception "Could not load config file")
  | Some cfg =>
      if bool_decide (cfg = ∅)
      then Raise (Exception "Could not load config file")
      else if negb (bool_decide (connection_type ∈ ["minion"; "router"]))
      then Raise (Exception "connection_type must be either 'minion' or 'router'")
      else
        params ← getitem cfg connection_type;
        if String.eqb connection_type "router"
        then match params !! "host" with
             | None => Raise (Exception "Host not specified in router config")
             | Some host => Ok (host, params)
             end
        else if negb (truthy ip)
        then Raise (Exception "IP required for minion")
        else Ok (default EmptyString ip, params)
  end.

(** What [subprocess.run] hands back. *)
Record Completed := mkCompleted {
  returncode : Z;
  stdout : string;
  stderr : string
}.

(** [_run_ssh_command(command, timeout)]; [shell] is [subprocess.run],
    which returns or raises (a timeout, for one). *)
Definition _run_ssh_command (shell : string → option Z → Res Completed)
    (command : string) (timeout : option Z) : CmdResult :=
  match shell command timeout with
  | Ok result =>
      mkResult (returncode result =? 0)%Z (stdout result)
        (if negb (returncode result =? 0)%Z then Some (stderr result) else None)
  | Raise e => mkResult false EmptyString (Some (str_exn e))
  end.

Definition dquote : string := String (ascii_of_nat 34) EmptyString.

(** The command line of [execute_ssh_command]. *)
Definition ssh_command_line (params : gmap string string)
    (target_ip command : string) (sudo : bool) : Res string :=
  if sudo
  then
    password ← getitem params "password";
    options ← getitem params "options";
    user ← getitem params "user";
    mret ("sshpass -p " +:+ dquote +:+ password +:+ dquote +:+ " ssh " +:+ options
          +:+ " " +:+ user +:+ "@" +:+ target_ip +:+ " " +:+ dquote +:+ "echo '"
          +:+ password +:+ "' | sudo -S " +:+ command +:+ dquote)
  else
    password ← getitem params "password";
    options ← getitem params "options";
    user ← getitem params "user";
    mret ("sshpass -p " +:+ dquote +:+ password +:+ dquote +:+ " ssh " +:+ options
          +:+ " " +:+ user +:+ "@" +:+ target_ip +:+ " " +:+ dquote +:+ command
          +:+ dquote).

(** [execute_ssh_command] down to the shell: the configuration, then the
    command line, then [_run_ssh_command]. *)
Definition execute_ssh_command_shell
    (config : option (gmap string (gmap string string)))
    (shell : string → option Z → Res Completed)
    (connection_type command : string) (ip : option string) (sudo : bool)
    (timeout : option Z) : Res CmdResult :=
  '(target_ip, params) ← _get_target_ip config connection_type ip;
  ssh_command ← ssh_command_line params target_ip command sudo;
  mret (_run_ssh_command shell ssh_command timeout).

(** [transfer_file] down to the shell. *)
Definition transfer_file_shell
    (config : option (gmap string (gmap string string)))
    (shell : string → option Z → Res Completed)
    (connection_type source dest : string) (ip : option string) : Res CmdResult :=
  '(target_ip, params) ← _get_target_ip config connection_type ip;
  password ← getitem params "password";
  options ← getitem params "options";
  user ← getitem params "user";
  mret (_run_ssh_command shell
          ("sshpass -p " +:+ dquote +:+ password +:+ dquote +:+ " scp " +:+ options
           +:+ " " +:+ source +:+ " " +:+ user +:+ "@" +:+ target_ip +:+ ":" +:+ dest)
          None).

(** [receive_file] down to the shell. *)
Definition receive_file_shell
    (config : option (gmap string (gmap string string)))
    (shell : string → option Z → Res Completed)
    (connection_type remote_path local_path : string) (ip : option string)
    : Res CmdResult :=
  '(target_ip, params) ← _get_target_ip config connection_type ip;
  password ← getitem params "password";
  options ← getitem params "options";
  user ← getitem params "user";
  mret (_run_ssh_command shell
          ("sshpass -p " +:+ dquote +:+ password +:+ dquote +:+ " scp " +:+ options
           +:+ " " +:+ user +:+ "@" +:+ target_ip +:+ ":" +:+ remote_path
           +:+ " " +:+ local_path)
          None).

(** ** imaging.py: the fleet pass *)

(** The [for minion_ip in minions_config] loop of [image_all_minions],
    threading [results]. *)
Fixpoint image_each (env : Env) (system_name : string) (ips : list string)
    (results : gmap string bool) : M (gmap string bool) :=
  match ips with
  | [] => mret results
  | minion_ip :: rest =>
      b ← image_minion env minion_ip system_name;
      image_each env system_name rest (<[minion_ip := b]> results)
  end.

(** [image_all_minions(system_name)]; the keys of the loaded dictionary
    are visited in the order of [map_to_list]. *)
Definition image_all_minions (env : Env) (system_name : string)
    : M (gmap string bool) :=
  minions_config ← get_minions;
  image_each env system_name (map_to_list minions_config).*1 ∅.

(** ** files/minion.py: the capture program on the device *)

(** One entry of [captures]. *)
Record Capture := mkCapture {
  cap_success : bool;       (* 'success' *)
  cap_path : option string; (* 'path' *)
  cap_error : option string (* 'error' *)
}.

(** [str(x)] for a string or [None]. *)
Definition str_or_none (o : option string) : string := default "None" o.

(** [take_images]: [attempt cam_id] is the body of the [try] for one
    camera, which yields the path of the image or raises.  The result is
    the flag returned and [captures], in the order of its keys. *)
Definition take_images (attempt : nat → Res string)
    : bool * list (nat * Capture) :=
  let captures :=
    map (λ cam_id,
           (cam_id,
            match attempt cam_id with
            | Ok path => mkCapture true (Some path) None
            | Raise e => mkCapture false None (Some (str_exn e))
            end)) [1%nat; 2%nat] in
  (existsb (λ c, cap_success c.2) captures, captures).

(** The ['status'] column that [write_status_log] writes. *)
Definition log_status (captures : list (nat * Capture)) : string :=
  if forallb (λ c, cap_success c.2) captures then "SUCCESS"
  else if existsb (λ c, cap_success c.2) captures then "PARTIAL"
  else "FAILED".

(** What [main] prints, given [captures]; every [print] ends its line. *)
Definition main_output (captures : list (nat * Capture)) : string :=
  if existsb (λ c, cap_success c.2) captures
  then
    let successful_cams :=
      map (λ c, "Camera " +:+ pretty c.1)
        (filter (λ c, cap_success c.2 = true) captures) in
    let failed_cams :=
      map (λ c, "Camera " +:+ pretty c.1 +:+ " ("
                +:+ str_or_none (cap_error c.2) +:+ ")")
        (filter (λ c, cap_success c.2 = false) captures) in
    "Partial success: Images captured from "
    +:+ Py.join " and " successful_cams +:+ newline
    +:+ match failed_cams with
        | [] => EmptyString
        | _ => "Failed cameras: " +:+ Py.join "; " failed_cams +:+ newline
        end
  else "Error: No images captured from either camera" +:+ newline.

(** The field names of the log. *)
Definition cam_field (cam_id : nat) (field : string) : string :=
  "cam" +:+ pretty cam_id +:+ "_" +:+ field.

(** [row_data] of [write_status_log], in the order of insertion; a value
    [None] is Python's [None]. *)
Definition row_data (timestamp : string) (captures : list (nat * Capture))
    : list (string * option string) :=
  [("timestamp", Some timestamp); ("status", Some (log_status captures))]
  ++ flat_map (λ c,
       (cam_field c.1 "path",
        if cap_success c.2 then cap_path c.2 else Some EmptyString)
       :: (if negb (cap_success c.2) && truthy (cap_error c.2)
           then [(cam_field c.1 "error", cap_error c.2)]
           else [])) captures.

(** [headers] of [write_status_log]. *)
Definition headers (captures : list (nat * Capture)) : list string :=
  ["timestamp"; "status"]
  ++ flat_map (λ c, map (cam_field c.1) ["path"; "error"]) captures.

(** * Vocabulary of the further statements *)


(** No device signals a position request: every poll that is answered
    fails to fetch the request file. *)
Definition never_signalled (env : Env) : Prop :=
  ∀ n ip r, respond env n (poll_call ip) = Ok r → success r = false.

(** The event is a poll of a device. *)
Definition is_poll (ev : Event) : Prop :=
  ∃ ip r, ev = Remote (poll_call ip) r.

(** The fetching of the lease file from the router. *)
Definition lease_call : Call :=
  ReceiveFile "router" "/var/lib/misc/dnsmasq.leases" "config/leases.csv" None.

(** The devices an update pass has accounted for. *)
Definition accounted (st : Stats) : nat := n_updated st + n_skipped st + n_failed st.

(** The counters after one more device was skipped. *)
Definition one_more_skipped (st : Stats) : Stats :=
  mkStats (n_total st) (n_updated st) (S (n_skipped st)) (n_failed st).

(** * Further samples *)

(** No remote operation can be issued: the configuration does not load. *)
Definition unconfigured_env : Env :=
  mkEnv sample_clock (λ _ _, Raise (Exception "Could not load config file"))
    (λ _ _ _, None).

Definition sample_path : string := "documents/images/20240102/lilo.png".

(** Attempts of the two cameras. *)
Definition both_cameras_work : nat → Res string := λ _, Ok sample_path.

Definition second_camera_busy : nat → Res string := λ cam_id,
  if (cam_id =? 2)%nat then Raise (Exception "busy") else Ok sample_path.

Definition no_camera_works : nat → Res string := λ _, Raise (Exception "busy").

(** The capture command prints what [main] prints for the attempts. *)
Definition capture_env (attempt : nat → Res string) : Env :=
  constant_env (mkResult true (main_output (take_images attempt).2) None).

(** A configuration whose device section has no ['options']. *)
Definition sample_config : gmap string (gmap string string) :=
  {[ "minion" := {[ "password" := "secret"; "user" := "pi" ]} ]}.

(** * Reasoning about computations *)

Section Respects.

Context (R : World → World → Prop) `{!PreOrder R}.

Lemma respects_ret {A} (a : A) : respects R (mret a).
Proof. intros w r w' [= <- <-]. reflexivity. Qed.

Lemma respects_raise {A} (e : exn) : respects R (raise e : M A).
Proof. intros w r w' [= <- <-]. reflexivity. Qed.

Lemma respects_lift_res {A} (x : Res A) : respects R (lift_res x).
Proof. intros w r w' [= <- <-]. reflexivity. Qed.

Lemma respects_bind {A B} (m : M A) (f : A → M B) :
  respects R m → (∀ a, respects R (f a)) → respects R (m ≫= f).
Proof.
  intros Hm Hf w r w'. unfold mbind, M_bind.
  destruct (m w) as [[a|e] w1] eqn:E; intros H.
  - transitivity w1; [exact (Hm _ _ _ E) | exact (Hf _ _ _ _ H)].
  - injection H as <- <-. exact (Hm _ _ _ E).
Qed.

Lemma respects_try_except {A} (body : M A) (handler : exn → M A) :
  respects R body → (∀ e, respects R (handler e)) →
  respects R (try_except body handler).
Proof.
  intros Hb Hh w r w'. unfold try_except.
  destruct (body w) as [[a|e] w1] eqn:E; intros H.
  - injection H as <- <-. exact (Hb _ _ _ E).
  - transitivity w1; [exact (Hb _ _ _ E) | exact (Hh _ _ _ _ H)].
Qed.

Lemma respects_py_list {A} (l : list (M A)) :
  Forall (respects R) l → respects R (py_list l).
Proof.
  induction 1 as [|m l Hm _ IH]; cbn [py_list].
  - apply respects_ret.
  - apply respects_bind; [exact Hm|]. intros a.
    apply respects_bind; [exact IH|]. intros r. apply respects_ret.
Qed.

End Respects.

#[global] Instance effects_preorder Q K : PreOrder (effects Q K).
Proof.
  split.
  - intros w. split; [|done]. exists []. by rewrite app_nil_r.
  - intros w1 w2 w3 [(e1 & H1 & Q1) K1] [(e2 & H2 & Q2) K2]. split.
    + exists (e1 ++ e2). rewrite H2, H1, app_assoc. split; [done|].
      by apply Forall_app.
    + intros ip Hip. rewrite K2, K1; done.
Qed.

Section Effects.

Context (Q : Event → Prop) (K : string → Prop).

Lemma effects_ret {A} (a : A) : respects (effects Q K) (mret a).
Proof. apply respects_ret, _. Qed.

Lemma effects_raise {A} (e : exn) : respects (effects Q K) (raise e : M A).
Proof. apply respects_raise, _. Qed.

Lemma effects_lift_res {A} (x : Res A) : respects (effects Q K) (lift_res x).
Proof. apply respects_lift_res, _. Qed.

Lemma effects_bind {A B} (m : M A) (f : A → M B) :
  respects (effects Q K) m → (∀ a, respects (effects Q K) (f a)) →
  respects (effects Q K) (m ≫= f).
Proof. apply respects_bind, _. Qed.

Lemma effects_try_except {A} (body : M A) (handler : exn → M A) :
  respects (effects Q K) body → (∀ e, respects (effects Q K) (handler e)) →
  respects (effects Q K) (try_except body handler).
Proof. apply respects_try_except, _. Qed.

Lemma effects_py_list {A} (l : list (M A)) :
  Forall (respects (effects Q K)) l → respects (effects Q K) (py_list l).
Proof. apply respects_py_list, _. Qed.

End Effects.

Lemma new_events_app (w w' : World) (evs : list Event) :
  trace w' = trace w ++ evs → new_events w w' = evs.
Proof. intros H. unfold new_events. rewrite H. by rewrite drop_app_length. Qed.

Lemma effects_new_events Q K w w' :
  effects Q K w w' → Forall Q (new_events w w').
Proof. intros [(evs & H & HQ) _]. by rewrite (new_events_app _ _ _ H). Qed.

Lemma run_bind {A B} (m : M A) (f : A → M B) (w : World) :
  (m ≫= f) w = match m w with
               | (Ok a, w') => f a w'
               | (Raise e, w') => (Raise e, w')
               end.
Proof. reflexivity. Qed.

Lemma run_ret {A} (a : A) (w : World) : (mret a : M A) w = (Ok a, w).
Proof. reflexivity. Qed.

Lemma get_minion_run (minion_ip : string) (w : World) :
  get_minion minion_ip w = (Ok (store w !! minion_ip), w).
Proof. reflexivity. Qed.

Section Store.

Context (env : Env).

Lemma remote_run c w :
  remote env c w =
    (respond env (List.length (trace w)) c,
     called w c (respond env (List.length (trace w)) c)).
Proof. reflexivity. Qed.

Lemma now_run w :
  now env w = (Ok (clock env (ticks w)), mkWorld (store w) (S (ticks w)) (trace w)).
Proof. reflexivity. Qed.

Lemma write_minions_plain w minion_ip st updated :
  write_minions env minion_ip st None None updated None None w
  = (Ok true, committed env w minion_ip st updated).
Proof.
  unfold write_minions, committed, mbind, M_bind, load_minions, lift_res, getitem.
  destruct (store w !! minion_ip) as [m|] eqn:Hm; cbn.
  - rewrite Hm. destruct updated; cbn; reflexivity.
  - rewrite lookup_insert_eq. destruct updated; cbn; rewrite insert_insert_eq; reflexivity.
Qed.

Lemma guarded_bind {B} (b : bool) (f : Res Minion) (k : Minion → M B) m w r w' :
  ((if b then lift_res f else mret m) ≫= k) w = (r, w') →
  (∃ e, b = true ∧ f = Raise e ∧ r = Raise e ∧ w' = w)
  ∨ (∃ m', k m' w = (r, w') ∧ (m' = m ∧ b = false ∨ b = true ∧ f = Ok m')).
Proof.
  rewrite run_bind. destruct b.
  - unfold lift_res. destruct f as [m'|e].
    + intros H. right. exists m'. eauto.
    + intros [= <- <-]. left. eauto.
  - rewrite run_ret. intros H. right. exists m. eauto.
Qed.

Lemma camera_step_refl m : camera_step m m.
Proof.
  unfold camera_step; split_and!; try done.
  intros cam c H. exists c. split_and!; [done|by left..].
Qed.

Lemma camera_step_trans m1 m2 m3 :
  camera_step m1 m2 → camera_step m2 m3 → camera_step m1 m3.
Proof.
  intros (S1 & A1 & U1 & D1 & C1) (S2 & A2 & U2 & D2 & C2).
  unfold camera_step; split_and!; try congruence.
  intros cam c H. destruct (C1 _ _ H) as (c' & H' & [E1|T1] & [F1|G1]);
    destruct (C2 _ _ H') as (c'' & H'' & [E2|T2] & [F2|G2]);
    exists c''; (split; [done|]); unfold kept_or_set;
    rewrite <- ?E1, <- ?F1 in *; split; solve [by left | by right | right; congruence].
Qed.

Lemma update_camera_status_step m cam st current_time m' :
  truthy st = true →
  update_camera_status m cam st current_time = Ok m' → camera_step m m'.
Proof.
  intros Hst. unfold update_camera_status, getitem.
  destruct (cameras m !! cam) as [c|] eqn:Hc; [|done]. intros [= <-].
  unfold camera_step; cbn; split_and!; try done.
  - apply dom_insert_lookup_L. eauto.
  - intros k c0 Hk. cbn. destruct (decide (cam = k)) as [->|Hne].
    + rewrite lookup_insert_eq. eexists. split; [done|]. cbn.
      rewrite Hc in Hk. injection Hk as <-. split; [by right|by left].
    + rewrite lookup_insert_ne by done. exists c0. split_and!; [done|by left..].
Qed.

Lemma set_camera_pos_step m cam pos m' :
  truthy pos = true →
  set_camera_pos m cam pos = Ok m' → camera_step m m'.
Proof.
  intros Hpos. unfold set_camera_pos, getitem.
  destruct (cameras m !! cam) as [c|] eqn:Hc; [|done]. intros [= <-].
  unfold camera_step; cbn; split_and!; try done.
  - apply dom_insert_lookup_L. eauto.
  - intros k c0 Hk. cbn. destruct (decide (cam = k)) as [->|Hne].
    + rewrite lookup_insert_eq. eexists. split; [done|]. cbn.
      rewrite Hc in Hk. injection Hk as <-. split; [by left|by right].
    + rewrite lookup_insert_ne by done. exists c0. split_and!; [done|by left..].
Qed.

(** A write either raises before anything is stored, or stores a record
    for its address and journals the commit. *)
Lemma write_minions_shape w minion_ip st cam1_status cam2_status updated
    cam1_position cam2_position r w' :
  write_minions env minion_ip st cam1_status cam2_status updated
    cam1_position cam2_position w = (r, w') →
  (∃ e, r = Raise e ∧ store w' = store w ∧ trace w' = trace w)
  ∨ (r = Ok true ∧ trace w' = trace w ++ [Commit minion_ip st updated]
     ∧ ∃ m',
         store w' = <[minion_ip := m']> (store w)
         ∧ camera_step
             (mkMinion (Some st) (Some (isoformat (clock env (ticks w))))
                (if updated then Some (date_isoformat (clock env (S (ticks w))))
                 else last_update (default fresh_minion (store w !! minion_ip)))
                (cameras (default fresh_minion (store w !! minion_ip)))) m').
Proof.
  unfold write_minions. rewrite run_bind. unfold load_minions at 1.
  set (data := match store w !! minion_ip with
               | Some _ => store w
               | None => <[minion_ip := fresh_minion]> (store w)
               end).
  assert (Hins : ∀ x, <[minion_ip := x]> data = <[minion_ip := x]> (store w)).
  { intros x. subst data. destruct (store w !! minion_ip); [done|].
    by rewrite insert_insert_eq. }
  assert (Hget : getitem data minion_ip = Ok (default fresh_minion (store w !! minion_ip))).
  { subst data. unfold getitem. destruct (store w !! minion_ip) eqn:E; cbn.
    - by rewrite E.
    - by rewrite lookup_insert_eq. }
  rewrite run_bind. unfold lift_res at 1. rewrite Hget.
  set (m := default fresh_minion (store w !! minion_ip)).
  rewrite run_bind, now_run, run_bind.
  set (m1 := mkMinion (Some st) (Some (isoformat (clock env (ticks w))))
               (if updated then Some (date_isoformat (clock env (S (ticks w))))
                else last_update m) (cameras m)).
  assert (Hrest : ∀ w2, store w2 = store w → trace w2 = trace w →
            ((if truthy cam1_status
              then lift_res (update_camera_status m1 "camera1" cam1_status
                               (isoformat (clock env (ticks w2))))
              else mret m1) ≫= λ m2,
             (if truthy cam2_status
              then lift_res (update_camera_status m2 "camera2" cam2_status
                               (isoformat (clock env (ticks w2))))
              else mret m2) ≫= λ m3,
             (if truthy cam1_position
              then lift_res (set_camera_pos m3 "camera1" cam1_position)
              else mret m3) ≫= λ m4,
             (if truthy cam2_position
              then lift_res (set_camera_pos m4 "camera2" cam2_position)
              else mret m4) ≫= λ m5,
             write_yaml (<[minion_ip := m5]> data) minion_ip st updated)
              (mkWorld (store w2) (S (ticks w2)) (trace w2)) = (r, w') →
            (∃ e, r = Raise e ∧ store w' = store w ∧ trace w' = trace w)
            ∨ (r = Ok true ∧ trace w' = trace w ++ [Commit minion_ip st updated]
               ∧ ∃ m', store w' = <[minion_ip := m']> (store w) ∧ camera_step m1 m')).
  { intros w2 Hs Ht H.
    apply guarded_bind in H as [(e & _ & _ & -> & ->)|(m2 & H & H2)]; [left; eauto|].
    apply guarded_bind in H as [(e & _ & _ & -> & ->)|(m3 & H & H3)]; [left; eauto|].
    apply guarded_bind in H as [(e & _ & _ & -> & ->)|(m4 & H & H4)]; [left; eauto|].
    apply guarded_bind in H as [(e & _ & _ & -> & ->)|(m5 & H & H5)]; [left; eauto|].
    unfold write_yaml in H. injection H as <- <-. right.
    split; [done|]. cbn. rewrite Ht. split; [done|].
    exists m5. rewrite Hins. split; [done|].
    assert (camera_step m1 m2) as S2.
    { destruct H2 as [[-> _]|[T E]]; [apply camera_step_refl|].
      by eapply update_camera_status_step. }
    assert (camera_step m2 m3) as S3.
    { destruct H3 as [[-> _]|[T E]]; [apply camera_step_refl|].
      by eapply update_camera_status_step. }
    assert (camera_step m3 m4) as S4.
    { destruct H4 as [[-> _]|[T E]]; [apply camera_step_refl|].
      by eapply set_camera_pos_step. }
    assert (camera_step m4 m5) as S5.
    { destruct H5 as [[-> _]|[T E]]; [apply camera_step_refl|].
      by eapply set_camera_pos_step. }
    eauto using camera_step_trans. }
  subst m1. destruct updated.
  - rewrite run_bind, now_run, run_ret, run_bind, now_run.
    apply (Hrest (mkWorld (store w) (S (S (ticks w))) (trace w))); done.
  - rewrite run_ret, run_bind, now_run.
    apply (Hrest (mkWorld (store w) (S (ticks w)) (trace w))); done.
Qed.

(** The cameras of the record stored by a write whose record has both
    camera entries. *)
Lemma write_minions_cameras w minion_ip st cam1_status cam2_status updated
    cam1_position cam2_position cam1 cam2 :
  cameras (default fresh_minion (store w !! minion_ip)) !! "camera1" = Some cam1 →
  cameras (default fresh_minion (store w !! minion_ip)) !! "camera2" = Some cam2 →
  ∃ cams,
    write_minions env minion_ip st cam1_status cam2_status updated
      cam1_position cam2_position w
    = (Ok true,
       mkWorld
         (<[minion_ip :=
              mkMinion (Some st) (Some (isoformat (clock env (ticks w))))
                (if updated then Some (date_isoformat (clock env (S (ticks w))))
                 else last_update (default fresh_minion (store w !! minion_ip)))
                cams]> (store w))
         (if updated then 3 + ticks w else 2 + ticks w)
         (trace w ++ [Commit minion_ip st updated]))
    ∧ (∀ k, cams !! k =
         if decide (k = "camera1") then
           Some (with_position
                   (with_status cam1 cam1_status
                      (isoformat (clock env (if updated then 2 + ticks w else 1 + ticks w))))
                   cam1_position)
         else if decide (k = "camera2") then
           Some (with_position
                   (with_status cam2 cam2_status
                      (isoformat (clock env (if updated then 2 + ticks w else 1 + ticks w))))
                   cam2_position)
         else cameras (default fresh_minion (store w !! minion_ip)) !! k).
Proof.
  set (m := default fresh_minion (store w !! minion_ip)). intros H1 H2.
  assert (Hdata : ∃ data, data = match store w !! minion_ip with
                   | Some _ => store w | None => <[minion_ip := fresh_minion]> (store w) end
             ∧ data !! minion_ip = Some m
             ∧ ∀ x, <[minion_ip := x]> data = <[minion_ip := x]> (store w)).
  { eexists; split; [reflexivity|]. subst m.
    destruct (store w !! minion_ip) as [m0|] eqn:Hm; cbn.
    - auto.
    - rewrite lookup_insert_eq. split; [done|]. intros; by rewrite insert_insert_eq. }
  destruct Hdata as (data & Hd & Hl & Hins).
  unfold write_minions, mbind, M_bind, load_minions, lift_res, getitem.
  rewrite <- Hd, Hl.
  unfold with_status, with_position, update_camera_status, set_camera_pos, getitem.
  destruct updated; cbn;
    destruct (truthy cam1_status), (truthy cam2_status),
             (truthy cam1_position), (truthy cam2_position); cbn;
    repeat (rewrite ?lookup_insert_eq, ?H1, ?H2; try rewrite lookup_insert_ne by done; cbn);
    unfold write_yaml; rewrite Hins;
    (eexists; split; [reflexivity|]);
    intros k; repeat case_decide; subst; simplify_map_eq; done.
Qed.

Lemma effects_now Q K : respects (effects Q K) (now env).
Proof.
  intros w r w' [= <- <-]. split; [|done]. exists []. by rewrite app_nil_r.
Qed.

Lemma effects_get_minion Q K minion_ip : respects (effects Q K) (get_minion minion_ip).
Proof. intros w r w' [= <- <-]. reflexivity. Qed.

Lemma effects_get_minions Q K : respects (effects Q K) get_minions.
Proof. intros w r w' [= <- <-]. reflexivity. Qed.

Lemma effects_remote (Q : Event → Prop) K c :
  (∀ r, Q (Remote c r)) → respects (effects Q K) (remote env c).
Proof.
  intros HQ w r w' [= <- <-]. split; [|done]. eexists. split; [reflexivity|].
  repeat constructor. apply HQ.
Qed.

Lemma effects_write_minions (Q : Event → Prop) (K : string → Prop) minion_ip st
    cam1_status cam2_status updated cam1_position cam2_position :
  Q (Commit minion_ip st updated) → ¬ K minion_ip →
  respects (effects Q K)
    (write_minions env minion_ip st cam1_status cam2_status updated
       cam1_position cam2_position).
Proof.
  intros HQ HK w r w' H.
  destruct (write_minions_shape _ _ _ _ _ _ _ _ _ _ H)
    as [(e & _ & Hs & Ht)|(_ & Ht & m' & Hs & _)]; split.
  - exists []. by rewrite app_nil_r.
  - intros ip _. by rewrite Hs.
  - eexists. split; [exact Ht|]. by repeat constructor.
  - intros ip Hip. rewrite Hs. apply lookup_insert_ne. by intros ->.
Qed.

End Store.

(** * The two camera entries *)

Section TwoCameras.

Lemma two_cameras_fresh : two_cameras fresh_minion.
Proof. unfold two_cameras, fresh_minion. cbn. set_solver. Qed.

Lemma two_cameras_default (o : option Minion) :
  (∀ m, o = Some m → two_cameras m) → two_cameras (default fresh_minion o).
Proof. destruct o; cbn; [auto|intros; apply two_cameras_fresh]. Qed.

Lemma two_cameras_lookup m :
  two_cameras m →
  ∃ cam1 cam2, cameras m !! "camera1" = Some cam1 ∧ cameras m !! "camera2" = Some cam2.
Proof.
  intros H.
  assert (is_Some (cameras m !! "camera1")) as [c1 H1]
    by (apply elem_of_dom; rewrite H; set_solver).
  assert (is_Some (cameras m !! "camera2")) as [c2 H2]
    by (apply elem_of_dom; rewrite H; set_solver).
  eauto.
Qed.

Lemma two_cameras_updated m (cams : gmap string Camera) (c1 c2 : Camera) :
  two_cameras m →
  (∀ k, cams !! k = if decide (k = "camera1") then Some c1
                    else if decide (k = "camera2") then Some c2
                    else cameras m !! k) →
  dom cams = ({["camera1"; "camera2"]} : gset string).
Proof.
  intros H Hk. apply set_eq. intros k. rewrite elem_of_dom, Hk.
  repeat case_decide; subst.
  - split; [set_solver|eauto].
  - split; [set_solver|eauto].
  - rewrite <- elem_of_dom, H. done.
Qed.

End TwoCameras.

(** * The capture output parser *)

Section Parser.

Lemma split_from_cons sep k s :
  ∃ piece rest, Py.split_from sep k s = piece :: rest.
Proof.
  revert k. induction s as [|c s IH]; intros k; cbn [Py.split_from]; [eauto|].
  destruct k as [|k]; [|apply IH].
  destruct (prefix sep (String c s)); [eauto|].
  destruct (IH 0%nat) as (p & r & E). rewrite E. eauto.
Qed.

Lemma contains_empty sep : sep ≠ "" → Py.contains sep "" = false.
Proof. destruct sep; [done|]. reflexivity. Qed.

(** A string that contains the separator splits into at least two pieces. *)
Lemma split_second sep s :
  sep ≠ "" → Py.contains sep s = true → is_Some (Py.split sep s !! 1%nat).
Proof.
  intros Hsep. unfold Py.split. induction s as [|c s IH].
  - by rewrite contains_empty.
  - cbn [Py.contains Py.split_from].
    destruct (prefix sep (String c s)) eqn:Hp; cbn [orb].
    + intros _. destruct (split_from_cons sep (String.length sep - 1) s) as (p & r & ->).
      cbn. eauto.
    + intros H. specialize (IH H).
      destruct (Py.split_from sep 0 s) as [|p r]; [by destruct IH|]. exact IH.
Qed.

Lemma parse_failed_line_ok line :
  Py.contains "Failed cameras:" line = true →
  ∃ piece, Py.split "Failed cameras:" line !! 1%nat = Some piece
    ∧ parse_failed_line line = Ok (map Py.strip (Py.split ";" (Py.strip piece))).
Proof.
  intros H. destruct (split_second "Failed cameras:" line) as [piece Hp]; [done..|].
  exists piece. split; [done|]. unfold parse_failed_line. by rewrite Hp.
Qed.

(** The scan never raises. *)
Lemma scan_failed_cameras_ok output_lines failed_cameras :
  ∃ l, scan_failed_cameras output_lines failed_cameras = Ok l.
Proof.
  revert failed_cameras. induction output_lines as [|line rest IH]; intros acc; cbn.
  - eauto.
  - destruct (Py.contains "Failed cameras:" line) eqn:Hc; [|apply IH].
    destruct (parse_failed_line_ok line Hc) as (piece & _ & ->). cbn. apply IH.
Qed.

(** The last line with the marker decides. *)
Lemma scan_failed_cameras_last before line after failed_cameras :
  Py.contains "Failed cameras:" line = true →
  Forall (λ l, Py.contains "Failed cameras:" l = false) after →
  scan_failed_cameras (before ++ line :: after) failed_cameras
  = parse_failed_line line.
Proof.
  intros Hline Hafter. revert failed_cameras.
  assert (Hrest : ∀ acc, scan_failed_cameras after acc = Ok acc).
  { induction Hafter as [|l after Hl _ IH]; intros acc; cbn; [done|].
    rewrite Hl. apply IH. }
  induction before as [|l before IH]; intros acc; cbn.
  - rewrite Hline. destruct (parse_failed_line_ok line Hline) as (piece & _ & ->).
    cbn. apply Hrest.
  - destruct (Py.contains "Failed cameras:" l) eqn:Hc; [|apply IH].
    destruct (parse_failed_line_ok l Hc) as (piece & _ & ->). cbn. apply IH.
Qed.

(** Without a line with the marker the list stays as it was. *)
Lemma scan_failed_cameras_none output_lines failed_cameras :
  Forall (λ l, Py.contains "Failed cameras:" l = false) output_lines →
  scan_failed_cameras output_lines failed_cameras = Ok failed_cameras.
Proof.
  intros H. revert failed_cameras.
  induction H as [|l rest Hl _ IH]; intros acc; cbn; [done|].
  rewrite Hl. apply IH.
Qed.

End Parser.

(** * The imaging workflow *)

Section Imaging.

Context (env : Env).

Lemma final_commit_committed w minion_ip st updated :
  final_commit (committed env w minion_ip st updated) minion_ip st updated.
Proof.
  split.
  - unfold status_of, committed. cbn. by rewrite lookup_insert_eq.
  - unfold committed. cbn. by rewrite last_snoc.
Qed.

Lemma last_update_committed w minion_ip st updated :
  last_update_of (committed env w minion_ip st updated) minion_ip
  = if updated then Some (date_isoformat (clock env (S (ticks w))))
    else last_update_of w minion_ip.
Proof.
  unfold last_update_of, committed. cbn. rewrite lookup_insert_eq. cbn.
  destruct updated; [done|]. by destruct (store w !! minion_ip).
Qed.

Lemma camera_coordinates_cases m :
  match camera_coordinates m with
  | Ok (p1, p2) =>
      position_of m "camera1" = Some p1 ∧ position_of m "camera2" = Some p2
  | Raise e =>
      (∃ k, e = KeyError k)
      ∧ (position_of m "camera1" = None ∨ position_of m "camera2" = None)
  end.
Proof.
  unfold camera_coordinates, position_of, getitem, getfield, mbind, Res_bind.
  destruct (cameras m !! "camera1") as [[s1 l1 [p1|]]|]; cbn; eauto.
  destruct (cameras m !! "camera2") as [[s2 l2 [p2|]]|]; cbn; eauto.
Qed.

Lemma image_minion_absent w minion_ip system_name :
  store w !! minion_ip = None →
  image_minion env minion_ip system_name w = (Ok false, w).
Proof.
  intros H. unfold image_minion. by rewrite run_bind, get_minion_run, H.
Qed.

Lemma image_minion_unpositioned w minion_ip system_name m :
  store w !! minion_ip = Some m →
  position_of m "camera1" = None ∨ position_of m "camera2" = None →
  image_minion env minion_ip system_name w
  = (Ok false, committed env w minion_ip "position needed" true).
Proof.
  intros H Hpos. unfold image_minion. rewrite run_bind, get_minion_run, H.
  pose proof (camera_coordinates_cases m) as Hc.
  destruct (camera_coordinates m) as [[p1 p2]|e].
  - destruct Hc as [H1 H2]. rewrite H1, H2 in Hpos. by destruct Hpos.
  - destruct Hc as [[k ->] _]. by rewrite run_bind, write_minions_plain.
Qed.

Lemma image_minion_positioned w minion_ip system_name m p1 p2 :
  store w !! minion_ip = Some m →
  position_of m "camera1" = Some p1 →
  position_of m "camera2" = Some p2 →
  image_minion env minion_ip system_name w =
    let w1 := committed env w minion_ip "imaging" false in
    let c := capture_call system_name minion_ip p1 p2 in
    match respond env (S (List.length (trace w))) c with
    | Raise e => (Raise e, called w1 c (Raise e))
    | Ok result =>
        let w2 := called w1 c (Ok result) in
        if negb (success result)
        then (Ok false, committed env w2 minion_ip "error" true)
        else if Py.contains "Partial success" (output result)
        then match scan_failed_cameras (output_lines result) [] with
             | Ok failed_cameras =>
                 (Ok false,
                  committed env w2 minion_ip
                    ("partial - " +:+ Py.join ", " failed_cameras) true)
             | Raise e => (Raise e, w2)
             end
        else if Py.contains "Error: No images" (output result)
        then (Ok false, committed env w2 minion_ip "error" true)
        else (Ok true, committed env w2 minion_ip "ready" true)
    end.
Proof.
  intros H H1 H2. unfold image_minion. rewrite run_bind, get_minion_run, H.
  pose proof (camera_coordinates_cases m) as Hc.
  destruct (camera_coordinates m) as [[q1 q2]|e].
  2:{ destruct Hc as [_ [Hc|Hc]]; congruence. }
  destruct Hc as [Hq1 Hq2]. rewrite H1 in Hq1. rewrite H2 in Hq2.
  injection Hq1 as <-. injection Hq2 as <-.
  rewrite run_bind, write_minions_plain, run_bind.
  unfold execute_ssh_command. rewrite remote_run. fold (capture_call system_name minion_ip p1 p2).
  replace (List.length (trace (committed env w minion_ip "imaging" false)))
    with (S (List.length (trace w)))
    by (unfold committed; cbn; rewrite length_app; cbn; lia).
  cbv zeta.
  destruct (respond env (S (List.length (trace w))) _) as [result|e]; [|done].
  destruct (negb (success result)); [by rewrite run_bind, write_minions_plain|].
  destruct (Py.contains "Partial success" (output result)).
  - rewrite run_bind. unfold lift_res, output_lines.
    destruct (scan_failed_cameras _ []); [by rewrite run_bind, write_minions_plain|done].
  - destruct (Py.contains "Error: No images" (output result));
      by rewrite run_bind, write_minions_plain.
Qed.

End Imaging.

(** * What the workflows may journal *)

Ltac effects_step :=
  first
    [ apply effects_ret
    | apply effects_raise
    | apply effects_lift_res
    | apply effects_get_minion
    | apply effects_get_minions
    | apply effects_now
    | apply effects_write_minions
    | apply effects_remote
    | apply effects_try_except
    | apply effects_bind
    | match goal with
      | |- respects _ (if ?b then _ else _) => destruct b
      | |- respects _ (match ?x with _ => _ end) => destruct x
      end ].

Ltac effects_tac := repeat (intros; effects_step).

Section Journal.

Context (env : Env) (Q : Event → Prop) (K : string → Prop).

Lemma image_minion_effects minion_ip system_name :
  (∀ ev, imaging_event minion_ip ev → Q ev) → ¬ K minion_ip →
  respects (effects Q K) (image_minion env minion_ip system_name).
Proof.
  intros HQ HK. unfold image_minion, execute_ssh_command.
  effects_tac; try assumption; intros; apply HQ; done.
Qed.

Lemma succeeded_effects c :
  (∀ r, Q (Remote c r)) → respects (effects Q K) (succeeded (remote env c)).
Proof. intros H. unfold succeeded. effects_tac. done. Qed.

Lemma update_minion_effects minion_ip :
  (∀ ev, update_event minion_ip ev → Q ev) → ¬ K minion_ip →
  respects (effects Q K) (update_minion env minion_ip).
Proof.
  intros HQ HK. unfold update_minion.
  assert (Hstage : ∀ calls, Forall (λ c, call_ip c = Some minion_ip) calls →
            respects (effects Q K)
              (py_list (map (λ c, succeeded (remote env c)) calls))).
  { intros calls Hc. apply effects_py_list.
    apply Forall_map. eapply Forall_impl; [exact Hc|].
    intros c Hip. apply succeeded_effects. intros r. by apply HQ. }
  apply effects_try_except; [|].
  - apply effects_bind; [apply (Hstage (config_calls minion_ip)); by repeat constructor|].
    intros config. destruct (negb (all config)).
    { effects_tac; first [assumption | by apply HQ]. }
    apply effects_bind; [apply (Hstage (core_calls minion_ip)); by repeat constructor|].
    intros core. destruct (negb (all core)).
    { effects_tac; first [assumption | by apply HQ]. }
    apply effects_bind; [apply (Hstage (services_calls minion_ip)); by repeat constructor|].
    intros services. destruct (negb (all services)).
    { effects_tac; first [assumption | by apply HQ]. }
    effects_tac; first [assumption | by apply HQ].
  - intros e. effects_tac; first [assumption | apply HQ; cbn; split; [done|]; by destruct e].
Qed.

Lemma clear_requests_effects ips :
  (∀ ip r, Q (Remote (clear_call ip) r)) →
  respects (effects Q K) (clear_requests env ips).
Proof.
  intros HQ. induction ips as [|ip ips IH]; cbn [clear_requests].
  - apply effects_ret.
  - apply effects_bind; [ |intros _; exact IH].
    apply effects_remote. apply HQ.
Qed.

Lemma poll_requests_effects x y unpositioned ips :
  (∀ ev, positioning_event ev → Q ev) → (∀ ip, ip ∈ ips → ¬ K ip) →
  respects (effects Q K) (poll_requests env x y unpositioned ips).
Proof.
  intros HQ. induction ips as [|ip ips IH]; intros HK; cbn [poll_requests].
  - apply effects_ret.
  - assert (respects (effects Q K) (poll_requests env x y unpositioned ips)) as Hrest.
    { apply IH. intros ip' Hin. apply HK. by right. }
    apply effects_bind; [ |].
    { apply effects_remote. intros r. apply HQ. cbn. eauto. }
    intros result. destruct (success result); [|exact Hrest].
    apply effects_bind; [ |].
    { apply effects_write_minions; [by apply HQ|]. apply HK. by left. }
    intros [|]; [|exact Hrest].
    apply effects_bind; [ |intros; apply effects_ret].
    apply clear_requests_effects. intros ip' r. apply HQ. cbn. eauto.
Qed.

Lemma monitor_round_effects x y :
  (∀ ev, positioning_event ev → Q ev) → (∀ ip, ¬ K ip) →
  respects (effects Q K) (monitor_round env x y).
Proof.
  intros HQ HK. unfold monitor_round.
  apply effects_try_except; [|intros; apply effects_ret].
  apply effects_bind; [apply effects_get_minions|].
  intros minions. apply poll_requests_effects; auto.
Qed.

Lemma monitor_position_effects fuel x y :
  (∀ ev, positioning_event ev → Q ev) → (∀ ip, ¬ K ip) →
  respects (effects Q K) (monitor_position env fuel x y).
Proof.
  intros HQ HK. induction fuel as [|fuel IH]; cbn [monitor_position].
  - apply effects_ret.
  - apply effects_bind; [by apply monitor_round_effects|].
    intros [b|]; [apply effects_ret|exact IH].
Qed.

End Journal.

(** * The update workflow *)

Section Update.

Context (env : Env).

Lemma journalled_nil w : journalled w [] = w.
Proof. destruct w. unfold journalled. cbn. by rewrite app_nil_r. Qed.

Lemma journalled_app w evs1 evs2 :
  journalled (journalled w evs1) evs2 = journalled w (evs1 ++ evs2).
Proof. unfold journalled. cbn. by rewrite app_assoc. Qed.

Lemma py_list_cons c calls w :
  py_list (map (λ c, succeeded (remote env c)) (c :: calls)) w
  = match respond env (List.length (trace w)) c with
    | Ok r =>
        match py_list (map (λ c, succeeded (remote env c)) calls)
                (journalled w [Remote c (Ok r)]) with
        | (Ok l, w') => (Ok (success r :: l), w')
        | (Raise e, w') => (Raise e, w')
        end
    | Raise e => (Raise e, journalled w [Remote c (Raise e)])
    end.
Proof.
  cbn [map py_list]. rewrite run_bind. unfold succeeded at 1.
  rewrite run_bind, remote_run.
  destruct (respond env (List.length (trace w)) c) as [r|e]; [|done].
  rewrite run_ret, run_bind.
  change (called w c (Ok r)) with (journalled w [Remote c (Ok r)]).
  by destruct (py_list _ _) as [[l|e] w'].
Qed.

(** A stage either makes all its calls, in order, or stops at the first
    call that raises. *)
Lemma run_stage calls w :
  (∃ rs, List.length rs = List.length calls
     ∧ py_list (map (λ c, succeeded (remote env c)) calls) w
       = (Ok (success <$> rs), journalled w (answered calls rs)))
  ∨ (∃ e done c rest rs,
       calls = done ++ c :: rest ∧ List.length rs = List.length done
       ∧ py_list (map (λ c, succeeded (remote env c)) calls) w
         = (Raise e, journalled w (answered done rs ++ [Remote c (Raise e)]))).
Proof.
  revert w. induction calls as [|c calls IH]; intros w.
  - left. exists []. split; [done|]. cbn. by rewrite run_ret, journalled_nil.
  - rewrite py_list_cons.
    destruct (respond env (List.length (trace w)) c) as [r|e] eqn:Hr.
    + destruct (IH (journalled w [Remote c (Ok r)]))
        as [(rs & Hl & ->)|(e & done & c' & rest & rs & -> & Hl & ->)].
      * left. exists (r :: rs). split; [cbn; lia|].
        by rewrite journalled_app.
      * right. exists e, (c :: done), c', rest, (r :: rs).
        split; [done|]. split; [cbn; lia|]. by rewrite journalled_app.
    + right. exists e, [], c, calls, []. split; [done|]. split; [done|]. done.
Qed.

Lemma answered_app calls1 calls2 rs1 rs2 :
  List.length rs1 = List.length calls1 →
  answered (calls1 ++ calls2) (rs1 ++ rs2)
  = answered calls1 rs1 ++ answered calls2 rs2.
Proof. intros H. unfold answered. by rewrite zip_with_app. Qed.

(** The update workflow always returns, with one of its outcomes. *)
Lemma update_minion_cases w minion_ip :
  ∃ evs st confirmed b,
    update_outcome minion_ip evs st confirmed b
    ∧ update_minion env minion_ip w
      = (Ok b, committed env (journalled w evs) minion_ip st confirmed).
Proof.
  unfold update_minion, try_except.
  change (config_stage env minion_ip)
    with (map (λ c, succeeded (remote env c)) (config_calls minion_ip)).
  change (core_stage env minion_ip)
    with (map (λ c, succeeded (remote env c)) (core_calls minion_ip)).
  change (services_stage env minion_ip)
    with (map (λ c, succeeded (remote env c)) (services_calls minion_ip)).
  rewrite run_bind.
  destruct (run_stage (config_calls minion_ip) w)
    as [(rs1 & Hl1 & ->)|(e & done & c & rest & rs & Hc & Hl & ->)].
  2:{ rewrite run_bind, write_minions_plain, run_ret.
      eexists _, _, _, _. split; [|reflexivity].
      eapply update_raised; [|exact Hl]. rewrite Hc, <- app_assoc. done. }
  destruct (all (success <$> rs1)) eqn:A1; cbn [negb].
  2:{ rewrite run_bind, write_minions_plain, run_ret.
      eexists _, _, _, _. split; [|reflexivity]. by constructor. }
  rewrite run_bind.
  destruct (run_stage (core_calls minion_ip) (journalled w (answered (config_calls minion_ip) rs1)))
    as [(rs2 & Hl2 & ->)|(e & done & c & rest & rs & Hc & Hl & ->)].
  2:{ rewrite run_bind, write_minions_plain, run_ret, journalled_app.
      eexists _, _, _, _. split; [|rewrite app_assoc, <- answered_app by done; reflexivity].
      eapply update_raised.
      - rewrite Hc, <- !app_assoc. reflexivity.
      - rewrite !length_app. lia. }
  destruct (all (success <$> rs2)) eqn:A2; cbn [negb].
  2:{ rewrite run_bind, write_minions_plain, run_ret, journalled_app.
      eexists _, _, _, _. split; [|reflexivity]. by constructor. }
  rewrite run_bind, journalled_app.
  destruct (run_stage (services_calls minion_ip)
              (journalled w (answered (config_calls minion_ip) rs1
                             ++ answered (core_calls minion_ip) rs2)))
    as [(rs3 & Hl3 & ->)|(e & done & c & rest & rs & Hc & Hl & ->)].
  2:{ rewrite run_bind, write_minions_plain, run_ret, journalled_app.
      eexists _, _, _, _.
      split; [|rewrite <- answered_app, app_assoc, <- answered_app by
                 (rewrite ?length_app; lia); reflexivity].
      eapply update_raised.
      - rewrite Hc, <- !app_assoc. reflexivity.
      - rewrite !length_app. lia. }
  rewrite journalled_app, <- app_assoc.
  destruct (all (success <$> rs3)) eqn:A3; cbn [negb];
    rewrite run_bind, write_minions_plain, run_ret;
    eexists _, _, _, _; (split; [|reflexivity]); by constructor.
Qed.

End Update.

(** * The fleet update pass *)

Section Fleet.

Context (env : Env).

Lemma has_run_today_run minion_ip w :
  has_run_today env minion_ip w
  = (Ok (bool_decide
           (match store w !! minion_ip with
            | Some m => last_update m
            | None => Some ""
            end = Some (date_isoformat (clock env (ticks w))))),
     mkWorld (store w) (S (ticks w)) (trace w)).
Proof. reflexivity. Qed.

Lemma effects_has_run_today Q K minion_ip :
  respects (effects Q K) (has_run_today env minion_ip).
Proof.
  intros w r w'. rewrite has_run_today_run. intros [= <- <-].
  split; [|done]. exists []. cbn. by rewrite app_nil_r.
Qed.

(** A device whose stored update date is the current date is skipped. *)
Lemma update_one_skip minion_ip st w m :
  store w !! minion_ip = Some m →
  last_update m = Some (date_isoformat (clock env (ticks w))) →
  update_one env false minion_ip st w
  = (Ok (mkStats (n_total st) (n_updated st) (S (n_skipped st)) (n_failed st)),
     mkWorld (store w) (S (ticks w)) (trace w)).
Proof.
  intros Hm Hu. unfold update_one. rewrite run_bind, has_run_today_run, Hm.
  rewrite bool_decide_eq_true_2 by done. reflexivity.
Qed.

(** The loop body always returns, and never lowers the skip counter. *)
Lemma update_one_total force_update minion_ip st w :
  ∃ st' w', update_one env force_update minion_ip st w = (Ok st', w')
    ∧ (n_skipped st ≤ n_skipped st')%nat.
Proof.
  unfold update_one. rewrite run_bind, has_run_today_run.
  destruct (negb _ || force_update).
  - rewrite run_bind.
    destruct (update_minion_cases env
                (mkWorld (store w) (S (ticks w)) (trace w)) minion_ip)
      as (evs & s & confirmed & b & _ & ->).
    destruct b; rewrite run_ret; eexists _, _; split; try reflexivity; cbn; lia.
  - rewrite run_ret. eexists _, _. split; [reflexivity|]. cbn. lia.
Qed.

Lemma update_one_effects Q K force_update minion_ip st :
  (∀ ev, update_event minion_ip ev → Q ev) → ¬ K minion_ip →
  respects (effects Q K) (update_one env force_update minion_ip st).
Proof.
  intros HQ HK. unfold update_one.
  apply effects_bind; [apply effects_has_run_today|]. intros ran.
  destruct (negb ran || force_update); [|apply effects_ret].
  apply effects_bind; [by apply update_minion_effects|].
  intros [|]; apply effects_ret.
Qed.

(** A confirmed update stores the date read for the commit. *)
Lemma update_minion_true w minion_ip w' :
  update_minion env minion_ip w = (Ok true, w') →
  ∃ m, store w' !! minion_ip = Some m
    ∧ last_update m = Some (date_isoformat (clock env (S (ticks w)))).
Proof.
  destruct (update_minion_cases env w minion_ip)
    as (evs & s & confirmed & b & Hout & ->).
  intros [= -> <-]. inversion Hout; subst.
  unfold committed. cbn. rewrite lookup_insert_eq. eauto.
Qed.

Section SameDay.

Context (today : string).
Hypothesis same_day : ∀ n, date_isoformat (clock env n) = today.

Lemma update_each_skips minion_ip m ips :
  last_update m = Some today →
  ∀ st w,
    store w !! minion_ip = Some m →
    ∃ st' w',
      update_each env false ips st w = (Ok st', w')
      ∧ effects (λ ev, ¬ contacts minion_ip ev) (λ ip, ip = minion_ip) w w'
      ∧ (n_skipped st + List.length (filter (λ ip, ip = minion_ip) ips)
         ≤ n_skipped st')%nat.
Proof.
  intros Hu. induction ips as [|ip ips IH]; intros st w Hm; cbn [update_each].
  - rewrite run_ret. eexists _, _. split; [done|]. split; [reflexivity|].
    cbn. lia.
  - rewrite run_bind.
    destruct (decide (ip = minion_ip)) as [->|Hne].
    + rewrite (update_one_skip _ _ _ m) by (by rewrite ?same_day).
      destruct (IH (mkStats (n_total st) (n_updated st) (S (n_skipped st)) (n_failed st))
                  (mkWorld (store w) (S (ticks w)) (trace w)) Hm)
        as (st' & w' & -> & [(evs & Ht & HQ) HK] & Hn).
      eexists _, _. split; [done|]. split.
      * split; [by exists evs|]. intros ? ->. by rewrite HK.
      * rewrite filter_cons_True by done. cbn in *. lia.
    + destruct (update_one_total false ip st w) as (st1 & w1 & Hrun & Hs).
      rewrite Hrun.
      assert (effects (λ ev, ¬ contacts minion_ip ev) (λ ip, ip = minion_ip) w w1)
        as He.
      { eapply (update_one_effects _ _ false ip st); [| |exact Hrun].
        - intros [c r|? ? ?]; cbn; [|tauto]. intros -> [= ?]. done.
        - done. }
      assert (store w1 !! minion_ip = Some m) as Hm1
        by (destruct He as [_ HK]; by rewrite HK).
      destruct (IH st1 w1 Hm1) as (st' & w' & -> & He' & Hn).
      eexists _, _. split; [done|]. split.
      * etransitivity; eauto.
      * rewrite filter_cons_False by done. lia.
Qed.

End SameDay.

End Fleet.

(** * The positioning workflow *)

Section Positioning.

Context (env : Env).
Hypothesis Hans : answers env.

Lemma clear_requests_run ips w :
  ∃ rs, List.length rs = List.length ips
    ∧ clear_requests env ips w
      = (Ok (), journalled w (answered (map clear_call ips) rs)).
Proof.
  revert w. induction ips as [|ip ips IH]; intros w; cbn [clear_requests].
  - exists []. split; [done|]. by rewrite run_ret, journalled_nil.
  - rewrite run_bind. unfold execute_ssh_command. rewrite remote_run.
    fold (clear_call ip).
    destruct (Hans (List.length (trace w)) (clear_call ip)) as [r Hr].
    rewrite Hr. change (called w (clear_call ip) (Ok r))
      with (journalled w [Remote (clear_call ip) (Ok r)]).
    destruct (IH (journalled w [Remote (clear_call ip) (Ok r)])) as (rs & Hl & ->).
    exists (r :: rs). split; [cbn; lia|]. by rewrite journalled_app.
Qed.

Lemma truthy_position_string x y : truthy (Some (position_string x y)) = true.
Proof. reflexivity. Qed.

(** The positioning commit either raises before anything is stored, or
    stores both positions without touching [last_update]. *)
Lemma write_minions_position w minion_ip x y r w' :
  write_minions env minion_ip "online" None None false
    (Some (position_string x y)) (Some (position_string x (y + 1))) w = (r, w') →
  (∃ e, r = Raise e ∧ store w' = store w ∧ trace w' = trace w)
  ∨ (r = Ok true ∧ trace w' = trace w ++ [Commit minion_ip "online" false]
     ∧ ∃ m', store w' = <[minion_ip := m']> (store w)
         ∧ positioned_at x y (default fresh_minion (store w !! minion_ip)) m').
Proof.
  intros Hrun.
  destruct (write_minions_shape _ _ _ _ _ _ _ _ _ _ _ Hrun)
    as [?|(-> & Ht & m' & Hs & Hst & _ & Hu & _)]; [by left|].
  right. split; [done|]. split; [done|]. exists m'. split; [done|].
  cbn in Hst, Hu. split; [done|]. split; [done|].
  set (m := default fresh_minion (store w !! minion_ip)) in *.
  assert (Hget : getitem
                   match store w !! minion_ip with
                   | Some _ => store w
                   | None => <[minion_ip := fresh_minion]> (store w)
                   end minion_ip = Ok m).
  { subst m. unfold getitem. destruct (store w !! minion_ip) eqn:E; cbn.
    - by rewrite E.
    - by rewrite lookup_insert_eq. }
  revert Hrun. unfold write_minions, mbind, M_bind, load_minions, lift_res.
  rewrite Hget. cbn -[position_string truthy].
  rewrite !truthy_position_string.
  unfold set_camera_pos, getitem. cbn -[position_string].
  destruct (cameras m !! "camera1") as [c1|] eqn:H1; [|done].
  cbn -[position_string]. rewrite lookup_insert_ne by done.
  destruct (cameras m !! "camera2") as [c2|] eqn:H2; [|done].
  cbn -[position_string].
  unfold write_yaml. intros [= Hw]. rewrite <- Hw in Hs. cbn in Hs.
  assert (Some m' = Some (mkMinion (Some "online")
                            (Some (isoformat (clock env (ticks w)))) (last_update m)
                            (<["camera2" := mkCamera (cam_status c2) (last_captured c2)
                                              (Some (position_string x (y + 1)))]>
                               (<["camera1" := mkCamera (cam_status c1) (last_captured c1)
                                                 (Some (position_string x y))]>
                                  (cameras m))))) as [= ->].
  { rewrite <- (lookup_insert_eq (store w) minion_ip m'), <- Hs.
    by rewrite lookup_insert_eq. }
  unfold position_of. cbn.
  rewrite lookup_insert_ne by done. by rewrite !lookup_insert_eq.
Qed.

(** The polling loop: it finds no request (or its commit raises) and
    leaves the store alone, or it assigns the coordinates to one device
    and clears the request of every device of the set. *)
Lemma poll_requests_cases x y unpos ips w r w' :
  poll_requests env x y unpos ips w = (r, w') →
  ((r = Ok None ∨ ∃ e, r = Raise e)
   ∧ store w' = store w
   ∧ ∃ polls, trace w' = trace w ++ polls ∧ Forall (is_poll_in ips) polls)
  ∨ (r = Ok (Some true)
     ∧ ∃ minion_ip m' polls signal clears,
         minion_ip ∈ ips
         ∧ store w' = <[minion_ip := m']> (store w)
         ∧ positioned_at x y (default fresh_minion (store w !! minion_ip)) m'
         ∧ success signal = true
         ∧ trace w'
           = trace w ++ polls ++ [Remote (poll_call minion_ip) (Ok signal)]
             ++ [Commit minion_ip "online" false]
             ++ answered (map clear_call unpos) clears
         ∧ Forall (is_poll_in ips) polls
         ∧ List.length clears = List.length unpos).
Proof.
  revert w. induction ips as [|ip ips IH]; intros w; cbn [poll_requests].
  - rewrite run_ret. intros [= <- <-]. left. split; [by left|]. split; [done|].
    exists []. by rewrite app_nil_r.
  - rewrite run_bind. unfold receive_file. rewrite remote_run. fold (poll_call ip).
    destruct (Hans (List.length (trace w)) (poll_call ip)) as [rp Hr].
    rewrite Hr.
    assert (Hpoll : is_poll_in (ip :: ips) (Remote (poll_call ip) (Ok rp))).
    { exists ip, rp. split; [by left|done]. }
    assert (Hweak : ∀ polls, Forall (is_poll_in ips) polls →
              Forall (is_poll_in (ip :: ips)) polls).
    { intros polls Hp. eapply Forall_impl; [exact Hp|].
      intros ev (ip' & r' & Hin & ->).
      exists ip', r'. split; [by right|done]. }
    assert (Hrest : poll_requests env x y unpos ips
                      (called w (poll_call ip) (Ok rp)) = (r, w') → _)
      by exact (IH (called w (poll_call ip) (Ok rp))).
    assert (Hskip : poll_requests env x y unpos ips
                      (called w (poll_call ip) (Ok rp)) = (r, w') →
            ((r = Ok None ∨ ∃ e, r = Raise e)
             ∧ store w' = store w
             ∧ ∃ polls, trace w' = trace w ++ polls
                 ∧ Forall (is_poll_in (ip :: ips)) polls)
            ∨ (r = Ok (Some true)
               ∧ ∃ minion_ip m' polls signal clears,
                   minion_ip ∈ ip :: ips
                   ∧ store w' = <[minion_ip := m']> (store w)
                   ∧ positioned_at x y (default fresh_minion (store w !! minion_ip)) m'
                   ∧ success signal = true
                   ∧ trace w'
                     = trace w ++ polls ++ [Remote (poll_call minion_ip) (Ok signal)]
                       ++ [Commit minion_ip "online" false]
                       ++ answered (map clear_call unpos) clears
                   ∧ Forall (is_poll_in (ip :: ips)) polls
                   ∧ List.length clears = List.length unpos)).
    { intros H. destruct (Hrest H)
        as [(Hr' & Hs & polls & Ht & Hp)
           |(Hr' & ip' & m' & polls & sg & cl & Hin & Hs & Hpos & Hsg & Ht & Hp & Hl)].
      - left. split; [done|]. split; [done|].
        exists (Remote (poll_call ip) (Ok rp) :: polls). split.
        + rewrite Ht. cbn. by rewrite <- app_assoc.
        + constructor; [done|by apply Hweak].
      - right. split; [done|].
        exists ip', m', (Remote (poll_call ip) (Ok rp) :: polls), sg, cl.
        split_and!; try done.
        + by right.
        + rewrite Ht. cbn. by rewrite <- app_assoc.
        + constructor; [done|by apply Hweak]. }
    destruct (success rp) eqn:Hsig; [|exact Hskip].
    rewrite run_bind.
    destruct (write_minions env ip "online" None None false
                (Some (position_string x y)) (Some (position_string x (y + 1)))
                (called w (poll_call ip) (Ok rp))) as [rw w1] eqn:Hw.
    destruct (write_minions_position _ _ _ _ _ _ Hw)
      as [(e & -> & Hs & Ht)|(-> & Ht & m' & Hs & Hpos)].
    + intros [= <- <-]. left. split; [eauto|]. split; [done|].
      exists [Remote (poll_call ip) (Ok rp)]. rewrite Ht. split; [done|].
      by constructor.
    + rewrite run_bind.
      destruct (clear_requests_run unpos w1) as (cl & Hl & ->).
      rewrite run_ret. intros [= <- <-]. right. split; [done|].
      exists ip, m', [], rp, cl. split_and!; try done.
      * by left.
      * cbn. rewrite Ht. cbn. by rewrite <- !app_assoc.
Qed.

Lemma monitor_round_cases x y w r w' :
  monitor_round env x y w = (r, w') →
  (r = Ok None ∧ store w' = store w
   ∧ ∃ polls, trace w' = trace w ++ polls
       ∧ Forall (is_poll_in (elements (unpositioned (store w)))) polls)
  ∨ (r = Ok (Some true) ∧ assigned_once x y w w').
Proof.
  unfold monitor_round, try_except. rewrite run_bind.
  unfold get_minions, load_minions at 1.
  destruct (poll_requests env x y _ _ w) as [r1 w1] eqn:Hp.
  destruct (poll_requests_cases _ _ _ _ _ _ _ Hp)
    as [(Hr & Hs & polls & Ht & Hq)
       |(-> & ip & m' & polls & sg & cl & Hin & Hs & Hpos & Hsg & Ht & Hq & Hl)].
  - destruct Hr as [->|[e ->]].
    + intros [= <- <-]. left. eauto.
    + rewrite run_ret. intros [= <- <-]. left. eauto.
  - intros [= <- <-]. right. split; [done|].
    apply elem_of_elements in Hin. unfold unpositioned in Hin.
    apply elem_of_dom in Hin as [m Hm].
    rewrite Hm in Hpos. cbn in Hpos.
    exists ip, m, m', polls, sg, cl. split_and!; done.
Qed.

(** A positioning invocation that returns has assigned the coordinates
    exactly once. *)
Lemma monitor_position_cases fuel x y w r w' :
  monitor_position env fuel x y w = (r, w') →
  (r = Ok None ∧ store w' = store w
   ∧ ∃ polls, trace w' = trace w ++ polls
       ∧ Forall (is_poll_in (elements (unpositioned (store w)))) polls)
  ∨ (r = Ok (Some true) ∧ assigned_once x y w w').
Proof.
  revert w. induction fuel as [|fuel IH]; intros w; cbn [monitor_position].
  - rewrite run_ret. intros [= <- <-]. left. split; [done|]. split; [done|].
    exists []. by rewrite app_nil_r.
  - rewrite run_bind.
    destruct (monitor_round env x y w) as [r1 w1] eqn:Hround.
    destruct (monitor_round_cases _ _ _ _ _ Hround)
      as [(-> & Hs & polls & Ht & Hq)|(-> & Hassigned)].
    2:{ rewrite run_ret. intros [= <- <-]. by right. }
    intros Hrest. destruct (IH _ Hrest)
      as [(-> & Hs' & polls' & Ht' & Hq')
         |(-> & ip & m & m' & polls' & sg & cl & Hm & Hs' & Hpos & Hsg & Hev & Hq' & Hl)].
    + left. split; [done|]. split; [congruence|].
      exists (polls ++ polls'). rewrite Ht', Ht, app_assoc. split; [done|].
      apply Forall_app. split; [done|]. by rewrite <- Hs.
    + right. split; [done|]. rewrite Hs in *.
      exists ip, m, m', (polls ++ polls'), sg, cl. split_and!; try done.
      * rewrite Hev, Ht, <- !app_assoc. done.
      * apply Forall_app. done.
Qed.

(** The first device to answer its poll positively, after the devices
    polled before it have answered negatively, is assigned the
    coordinates. *)
Lemma poll_requests_first x y unpos minion_ip m post pre :
  two_cameras m →
  ∀ w,
    store w !! minion_ip = Some m →
    (∀ i ip, pre !! i = Some ip →
       ∃ r, respond env (List.length (trace w) + i) (poll_call ip) = Ok r
         ∧ success r = false) →
    (∃ r, respond env (List.length (trace w) + List.length pre)
            (poll_call minion_ip) = Ok r
       ∧ success r = true) →
    ∃ w' m',
      poll_requests env x y unpos (pre ++ minion_ip :: post) w
      = (Ok (Some true), w')
      ∧ store w' = <[minion_ip := m']> (store w)
      ∧ positioned_at x y m m'.
Proof.
  intros Hwf. induction pre as [|ip pre IH]; intros w Hm Hneg Hpos;
    cbn [app poll_requests]; rewrite run_bind; unfold receive_file;
    rewrite remote_run.
  - destruct Hpos as (r & Hr & Hsig). cbn in Hr. rewrite Nat.add_0_r in Hr.
    fold (poll_call minion_ip). rewrite Hr, Hsig, run_bind.
    destruct (two_cameras_lookup m Hwf) as (c1 & c2 & H1 & H2).
    set (w1 := called w (poll_call minion_ip) (Ok r)).
    assert (store w1 !! minion_ip = Some m) as Hm1 by done.
    destruct (write_minions_cameras env w1 minion_ip "online" None None false
                (Some (position_string x y)) (Some (position_string x (y + 1)))
                c1 c2) as (cams & Hrun & _); [by rewrite Hm1..|].
    destruct (write_minions_position _ _ _ _ _ _ Hrun)
      as [(e & [=] & _)|(_ & _ & m' & Hs & Hp)].
    rewrite Hrun, run_bind.
    match goal with
    | |- context [clear_requests env unpos ?W] =>
        destruct (clear_requests_run unpos W) as (cl & _ & ->)
    end.
    rewrite run_ret. eexists _, m'. split; [reflexivity|]. cbn.
    rewrite Hm1 in Hp. split; [exact Hs|exact Hp].
  - destruct (Hneg 0%nat ip eq_refl) as (r & Hr & Hsig).
    rewrite Nat.add_0_r in Hr. fold (poll_call ip). rewrite Hr, Hsig.
    apply (IH (called w (poll_call ip) (Ok r))); [done| |].
    + intros i ip' Hi. destruct (Hneg (S i) ip' Hi) as (r' & Hr' & Hs').
      exists r'. split; [|done]. rewrite <- Hr'. f_equal.
      unfold called. cbn. rewrite length_app. cbn. lia.
    + destruct Hpos as (r' & Hr' & Hs'). exists r'. split; [|done].
      rewrite <- Hr'. f_equal. unfold called. cbn. rewrite length_app. cbn. lia.
Qed.

End Positioning.

(** * Splitting and trimming *)

Section Strings.

Lemma append_cons (x : ascii) (a b : string) :
  String x a +:+ b = String x (a +:+ b).
Proof. reflexivity. Qed.

Lemma append_nil_l (a : string) : "" +:+ a = a.
Proof. reflexivity. Qed.

Lemma append_assoc (a b c : string) : (a +:+ b) +:+ c = a +:+ b +:+ c.
Proof.
  induction a as [|x a IH]; [done|]. rewrite !append_cons. by f_equal.
Qed.

Lemma append_nil_r (a : string) : a +:+ "" = a.
Proof. induction a as [|x a IH]; [done|]. rewrite append_cons. by f_equal. Qed.

Lemma prefix_append sep rest : prefix sep (sep +:+ rest) = true.
Proof.
  induction sep as [|a sep IH]; [by destruct rest|].
  rewrite append_cons. cbn [prefix].
  destruct (ascii_dec a a); [exact IH|done].
Qed.

Lemma prefix_char (a c : ascii) (s : string) :
  prefix (String a "") (String c s) = if ascii_dec a c then true else false.
Proof. cbn [prefix]. destruct (ascii_dec a c); [by destruct s|done]. Qed.

Lemma split_from_skip sep u rest :
  Py.split_from sep (String.length u) (u +:+ rest) = Py.split_from sep 0 rest.
Proof.
  induction u as [|a u IH]; [done|].
  rewrite append_cons. cbn [String.length Py.split_from]. exact IH.
Qed.

(** A string without the separator is one piece. *)
Lemma split_absent sep s :
  Py.contains sep s = false → Py.split sep s = [s].
Proof.
  unfold Py.split. induction s as [|c s IH]; cbn [Py.contains Py.split_from].
  - done.
  - intros [Hp Hc]%orb_false_iff. rewrite Hp, (IH Hc). done.
Qed.

(** Splitting at the first occurrence of the separator. *)
Lemma split_at_first sep pre rest :
  sep ≠ "" →
  find sep (pre +:+ sep +:+ rest) = Some (String.length pre) →
  Py.split sep (pre +:+ sep +:+ rest) = pre :: Py.split sep rest.
Proof.
  intros Hsep. unfold Py.split.
  induction pre as [|c pre IH]; rewrite ?append_cons, ?append_nil_l.
  - intros _. destruct sep as [|a u]; [done|].
    rewrite append_cons. cbn [Py.split_from]. rewrite <- append_cons.
    rewrite prefix_append.
    replace (String.length (String a u) - 1)%nat with (String.length u)
      by (cbn [String.length]; lia).
    by rewrite split_from_skip.
  - cbn [find Py.split_from String.length].
    destruct (prefix sep (String c (pre +:+ sep +:+ rest))); [done|].
    destruct (find sep (pre +:+ sep +:+ rest)) as [n|] eqn:Hf; [|done].
    cbn. intros [= ->]. by rewrite IH.
Qed.

Lemma split_semicolon x y :
  Py.contains ";" x = false →
  Py.split ";" (x +:+ ";" +:+ y) = x :: Py.split ";" y.
Proof.
  unfold Py.split. induction x as [|c x IH].
  - intros _. by destruct y.
  - cbn [Py.contains]. intros [Hp Hc]%orb_false_iff.
    rewrite append_cons. cbn [Py.split_from].
    assert (prefix ";" (String c (x +:+ ";" +:+ y)) = false) as ->.
    { rewrite prefix_char in Hp. by rewrite prefix_char. }
    by rewrite (IH Hc).
Qed.

Lemma lstrip_length s : (String.length (Py.lstrip s) ≤ String.length s)%nat.
Proof.
  induction s as [|c s IH]; cbn; [done|].
  destruct (Py.isspace c); cbn; lia.
Qed.

Lemma lstrip_fixed_head c s : Py.lstrip (String c s) = String c s → Py.isspace c = false.
Proof.
  cbn. destruct (Py.isspace c); [|done]. intros H.
  pose proof (lstrip_length s) as Hl. rewrite H in Hl. cbn in Hl. lia.
Qed.

Lemma lstrip_append c z : c ≠ "" → Py.lstrip c = c → Py.lstrip (c +:+ z) = c +:+ z.
Proof.
  destruct c as [|a c]; [done|]. intros _ H.
  rewrite append_cons. cbn [Py.lstrip]. by rewrite (lstrip_fixed_head _ _ H).
Qed.

Lemma rstrip_append z c : c ≠ "" → Py.rstrip c = c → Py.rstrip (z +:+ c) = z +:+ c.
Proof.
  intros Hc H. induction z as [|a z IH]; [done|].
  rewrite append_cons. cbn [Py.rstrip].
  rewrite IH. destruct (z +:+ c) eqn:E; [|done].
  destruct z; [|done]. by destruct c.
Qed.

Lemma join_cons_nonempty c cams : c ≠ "" → Py.join "; " (c :: cams) ≠ "".
Proof. intros Hc. destruct cams; cbn; [done|]. by destruct c. Qed.

Lemma join_cons c cams :
  ∃ z, Py.join "; " (c :: cams) = c +:+ z.
Proof.
  destruct cams; cbn.
  - exists "". by rewrite append_nil_r.
  - eauto.
Qed.

(** A joined list of camera names has no white space at its ends. *)
Lemma strip_join cams :
  cams ≠ [] → Forall camera_name cams →
  Py.strip (" " +:+ Py.join "; " cams) = Py.join "; " cams.
Proof.
  intros Hne Hall. unfold Py.strip. change (Py.lstrip (" " +:+ ?s)) with (Py.lstrip s).
  destruct cams as [|c cams]; [done|]. clear Hne.
  assert (Py.lstrip (Py.join "; " (c :: cams)) = Py.join "; " (c :: cams)) as ->.
  { destruct (join_cons c cams) as [z ->].
    apply Forall_cons_1 in Hall as [(Hc & Hl & _) _]. by apply lstrip_append. }
  revert c Hall. induction cams as [|c' cams IH]; intros c Hall.
  - apply Forall_cons_1 in Hall as [(_ & _ & Hr & _) _]. exact Hr.
  - apply Forall_cons_1 in Hall as [_ Hall].
    change (Py.join "; " (c :: c' :: cams))
      with (c +:+ "; " +:+ Py.join "; " (c' :: cams)).
    rewrite <- append_assoc. apply rstrip_append.
    + apply join_cons_nonempty. by apply Forall_cons_1 in Hall as [(Hc & _) _].
    + by apply IH.
Qed.

Lemma split_join cams :
  Forall camera_name cams →
  Py.split ";" (Py.join "; " cams)
  = match cams with
    | [] => [""]
    | c :: rest => c :: map (λ cam, " " +:+ cam) rest
    end.
Proof.
  induction cams as [|c cams IH]; [done|]. intros Hall.
  apply Forall_cons_1 in Hall as [(_ & _ & _ & Hc) Hall].
  destruct cams as [|c' cams]; [by apply split_absent|].
  change (Py.join "; " (c :: c' :: cams))
    with (c +:+ ";" +:+ " " +:+ Py.join "; " (c' :: cams)).
  rewrite (split_semicolon _ _ Hc). f_equal.
  unfold Py.split in *. rewrite append_cons, append_nil_l. cbn [Py.split_from].
  change (prefix ";" (String " " ?s)) with false. cbv iota.
  by rewrite (IH Hall).
Qed.

Lemma strip_camera_name cam : camera_name cam → Py.strip cam = cam.
Proof. intros (_ & Hl & Hr & _). unfold Py.strip. by rewrite Hl. Qed.

Lemma strip_pieces cams :
  Forall camera_name cams →
  map Py.strip
    match cams with
    | [] => [""]
    | c :: rest => c :: map (λ cam, " " +:+ cam) rest
    end
  = match cams with [] => [""] | _ => cams end.
Proof.
  destruct cams as [|c cams]; [done|]. intros Hall.
  apply Forall_cons_1 in Hall as [Hc Hall]. cbn [map].
  rewrite (strip_camera_name _ Hc). f_equal.
  induction Hall as [|c' cams Hc' _ IH]; [done|]. cbn [map].
  change (Py.strip (" " +:+ c')) with (Py.strip c').
  by rewrite (strip_camera_name _ Hc'), IH.
Qed.

(** The list is read from the text after the first marker of the line,
    when the marker does not occur again. *)
Lemma parse_failed_line_after pre rest :
  find "Failed cameras:" (pre +:+ "Failed cameras:" +:+ rest)
  = Some (String.length pre) →
  Py.contains "Failed cameras:" rest = false →
  parse_failed_line (pre +:+ "Failed cameras:" +:+ rest)
  = Ok (map Py.strip (Py.split ";" (Py.strip rest))).
Proof.
  intros Hf Hrest. unfold parse_failed_line.
  rewrite (split_at_first "Failed cameras:" pre rest) by done.
  by rewrite (split_absent _ _ Hrest).
Qed.

(** The line printed for a list of camera names is read back as that
    list, in order and with its duplicates. *)
Lemma parse_failed_line_join cams :
  cams ≠ [] → Forall camera_name cams →
  Py.contains "Failed cameras:" (" " +:+ Py.join "; " cams) = false →
  parse_failed_line ("Failed cameras: " +:+ Py.join "; " cams) = Ok cams.
Proof.
  intros Hne Hall Hm.
  change ("Failed cameras: " +:+ Py.join "; " cams)
    with ("" +:+ "Failed cameras:" +:+ " " +:+ Py.join "; " cams).
  rewrite parse_failed_line_after; [|reflexivity|exact Hm].
  rewrite (strip_join _ Hne Hall), (split_join _ Hall), (strip_pieces _ Hall).
  by destruct cams.
Qed.

End Strings.

(** * The model on concrete inputs *)

Example split_examples :
  Py.split "ab" "xabyabab" = ["x"; "y"; ""; ""]
  ∧ Py.split "aa" "aaa" = [""; "a"]
  ∧ Py.split ";" "" = [""]
  ∧ Py.split newline partial_output
    = ["Partial success: Images captured from Camera 1"; "Failed cameras: 2"].
Proof. split_and!; reflexivity. Qed.

Example strip_examples :
  Py.strip "  cam1 " = "cam1"
  ∧ Py.strip (newline +:+ "a  b" +:+ newline) = "a  b"
  ∧ Py.strip "   " = "".
Proof. split_and!; reflexivity. Qed.

Example parse_failed_line_examples :
  parse_failed_line "Failed cameras: cam1; cam2 " = Ok ["cam1"; "cam2"]
  ∧ parse_failed_line "Failed cameras: 2; 2" = Ok ["2"; "2"]
  ∧ parse_failed_line "Failed cameras:" = Ok [""]
  ∧ parse_failed_line "Failed cameras: a Failed cameras: b" = Ok ["a"]
  ∧ parse_failed_line "no marker here" = Raise IndexError.
Proof. split_and!; reflexivity. Qed.

(** Output with both markers is a partial success. *)
Example both_markers_example :
  let run :=
    image_minion
      (constant_env (mkResult true "Error: No images, Partial success" None))
      sample_address "lilo" sample_world in
  run.1 = Ok false ∧ status_of run.2 sample_address = Some "partial - ".
Proof. vm_compute. split; reflexivity. Qed.

(** Three leases, one of them twice: the second visit is skipped. *)
Example update_all_minions_example :
  (update_all_minions
     (mkEnv sample_clock (λ _ _, Ok all_good)
        (λ _ _ _, Some [sample_address; "10.0.0.6"; sample_address]))
     true None false sample_world).1
  = Ok (mkStats 3 2 1 0).
Proof. vm_compute. reflexivity. Qed.

(** The polled set is every key of the store: a device that already has
    its positions is polled, and assigned again, like any other. *)
Example positioned_device_is_polled :
  let run := monitor_position (constant_env all_good) 1 7 3 sample_world in
  run.1 = Ok (Some true)
  ∧ position_of sample_minion "camera1" = Some "X1Y1"
  ∧ (store run.2 !! sample_address ≫= λ m, position_of m "camera1") = Some "X7Y3"
  ∧ (store run.2 !! sample_address ≫= λ m, position_of m "camera2") = Some "X7Y4".
Proof. vm_compute. split_and!; reflexivity. Qed.

(** * The claims on the imaging workflow *)

Section ImagingClaims.

Context (env : Env).

(** C1. On a device with both camera positions set, once the capture
    call has returned, the imaging workflow returns and commits a status
    by a fixed precedence: a transport failure commits ["error"] and
    returns false; otherwise output with ["Partial success"] commits
    ["partial - "] followed by the joined failed-camera list and returns
    false, whether or not ["Error: No images"] occurs too; otherwise
    output with ["Error: No images"] commits ["error"] and returns false;
    otherwise ["ready"] is committed and true is returned.  For the
    output ["Partial success: Images captured from Camera 1\nFailed
    cameras: 2"] the committed status is ["partial - 2"] and the result
    is false. *)
Theorem image_minion_classification w minion_ip system_name m p1 p2 result :
  store w !! minion_ip = Some m →
  position_of m "camera1" = Some p1 →
  position_of m "camera2" = Some p2 →
  respond env (S (List.length (trace w)))
    (capture_call system_name minion_ip p1 p2) = Ok result →
  ∃ b st w',
    image_minion env minion_ip system_name w = (Ok b, w')
    ∧ final_commit w' minion_ip st true
    ∧ (success result = false → st = "error" ∧ b = false)
    ∧ (success result = true →
       Py.contains "Partial success" (output result) = true →
       ∃ failed_cameras,
         scan_failed_cameras (output_lines result) [] = Ok failed_cameras
         ∧ st = "partial - " +:+ Py.join ", " failed_cameras ∧ b = false)
    ∧ (success result = true →
       Py.contains "Partial success" (output result) = false →
       Py.contains "Error: No images" (output result) = true →
       st = "error" ∧ b = false)
    ∧ (success result = true →
       Py.contains "Partial success" (output result) = false →
       Py.contains "Error: No images" (output result) = false →
       st = "ready" ∧ b = true)
    ∧ (success result = true → output result = partial_output →
       st = "partial - 2" ∧ b = false).
Proof.
  intros H H1 H2 Hr.
  rewrite (image_minion_positioned env w minion_ip system_name m p1 p2 H H1 H2).
  cbv zeta. rewrite Hr.
  destruct (success result) eqn:Hs; cbn [negb].
  2:{ eexists _, _, _. split; [reflexivity|].
      split; [apply final_commit_committed|]. split_and!; try done. }
  destruct (Py.contains "Partial success" (output result)) eqn:Hp.
  - destruct (scan_failed_cameras_ok (output_lines result) []) as [l Hl].
    rewrite Hl. eexists _, _, _. split; [reflexivity|].
    split; [apply final_commit_committed|]. split_and!; try done.
    + intros _ _. eauto.
    + intros _ Ho. unfold output_lines in Hl. rewrite Ho in Hl.
      vm_compute in Hl. injection Hl as <-. done.
  - assert (Hne : output result ≠ partial_output).
    { intros Ho. rewrite Ho in Hp. vm_compute in Hp. done. }
    destruct (Py.contains "Error: No images" (output result)) eqn:He;
      (eexists _, _, _; split; [reflexivity|];
       split; [apply final_commit_committed|]; split_and!; done).
Qed.

(** C7. When camera1 or camera2 of the record has no stored position,
    the imaging workflow performs no remote call, commits
    ["position needed"] and returns false. *)
Theorem image_minion_needs_position w minion_ip system_name m :
  store w !! minion_ip = Some m →
  position_of m "camera1" = None ∨ position_of m "camera2" = None →
  ∃ w',
    image_minion env minion_ip system_name w = (Ok false, w')
    ∧ new_events w w' = [Commit minion_ip "position needed" true]
    ∧ Forall (λ ev, ¬ is_remote ev) (new_events w w')
    ∧ status_of w' minion_ip = Some "position needed".
Proof.
  intros H Hpos. rewrite (image_minion_unpositioned env w _ _ m H Hpos).
  eexists. split; [reflexivity|].
  assert (Hev : new_events w (committed env w minion_ip "position needed" true)
                = [Commit minion_ip "position needed" true])
    by (by apply new_events_app).
  rewrite Hev. split_and!; [done| |apply final_commit_committed].
  repeat constructor. cbn. tauto.
Qed.

(** C9 (as amended).  Every return of the imaging workflow for an address
    that has a record is preceded by a confirmed commit of a status
    other than the transient ["imaging"], which is then the stored
    status; for an address without a record the workflow returns false
    and leaves the world as it was. *)
Theorem image_minion_commits_before_return w minion_ip system_name b w' :
  image_minion env minion_ip system_name w = (Ok b, w') →
  match store w !! minion_ip with
  | Some _ => ∃ st, final_commit w' minion_ip st true ∧ st ≠ "imaging"
  | None => b = false ∧ w' = w
  end.
Proof.
  destruct (store w !! minion_ip) as [m|] eqn:H.
  2:{ rewrite (image_minion_absent env w _ _ H). by intros [= <- <-]. }
  destruct (position_of m "camera1") as [p1|] eqn:H1.
  2:{ rewrite (image_minion_unpositioned env w _ _ m H) by auto.
      intros [= <- <-]. eexists. split; [apply final_commit_committed|done]. }
  destruct (position_of m "camera2") as [p2|] eqn:H2.
  2:{ rewrite (image_minion_unpositioned env w _ _ m H) by auto.
      intros [= <- <-]. eexists. split; [apply final_commit_committed|done]. }
  rewrite (image_minion_positioned env w _ _ m p1 p2 H H1 H2). cbv zeta.
  destruct (respond env _ _) as [result|e]; [|done].
  destruct (negb (success result)).
  { intros [= <- <-]. eexists. split; [apply final_commit_committed|done]. }
  destruct (Py.contains "Partial success" (output result)).
  { destruct (scan_failed_cameras _ []); [|done].
    intros [= <- <-]. eexists. split; [apply final_commit_committed|done]. }
  destruct (Py.contains "Error: No images" (output result));
    intros [= <- <-]; eexists; (split; [apply final_commit_committed|done]).
Qed.

End ImagingClaims.

Lemma image_minion_classification_witness :
  ∃ b st w',
    image_minion (constant_env partial_result) sample_address "lilo" sample_world
    = (Ok b, w')
    ∧ final_commit w' sample_address st true
    ∧ st = "partial - 2" ∧ b = false.
Proof.
  destruct (image_minion_classification (constant_env partial_result) sample_world
              sample_address "lilo" sample_minion "X1Y1" "X1Y2" partial_result)
    as (b & st & w' & Hrun & Hc & _ & _ & _ & _ & He);
    [reflexivity..|].
  exists b, st, w'. destruct He as [-> ->]; [reflexivity..|]. done.
Defined.

Lemma image_minion_needs_position_witness :
  ∃ w',
    image_minion (constant_env all_good) sample_address "lilo"
      (world_of {[ sample_address := half_positioned_minion ]}) = (Ok false, w')
    ∧ status_of w' sample_address = Some "position needed".
Proof.
  destruct (image_minion_needs_position (constant_env all_good)
              (world_of {[ sample_address := half_positioned_minion ]})
              sample_address "lilo" half_positioned_minion)
    as (w' & Hrun & _ & _ & Hs); [reflexivity | right; reflexivity |].
  exists w'. done.
Defined.

(** C9, as stated, fails: with no record for the address the workflow
    returns without any store write. *)
Lemma image_minion_absent_no_commit :
  image_minion (constant_env all_good) sample_address "lilo" empty_world
  = (Ok false, empty_world)
  ∧ trace empty_world = []
  ∧ status_of empty_world sample_address = None.
Proof. split_and!; reflexivity. Qed.

Lemma image_minion_commits_before_return_witness :
  ∃ st,
    final_commit
      (image_minion (constant_env all_good) sample_address "lilo" sample_world).2
      sample_address st true
    ∧ st ≠ "imaging".
Proof.
  exact (image_minion_commits_before_return (constant_env all_good) sample_world
           sample_address "lilo" true
           (image_minion (constant_env all_good) sample_address "lilo" sample_world).2
           eq_refl).
Defined.

(** * The claims on the store *)

Section StoreClaims.

Context (env : Env).

(** C8. A write that supplies only the status and [cam1_status] to an
    existing record (with its two camera entries) leaves the camera2
    entry, both positions and [last_update] as they were and refreshes
    [last_accessed]; a write to an absent address, whatever its
    arguments, creates a record with exactly the two camera entries.
    No other record is touched, and no write breaks the invariant that
    every stored record has exactly the two camera entries. *)
Theorem write_minions_merge w minion_ip st :
  (∀ cam1_status,
     (∀ m, store w !! minion_ip = Some m → two_cameras m) →
     ∃ w' m',
       write_minions env minion_ip st cam1_status None false None None w
       = (Ok true, w')
       ∧ store w' !! minion_ip = Some m'
       ∧ status m' = Some st
       ∧ last_accessed m' = Some (isoformat (clock env (ticks w)))
       ∧ two_cameras m'
       ∧ (∀ ip, ip ≠ minion_ip → store w' !! ip = store w !! ip)
       ∧ (∀ m, store w !! minion_ip = Some m →
            cameras m' !! "camera2" = cameras m !! "camera2"
            ∧ position_of m' "camera1" = position_of m "camera1"
            ∧ position_of m' "camera2" = position_of m "camera2"
            ∧ last_update m' = last_update m))
  ∧ (∀ cam1_status cam2_status updated cam1_position cam2_position,
       store w !! minion_ip = None →
       ∃ w' m',
         write_minions env minion_ip st cam1_status cam2_status updated
           cam1_position cam2_position w = (Ok true, w')
         ∧ store w' !! minion_ip = Some m'
         ∧ two_cameras m')
  ∧ (∀ cam1_status cam2_status updated cam1_position cam2_position r w',
       (∀ ip m, store w !! ip = Some m → two_cameras m) →
       write_minions env minion_ip st cam1_status cam2_status updated
         cam1_position cam2_position w = (r, w') →
       ∀ ip m, store w' !! ip = Some m → two_cameras m).
Proof.
  split_and!.
  - intros cam1_status Hwf.
    pose proof (two_cameras_default _ Hwf) as Hm.
    destruct (two_cameras_lookup _ Hm) as (c1 & c2 & H1 & H2).
    destruct (write_minions_cameras env w minion_ip st cam1_status None false
                None None c1 c2 H1 H2) as (cams & Hrun & Hk).
    eexists _, _. split; [exact Hrun|]. cbn.
    rewrite lookup_insert_eq. split; [done|]. cbn. split_and!; try done.
    + eapply two_cameras_updated; eauto.
    + intros ip Hne. by rewrite lookup_insert_ne.
    + intros m Hs. rewrite Hs in H1, H2. cbn in H1, H2.
      unfold position_of. rewrite Hs. cbn. rewrite !Hk.
      repeat case_decide; try done. cbn. rewrite H1, H2.
      unfold with_position, with_status. cbn.
      by destruct (truthy cam1_status).
  - intros cam1_status cam2_status updated cam1_position cam2_position Hnone.
    assert (two_cameras (default fresh_minion (store w !! minion_ip))) as Hm
      by (rewrite Hnone; apply two_cameras_fresh).
    destruct (two_cameras_lookup _ Hm) as (c1 & c2 & H1 & H2).
    destruct (write_minions_cameras env w minion_ip st cam1_status cam2_status
                updated cam1_position cam2_position c1 c2 H1 H2)
      as (cams & Hrun & Hk).
    eexists _, _. split; [exact Hrun|]. cbn.
    rewrite lookup_insert_eq. split; [done|].
    eapply two_cameras_updated; eauto.
  - intros cam1_status cam2_status updated cam1_position cam2_position r w'
      Hwf Hrun ip m.
    destruct (write_minions_shape _ _ _ _ _ _ _ _ _ _ _ Hrun)
      as [(e & _ & Hs & _)|(_ & _ & m' & Hs & Hstep)]; rewrite Hs.
    + apply Hwf.
    + destruct (decide (ip = minion_ip)) as [->|Hne].
      * rewrite lookup_insert_eq. intros [= <-].
        destruct Hstep as (_ & _ & _ & Hdom & _). unfold two_cameras.
        rewrite Hdom. cbn. apply two_cameras_default. intros m0. apply Hwf.
      * rewrite lookup_insert_ne by done. apply Hwf.
Qed.

Lemma truthy_omit_empty o : truthy (omit_empty o) = truthy o.
Proof. by destruct o as [[|a s]|]. Qed.

Lemma omit_empty_truthy o : truthy o = true → omit_empty o = o.
Proof. unfold omit_empty. by intros ->. Qed.

(** C10. The empty string passed for a camera status or position is
    treated as an omitted argument; no write clears a camera status or
    position or sets it to the empty string, in any record; and when a
    (non-empty) camera status is supplied to a record with its two
    camera entries, the status is stored and [last_captured] of that
    camera is the time read after [last_accessed] (and after the update
    date, when the write is confirmed). *)
Theorem write_minions_truthiness w minion_ip st cam1_status cam2_status updated
    cam1_position cam2_position :
  write_minions env minion_ip st cam1_status cam2_status updated
    cam1_position cam2_position w
  = write_minions env minion_ip st (omit_empty cam1_status)
      (omit_empty cam2_status) updated (omit_empty cam1_position)
      (omit_empty cam2_position) w
  ∧ (∀ r w' ip m,
       write_minions env minion_ip st cam1_status cam2_status updated
         cam1_position cam2_position w = (r, w') →
       store w !! ip = Some m →
       ∃ m', store w' !! ip = Some m' ∧ cameras_kept_or_set m m')
  ∧ ((∀ m, store w !! minion_ip = Some m → two_cameras m) →
     ∃ w' m' cam1 cam2,
       write_minions env minion_ip st cam1_status cam2_status updated
         cam1_position cam2_position w = (Ok true, w')
       ∧ store w' !! minion_ip = Some m'
       ∧ cameras m' !! "camera1" = Some cam1
       ∧ cameras m' !! "camera2" = Some cam2
       ∧ let current_time :=
           isoformat (clock env (if updated then 2 + ticks w else 1 + ticks w)) in
         (truthy cam1_status = true →
            cam_status cam1 = cam1_status ∧ last_captured cam1 = Some current_time)
         ∧ (truthy cam2_status = true →
            cam_status cam2 = cam2_status ∧ last_captured cam2 = Some current_time)).
Proof.
  split_and!.
  - unfold write_minions. rewrite !truthy_omit_empty.
    destruct (truthy cam1_status) eqn:E1; [rewrite (omit_empty_truthy _ E1)|];
    destruct (truthy cam2_status) eqn:E2; [rewrite (omit_empty_truthy _ E2)| |
                                            rewrite (omit_empty_truthy _ E2)|];
    destruct (truthy cam1_position) eqn:E3;
    rewrite ?(omit_empty_truthy _ E3);
    destruct (truthy cam2_position) eqn:E4;
    rewrite ?(omit_empty_truthy _ E4); reflexivity.
  - intros r w' ip m Hrun Hm.
    destruct (write_minions_shape _ _ _ _ _ _ _ _ _ _ _ Hrun)
      as [(e & _ & Hs & _)|(_ & _ & m' & Hs & Hstep)].
    + exists m. rewrite Hs. split; [done|].
      apply (camera_step_refl m).
    + rewrite Hs. destruct (decide (ip = minion_ip)) as [->|Hne].
      * rewrite lookup_insert_eq. exists m'. split; [done|].
        rewrite Hm in Hstep. cbn in Hstep. apply Hstep.
      * rewrite lookup_insert_ne by done. exists m. split; [done|].
        apply (camera_step_refl m).
  - intros Hwf. pose proof (two_cameras_default _ Hwf) as Hm.
    destruct (two_cameras_lookup _ Hm) as (c1 & c2 & H1 & H2).
    destruct (write_minions_cameras env w minion_ip st cam1_status cam2_status
                updated cam1_position cam2_position c1 c2 H1 H2)
      as (cams & Hrun & Hk).
    eexists _, _, _, _. split; [exact Hrun|]. cbn.
    rewrite lookup_insert_eq. split; [done|]. cbn. rewrite !Hk.
    repeat case_decide; try done. split_and!; try done.
    + intros T. unfold with_position, with_status. rewrite T.
      by destruct (truthy cam1_position).
    + intros T. unfold with_position, with_status. rewrite T.
      by destruct (truthy cam2_position).
Qed.

End StoreClaims.

(** * The claims on the update workflow and the confirm flag *)

Section UpdateClaims.

Context (env : Env).

(** C3 (as amended).  The update workflow always returns.  Its stages run
    in the order config, core, services; every operation of a stage
    that is started is performed, also after one of them has failed,
    and the stage succeeds when all of them did; at the first failing
    stage [failed_config], [failed_core] or [failed_services] is
    committed without the confirm flag, no later stage is started and
    the result is false; when all stages succeed ["online"] is committed
    with the confirm flag, [last_update] becomes the current date and
    the result is true; an operation that raises ends the workflow with
    the unconfirmed status ["error: "] followed by the message, and
    false. *)
Theorem update_minion_stages w minion_ip :
  ∃ evs st confirmed b w',
    update_minion env minion_ip w = (Ok b, w')
    ∧ update_outcome minion_ip evs st confirmed b
    ∧ new_events w w' = evs ++ [Commit minion_ip st confirmed]
    ∧ status_of w' minion_ip = Some st
    ∧ last_update_of w' minion_ip
      = if confirmed then Some (date_isoformat (clock env (S (ticks w))))
        else last_update_of w minion_ip.
Proof.
  destruct (update_minion_cases env w minion_ip)
    as (evs & st & confirmed & b & Hout & Hrun).
  exists evs, st, confirmed, b. eexists. split; [exact Hrun|].
  split; [exact Hout|]. split_and!.
  - apply new_events_app. unfold committed, journalled. cbn.
    by rewrite app_assoc.
  - apply final_commit_committed.
  - by rewrite last_update_committed.
Qed.

(** C6. On a day on which the clock does not change date, a device
    whose stored [last_update] is that date is skipped by an update pass
    with the force flag off: the pass returns, no remote operation is
    made against the device, its record is left as it is, and each of
    its occurrences among the addresses is counted as skipped; the same
    holds of [update_all_minions].  A successful update stores that
    date, so a second pass on the same day does not contact the
    device. *)
Theorem update_pass_skips_updated_today today w minion_ip :
  (∀ n, date_isoformat (clock env n) = today) →
  last_update_of w minion_ip = Some today →
  (∀ ips st,
     ∃ st' w',
       update_each env false ips st w = (Ok st', w')
       ∧ Forall (λ ev, ¬ contacts minion_ip ev) (new_events w w')
       ∧ store w' !! minion_ip = store w !! minion_ip
       ∧ (n_skipped st + List.length (filter (λ ip, ip = minion_ip) ips)
          ≤ n_skipped st')%nat)
  ∧ (∀ linux select_hostname r w',
       update_all_minions env linux select_hostname false w = (r, w') →
       Forall (λ ev, ¬ contacts minion_ip ev) (new_events w w')
       ∧ store w' !! minion_ip = store w !! minion_ip)
  ∧ (∀ w1 w2, update_minion env minion_ip w1 = (Ok true, w2) →
       last_update_of w2 minion_ip = Some today).
Proof.
  intros Hday Hu. unfold last_update_of in Hu.
  destruct (store w !! minion_ip) as [m|] eqn:Hm; [cbn in Hu|done].
  assert (Hpass : ∀ ips st w1, store w1 !! minion_ip = Some m →
            ∃ st' w',
              update_each env false ips st w1 = (Ok st', w')
              ∧ Forall (λ ev, ¬ contacts minion_ip ev) (new_events w1 w')
              ∧ store w' !! minion_ip = store w1 !! minion_ip
              ∧ (n_skipped st + List.length (filter (λ ip, ip = minion_ip) ips)
                 ≤ n_skipped st')%nat).
  { intros ips st w1 Hm1.
    destruct (update_each_skips env today Hday minion_ip m ips Hu st w1 Hm1)
      as (st' & w' & Hrun & He & Hn).
    exists st', w'. split; [done|]. split; [by eapply effects_new_events|].
    split; [|done]. destruct He as [_ HK]. by apply HK. }
  split_and!.
  - intros ips st. rewrite <- Hm. apply Hpass. done.
  - intros linux select_hostname r w'. unfold update_all_minions.
    rewrite run_bind.
    destruct (read_current_leases env linux select_hostname w) as [r1 w1] eqn:E1.
    assert (effects (λ ev, ¬ contacts minion_ip ev) (λ ip, ip = minion_ip) w w1)
      as He1.
    { revert E1. unfold read_current_leases, receive_file.
      apply effects_bind.
      - apply effects_remote. intros ? [=].
      - intros result. destruct (negb (success result)); [apply effects_ret|].
        intros w2 r2 w2' [= <- <-]. reflexivity. }
    assert (store w1 !! minion_ip = Some m) as Hm1
      by (destruct He1 as [_ HK]; by rewrite HK).
    assert (∀ x, (x, w1) = (r, w') →
              Forall (λ ev, ¬ contacts minion_ip ev) (new_events w w')
              ∧ store w' !! minion_ip = Some m) as Hstop.
    { intros x [= _ <-]. split; [by eapply effects_new_events|done]. }
    destruct r1 as [leases|e]; [|apply Hstop].
    destruct leases as [ips'|]; [|rewrite run_ret; apply Hstop].
    destruct ips' as [|ip ips]; [rewrite run_ret; apply Hstop|].
    destruct (update_each_skips env today Hday minion_ip m (ip :: ips) Hu
                (mkStats (List.length (ip :: ips)) 0 0 0) w1 Hm1)
      as (st' & w2 & Hrun2 & He2 & _).
    cbv beta iota. rewrite Hrun2. intros [= _ <-]. split.
    + eapply effects_new_events. etransitivity; eauto.
    + destruct He2 as [_ HK]. by rewrite HK.
  - intros w1 w2 Hrun. destruct (update_minion_true env _ _ _ Hrun) as (m2 & H2 & Hu2).
    unfold last_update_of. rewrite H2. cbn. by rewrite Hu2, Hday.
Qed.

End UpdateClaims.

(** C2 (as amended).  [last_update] changes only by a write with the
    confirm flag: a write without it leaves the field of every record as
    it was, a write with it touches only the record written and stores
    the current date there.  The imaging workflow sets the flag on every
    commit but the transient ["imaging"] (so also on ["error"],
    ["partial - ..."] and ["position needed"]); the update workflow sets
    it only with ["online"]; the positioning workflow never sets it. *)
Theorem last_update_confirm_flag (env : Env) :
  (∀ w minion_ip st cam1_status cam2_status updated cam1_position
     cam2_position r w',
     write_minions env minion_ip st cam1_status cam2_status updated
       cam1_position cam2_position w = (r, w') →
     (∀ ip, updated = false ∨ ip ≠ minion_ip →
        last_update_of w' ip = last_update_of w ip)
     ∧ (updated = true → r = Ok true →
        last_update_of w' minion_ip
        = Some (date_isoformat (clock env (S (ticks w))))))
  ∧ (∀ w minion_ip system_name,
       Forall (imaging_event minion_ip)
         (new_events w (image_minion env minion_ip system_name w).2))
  ∧ (∀ w minion_ip,
       Forall (update_event minion_ip)
         (new_events w (update_minion env minion_ip w).2))
  ∧ (∀ w fuel x y,
       Forall positioning_event
         (new_events w (monitor_position env fuel x y w).2)).
Proof.
  split_and!.
  - intros w minion_ip st c1 c2 updated p1 p2 r w' Hrun.
    destruct (write_minions_shape _ _ _ _ _ _ _ _ _ _ _ Hrun)
      as [(e & -> & Hs & _)|(_ & _ & m' & Hs & Hstep)].
    + split; [|done]. intros ip _. unfold last_update_of. by rewrite Hs.
    + destruct Hstep as (_ & _ & Hu & _). cbn in Hu. split.
      * intros ip Hip. unfold last_update_of. rewrite Hs.
        destruct (decide (ip = minion_ip)) as [->|Hne].
        -- rewrite lookup_insert_eq. cbn. rewrite Hu.
           destruct Hip as [->|]; [|done].
           by destruct (store w !! minion_ip).
        -- by rewrite lookup_insert_ne.
      * intros -> _. unfold last_update_of. rewrite Hs, lookup_insert_eq.
        cbn. by rewrite Hu.
  - intros w minion_ip system_name.
    destruct (image_minion env minion_ip system_name w) as [r w'] eqn:E.
    eapply (effects_new_events _ (λ _, False)).
    eapply image_minion_effects; [| |exact E]; auto.
  - intros w minion_ip.
    destruct (update_minion env minion_ip w) as [r w'] eqn:E.
    eapply (effects_new_events _ (λ _, False)).
    eapply update_minion_effects; [| |exact E]; auto.
  - intros w fuel x y.
    destruct (monitor_position env fuel x y w) as [r w'] eqn:E.
    eapply (effects_new_events _ (λ _, False)).
    eapply monitor_position_effects; [| |exact E]; auto.
Qed.

Lemma last_update_confirm_flag_witness :
  last_update_of
    (write_minions (constant_env all_good) sample_address "imaging"
       None None false None None sample_world).2 sample_address
  = Some "2024-01-01".
Proof.
  destruct (last_update_confirm_flag (constant_env all_good)) as [Hw _].
  destruct (Hw sample_world sample_address "imaging" None None false None None
              (write_minions (constant_env all_good) sample_address "imaging"
                 None None false None None sample_world).1
              (write_minions (constant_env all_good) sample_address "imaging"
                 None None false None None sample_world).2 eq_refl)
    as [Hkeep _].
  rewrite (Hkeep sample_address (or_introl eq_refl)). reflexivity.
Defined.

(** C2, as stated, fails: a failed imaging run commits ["error"] with the
    confirm flag and moves [last_update] to the current date. *)
Lemma imaging_error_advances_last_update :
  let w' := (image_minion (constant_env transport_failure) sample_address "lilo"
               sample_world).2 in
  last (trace w') = Some (Commit sample_address "error" true)
  ∧ status_of w' sample_address = Some "error"
  ∧ last_update_of sample_world sample_address = Some "2024-01-01"
  ∧ last_update_of w' sample_address = Some "2024-01-02".
Proof. vm_compute. split_and!; reflexivity. Qed.

(** C3, as stated, fails: when the first operation of the config stage
    fails, the four others are performed all the same. *)
Lemma update_stage_is_not_fail_fast :
  success transport_failure = false
  ∧ update_minion (constant_env transport_failure) sample_address sample_world
    = (Ok false,
       committed (constant_env transport_failure)
         (journalled sample_world
            (answered (config_calls sample_address)
               (replicate 5 transport_failure)))
         sample_address "failed_config" false)
  ∧ List.length
      (answered (config_calls sample_address) (replicate 5 transport_failure))
    = 5%nat.
Proof. split_and!; reflexivity. Qed.

Lemma update_pass_skips_updated_today_witness :
  ∃ st' w',
    update_each (constant_env all_good) false [sample_address]
      (mkStats 1 0 0 0) (world_of {[ sample_address := updated_minion ]})
    = (Ok st', w')
    ∧ Forall (λ ev, ¬ contacts sample_address ev)
        (new_events (world_of {[ sample_address := updated_minion ]}) w')
    ∧ (1 ≤ n_skipped st')%nat.
Proof.
  destruct (update_pass_skips_updated_today (constant_env all_good) "2024-01-02"
              (world_of {[ sample_address := updated_minion ]}) sample_address)
    as [Hpass _]; [intros n; reflexivity | reflexivity |].
  destruct (Hpass [sample_address] (mkStats 1 0 0 0))
    as (st' & w' & Hrun & Hno & _ & Hn).
  exists st', w'. split; [exact Hrun|]. split; [exact Hno|]. exact Hn.
Defined.

Lemma write_minions_merge_witness :
  ∃ w' m',
    write_minions (constant_env all_good) sample_address "ready" (Some "ok")
      None false None None sample_world = (Ok true, w')
    ∧ store w' !! sample_address = Some m'
    ∧ position_of m' "camera2" = Some "X1Y2"
    ∧ last_update m' = Some "2024-01-01".
Proof.
  destruct (write_minions_merge (constant_env all_good) sample_world
              sample_address "ready") as (Hmerge & _ & _).
  destruct (Hmerge (Some "ok")) as (w' & m' & Hrun & Hl & _ & _ & _ & _ & Hkeep).
  { intros m Hm. vm_compute in Hm. injection Hm as <-. vm_compute. reflexivity. }
  destruct (Hkeep sample_minion eq_refl) as (_ & _ & Hp2 & Hu).
  exists w', m'. split; [exact Hrun|]. split; [exact Hl|].
  split; [exact Hp2|exact Hu].
Defined.

Lemma write_minions_truthiness_witness :
  ∃ w' m' cam1,
    write_minions (constant_env all_good) sample_address "ready" (Some "ok")
      (Some "") false None (Some "") sample_world = (Ok true, w')
    ∧ store w' !! sample_address = Some m'
    ∧ cameras m' !! "camera1" = Some cam1
    ∧ cam_status cam1 = Some "ok"
    ∧ last_captured cam1 = Some "2024-01-02T09:00:1".
Proof.
  destruct (write_minions_truthiness (constant_env all_good) sample_world
              sample_address "ready" (Some "ok") (Some "") false None (Some ""))
    as (_ & _ & Hcap).
  destruct Hcap as (w' & m' & cam1 & cam2 & Hrun & Hl & H1 & _ & Hc1 & _).
  { intros m Hm. vm_compute in Hm. injection Hm as <-. vm_compute. reflexivity. }
  destruct (Hc1 eq_refl) as [Hs Ht].
  exists w', m', cam1. split_and!; assumption.
Defined.

(** * The claim on the positioning workflow *)

(** C4 (as amended).  When every remote operation returns a result: a
    positioning invocation that returns, returns true and has made exactly
    one assignment, to a device of the set polled from the store snapshot
    whose poll was answered positively: camera1 is the given coordinate
    and camera2 the coordinate with Y incremented by 1, the status is
    ["online"], the commit does not carry the confirm flag and leaves
    [last_update] alone, no other record changes, and after the commit
    the request marker is cleared on every device of the polled set.
    The invocation does return as soon as, in its first round, a device
    with its two camera entries answers positively after the devices
    polled before it answered negatively, and that device is the one
    assigned. *)
Theorem monitor_position_assigns_once (env : Env) (x y : Z) :
  answers env →
  (∀ fuel w b w',
     monitor_position env fuel x y w = (Ok (Some b), w') →
     b = true ∧ assigned_once x y w w')
  ∧ (∀ fuel w pre minion_ip post m,
       elements (unpositioned (store w)) = pre ++ minion_ip :: post →
       store w !! minion_ip = Some m →
       two_cameras m →
       (∀ i ip, pre !! i = Some ip →
          ∃ r, respond env (List.length (trace w) + i) (poll_call ip) = Ok r
            ∧ success r = false) →
       (∃ r, respond env (List.length (trace w) + List.length pre)
               (poll_call minion_ip) = Ok r
          ∧ success r = true) →
       ∃ w' m',
         monitor_position env (S fuel) x y w = (Ok (Some true), w')
         ∧ store w' = <[minion_ip := m']> (store w)
         ∧ positioned_at x y m m'
         ∧ assigned_once x y w w').
Proof.
  intros Hans. split.
  - intros fuel w b w' Hrun.
    destruct (monitor_position_cases env Hans _ _ _ _ _ _ Hrun)
      as [([=] & _)|([= ->] & Hassigned)].
    done.
  - intros fuel w pre minion_ip post m Hel Hm Hwf Hneg Hpos.
    destruct (poll_requests_first env Hans x y (pre ++ minion_ip :: post)
                minion_ip m post pre Hwf w Hm Hneg Hpos)
      as (w' & m' & Hpoll & Hs & Hp).
    assert (monitor_position env (S fuel) x y w = (Ok (Some true), w')) as Hrun.
    { cbn [monitor_position]. rewrite run_bind.
      unfold monitor_round, try_except. rewrite run_bind.
      unfold get_minions, load_minions at 1. rewrite Hel, Hpoll.
      by rewrite run_ret. }
    exists w', m'. split; [exact Hrun|]. split; [exact Hs|]. split; [exact Hp|].
    destruct (monitor_position_cases env Hans _ _ _ _ _ _ Hrun)
      as [([=] & _)|(_ & Hassigned)].
    done.
Qed.

Lemma monitor_position_assigns_once_witness :
  assigned_once 1 1 (world_of {[ sample_address := unpositioned_minion ]})
    (monitor_position (constant_env all_good) 1 1 1
       (world_of {[ sample_address := unpositioned_minion ]})).2.
Proof.
  assert (answers (constant_env all_good)) as Hans
    by (intros n c; eexists; reflexivity).
  destruct (monitor_position_assigns_once (constant_env all_good) 1 1 Hans)
    as [Honce _].
  exact (proj2 (Honce 1%nat (world_of {[ sample_address := unpositioned_minion ]})
                 true _ eq_refl)).
Defined.

(** C4, as stated, fails: the positioning commit does not carry the
    confirm flag, and [last_update] is not advanced. *)
Lemma positioning_commit_is_unconfirmed :
  let w := world_of {[ sample_address := unpositioned_minion ]} in
  let run := monitor_position (constant_env all_good) 1 1 1 w in
  run.1 = Ok (Some true)
  ∧ new_events w run.2
    = [Remote (poll_call sample_address) (Ok all_good);
       Commit sample_address "online" false;
       Remote (clear_call sample_address) (Ok all_good)]
  ∧ (store run.2 !! sample_address ≫= λ m, position_of m "camera1") = Some "X1Y1"
  ∧ (store run.2 !! sample_address ≫= λ m, position_of m "camera2") = Some "X1Y2"
  ∧ last_update_of run.2 sample_address = None.
Proof. vm_compute. split_and!; reflexivity. Qed.

(** * The claim on the failed-camera list *)

(** C5 (as amended).  For capture output with the ["Partial success"]
    marker the failed-camera list is read from the lines that contain
    ["Failed cameras:"]: the text after the marker is trimmed, split on
    [';'] and each segment trimmed, so that a printed list of camera
    names is read back in order and with its duplicates; when several
    such lines occur the last one decides; the scan never raises; without
    such a line the list is empty, while an empty (or blank) segment
    after the marker gives the one-element list [[""]], not the empty
    list; both are joined to the empty detail.  The list so read is the
    one committed in the status. *)
Theorem failed_camera_list :
  (∀ lines failed_cameras, ∃ l, scan_failed_cameras lines failed_cameras = Ok l)
  ∧ (∀ before line after failed_cameras,
       Py.contains "Failed cameras:" line = true →
       Forall (λ l, Py.contains "Failed cameras:" l = false) after →
       scan_failed_cameras (before ++ line :: after) failed_cameras
       = parse_failed_line line)
  ∧ (∀ lines,
       Forall (λ l, Py.contains "Failed cameras:" l = false) lines →
       scan_failed_cameras lines [] = Ok [])
  ∧ (∀ pre rest,
       find "Failed cameras:" (pre +:+ "Failed cameras:" +:+ rest)
       = Some (String.length pre) →
       Py.contains "Failed cameras:" rest = false →
       parse_failed_line (pre +:+ "Failed cameras:" +:+ rest)
       = Ok (map Py.strip (Py.split ";" (Py.strip rest)))
       ∧ (Py.strip rest = "" →
          parse_failed_line (pre +:+ "Failed cameras:" +:+ rest) = Ok [""]))
  ∧ (∀ cams,
       cams ≠ [] → Forall camera_name cams →
       Py.contains "Failed cameras:" (" " +:+ Py.join "; " cams) = false →
       parse_failed_line ("Failed cameras: " +:+ Py.join "; " cams) = Ok cams)
  ∧ Py.join ", " [""] = Py.join ", " []
  ∧ (∀ env w minion_ip system_name m p1 p2 result,
       store w !! minion_ip = Some m →
       position_of m "camera1" = Some p1 →
       position_of m "camera2" = Some p2 →
       respond env (S (List.length (trace w)))
         (capture_call system_name minion_ip p1 p2) = Ok result →
       success result = true →
       Py.contains "Partial success" (output result) = true →
       ∃ l w',
         scan_failed_cameras (output_lines result) [] = Ok l
         ∧ image_minion env minion_ip system_name w = (Ok false, w')
         ∧ final_commit w' minion_ip ("partial - " +:+ Py.join ", " l) true).
Proof.
  split_and!.
  - apply scan_failed_cameras_ok.
  - apply scan_failed_cameras_last.
  - intros lines. apply scan_failed_cameras_none.
  - intros pre rest Hf Hrest.
    rewrite (parse_failed_line_after pre rest Hf Hrest).
    split; [done|]. by intros ->.
  - apply parse_failed_line_join.
  - reflexivity.
  - intros env w minion_ip system_name m p1 p2 result Hm H1 H2 Hr Hs Hp.
    destruct (scan_failed_cameras_ok (output_lines result) []) as [l Hl].
    rewrite (image_minion_positioned env w minion_ip system_name m p1 p2 Hm H1 H2).
    cbv zeta. rewrite Hr, Hs, Hp, Hl. cbn [negb].
    eexists _, _. split; [done|]. split; [done|].
    apply final_commit_committed.
Qed.

Lemma failed_camera_list_witness :
  parse_failed_line
    ("Failed cameras: "
     +:+ Py.join "; " ["Camera 2 (busy)"; "Camera 1 (off)"; "Camera 2 (busy)"])
  = Ok ["Camera 2 (busy)"; "Camera 1 (off)"; "Camera 2 (busy)"].
Proof.
  destruct failed_camera_list as (_ & _ & _ & _ & Hjoin & _).
  apply Hjoin.
  - discriminate.
  - repeat constructor; try reflexivity; discriminate.
  - reflexivity.
Defined.

(** C5, as stated, fails: an empty segment after the marker gives a list
    with one (empty) element, not the empty list. *)
Lemma empty_segment_is_not_empty_list :
  Py.contains "Partial success" empty_segment_output = true
  ∧ scan_failed_cameras
      (output_lines (mkResult true empty_segment_output None)) [] = Ok [""]
  ∧ [""] ≠ ([] : list string).
Proof. split_and!; [reflexivity..|discriminate]. Qed.

(** * Reading several records *)

Lemma get_minions_fold (data : gmap string Minion) (minion_ip : list string)
    (found : gmap string Minion) (ip : string) :
  foldl (λ found ip,
           match data !! ip with
           | Some m => <[ip := m]> found
           | None => found
           end) found minion_ip !! ip
  = if bool_decide (ip ∈ minion_ip) then
      match data !! ip with
      | Some m => Some m
      | None => found !! ip
      end
    else found !! ip.
Proof.
  revert found. induction minion_ip as [|k rest IH]; intros found; cbn [foldl].
  - by rewrite bool_decide_eq_false_2 by set_solver.
  - rewrite IH. destruct (decide (ip = k)) as [->|Hne].
    + rewrite (bool_decide_eq_true_2 (k ∈ k :: rest)) by set_solver.
      destruct (data !! k) eqn:Hk.
      * destruct (bool_decide (k ∈ rest)); [done|]. by rewrite lookup_insert_eq.
      * by destruct (bool_decide (k ∈ rest)).
    + assert (found' : (match data !! k with
                        | Some m => <[k := m]> found
                        | None => found
                        end) !! ip = found !! ip).
      { destruct (data !! k); by simplify_map_eq. }
      rewrite found'.
      destruct (decide (ip ∈ rest)).
      * by rewrite !bool_decide_eq_true_2 by set_solver.
      * by rewrite !bool_decide_eq_false_2 by set_solver.
Qed.

(** X1.  [get_minions] with a list of addresses reads the store without
    changing it and returns the stored record of exactly those listed
    addresses that the store knows: an unknown address is left out
    without an error, and a repeated one appears once. *)
Theorem get_minions_list_lookup (minion_ip : list string) (w : World) :
  ∃ found,
    get_minions_list minion_ip w = (Ok found, w)
    ∧ (∀ ip, found !! ip
             = if bool_decide (ip ∈ minion_ip) then store w !! ip else None)
    ∧ dom found = dom (store w) ∩ list_to_set minion_ip.
Proof.
  eexists. split; [reflexivity|].
  assert (Hl : ∀ ip,
    foldl (λ found ip,
             match store w !! ip with
             | Some m => <[ip := m]> found
             | None => found
             end) (∅ : gmap string Minion) minion_ip !! ip
    = if bool_decide (ip ∈ minion_ip) then store w !! ip else None).
  { intros ip. rewrite get_minions_fold, lookup_empty.
    case_bool_decide; [|done]. by destruct (store w !! ip). }
  split; [exact Hl|].
  apply set_eq. intros ip.
  rewrite elem_of_dom, Hl, elem_of_intersection, elem_of_dom, elem_of_list_to_set.
  case_bool_decide; [naive_solver|].
  split; [intros [? ?]; done | naive_solver].
Qed.

(** * Errors of [write_minions] *)

Section WriteErrors.

Context (env : Env).



End WriteErrors.

Example write_minions_missing_camera :
  (write_minions (constant_env all_good) sample_address "ready" None (Some "ok")
     false None None
     (world_of {[ sample_address := mkMinion None None None ∅ ]})).1
  = Raise (KeyError "camera2").
Proof. vm_compute. reflexivity. Qed.

(** * The records a workflow touches *)

Section Touched.

Context (env : Env).

Lemma store_committed w minion_ip st updated :
  ∃ m', store (committed env w minion_ip st updated) = <[minion_ip := m']> (store w)
    ∧ status m' = Some st.
Proof. eexists. split; reflexivity. Qed.

(** The store after [image_minion]: as it was, or with the record of
    [minion_ip], which it had, replaced. *)
Lemma image_minion_store w minion_ip system_name r w' :
  image_minion env minion_ip system_name w = (r, w') →
  store w' = store w
  ∨ ∃ m', store w' = <[minion_ip := m']> (store w) ∧ is_Some (store w !! minion_ip).
Proof.
  destruct (store w !! minion_ip) as [m|] eqn:Hm.
  - pose proof (camera_coordinates_cases m) as Hc.
    destruct (camera_coordinates m) as [[p1 p2]|e] eqn:Ec.
    + destruct Hc as [H1 H2].
      rewrite (image_minion_positioned env w minion_ip system_name m p1 p2 Hm H1 H2).
      cbn zeta. intros H. right.
      assert (Hins : ∀ w2 st u,
                store w2 = store (committed env w minion_ip "imaging" false) →
                ∃ m', store (committed env w2 minion_ip st u)
                      = <[minion_ip := m']> (store w)).
      { intros w2 st u E2.
        destruct (store_committed w2 minion_ip st u) as (m2 & -> & _).
        destruct (store_committed w minion_ip "imaging" false) as (m1 & E1 & _).
        rewrite E2, E1, insert_insert_eq. eauto. }
      destruct (respond env _ _) as [result|e].
      * destruct (negb (success result));
          [|destruct (Py.contains "Partial success" (output result));
            [destruct (scan_failed_cameras _ _)
            |destruct (Py.contains "Error: No images" (output result))]];
          injection H as <- <-;
          first [ destruct (Hins (called (committed env w minion_ip "imaging" false)
                                    (capture_call system_name minion_ip p1 p2)
                                    (Ok result)) "error" true eq_refl) as [m' ->]; eauto; fail
                | edestruct Hins as [m' ->]; [reflexivity|]; eauto; fail
                | idtac ].
        destruct (store_committed w minion_ip "imaging" false) as (m1 & E1 & _).
        cbn [called store]. rewrite E1. eauto.
      * injection H as <- <-.
        destruct (store_committed w minion_ip "imaging" false) as (m1 & E1 & _).
        cbn [called store]. rewrite E1. eauto.
    + destruct Hc as [_ Hc].
      rewrite (image_minion_unpositioned env w minion_ip system_name m Hm Hc).
      intros [= <- <-]. right.
      destruct (store_committed w minion_ip "position needed" true) as (m' & -> & _).
      eauto.
  - rewrite image_minion_absent by done. intros [= <- <-]. by left.
Qed.

Lemma image_minion_touches w minion_ip system_name r w' :
  image_minion env minion_ip system_name w = (r, w') →
  dom (store w') = dom (store w)
  ∧ ∀ ip, ip ≠ minion_ip → store w' !! ip = store w !! ip.
Proof.
  intros H. apply image_minion_store in H as [->|(m' & -> & Hs)]; [done|].
  split.
  - rewrite dom_insert_L. apply elem_of_dom in Hs. set_solver.
  - intros ip Hne. by rewrite lookup_insert_ne.
Qed.

Lemma image_each_touches system_name ips :
  ∀ results w r w',
    image_each env system_name ips results w = (r, w') →
    dom (store w') = dom (store w)
    ∧ ∀ ip, ip ∉ ips → store w' !! ip = store w !! ip.
Proof.
  induction ips as [|k rest IH]; intros results w r w'; cbn [image_each].
  - intros [= <- <-]. done.
  - rewrite run_bind.
    destruct (image_minion env k system_name w) as [[b|e] w1] eqn:E.
    + intros H. apply IH in H as [Hd Hf].
      apply image_minion_touches in E as [Hd1 Hf1].
      split; [congruence|].
      intros ip Hip. rewrite Hf, Hf1; set_solver.
    + intros [= <- <-]. apply image_minion_touches in E as [Hd1 Hf1].
      split; [done|]. intros ip Hip. apply Hf1. set_solver.
Qed.

(** X3.  The imaging workflow neither creates nor deletes a record,
    whatever its result: [image_minion] leaves the keys of the store as
    they were and changes no record but that of [minion_ip], and
    [image_all_minions] leaves the keys as they were. *)
Theorem imaging_keeps_keys w system_name :
  (∀ minion_ip r w',
     image_minion env minion_ip system_name w = (r, w') →
     dom (store w') = dom (store w)
     ∧ ∀ ip, ip ≠ minion_ip → store w' !! ip = store w !! ip)
  ∧ (∀ r w',
       image_all_minions env system_name w = (r, w') →
       dom (store w') = dom (store w)).
Proof.
  split.
  - intros minion_ip r w'. apply image_minion_touches.
  - intros r w'. unfold image_all_minions. rewrite run_bind. cbn.
    intros H. by apply image_each_touches in H as [? _].
Qed.

End Touched.

(** * Positioning without an answer *)

Section Waiting.

Context (env : Env).

Lemma clear_requests_store ips w r w' :
  clear_requests env ips w = (r, w') → store w' = store w.
Proof.
  intros H.
  assert (He : effects (λ _, True) (λ _, True) w w').
  { eapply (clear_requests_effects env (λ _, True) (λ _, True)); [done|exact H]. }
  destruct He as [_ Hk]. apply map_eq. intros ip. by apply Hk.
Qed.

(** The store after the polling loop: as it was, or with the record of
    one polled device replaced. *)
Lemma poll_requests_store x y unpos ips :
  ∀ w r w',
    poll_requests env x y unpos ips w = (r, w') →
    store w' = store w
    ∨ ∃ ip m', ip ∈ ips ∧ store w' = <[ip := m']> (store w).
Proof.
  induction ips as [|ip ips IH]; intros w r w'; cbn [poll_requests].
  - rewrite run_ret. intros [= <- <-]. by left.
  - rewrite run_bind. unfold receive_file. rewrite remote_run.
    assert (Hrest : ∀ rp,
              poll_requests env x y unpos ips
                (called w (poll_call ip) rp) = (r, w') →
              store w' = store w
              ∨ ∃ ip0 m', ip0 ∈ ip :: ips ∧ store w' = <[ip0 := m']> (store w)).
    { intros rp H. apply IH in H as [H|(ip0 & m' & Hin & H)].
      - by left.
      - right. exists ip0, m'. split; [by right|done]. }
    fold (poll_call ip).
    destruct (respond env _ (poll_call ip)) as [rp|e] eqn:Hr.
    2:{ intros [= <- <-]. by left. }
    destruct (success rp); [|apply Hrest].
    rewrite run_bind.
    destruct (write_minions env ip "online" None None false _ _ _)
      as [rw w1] eqn:Hw.
    destruct (write_minions_shape _ _ _ _ _ _ _ _ _ _ _ Hw)
      as [(e & -> & Hs & _)|(-> & _ & m' & Hs & _)].
    + intros [= <- <-]. by left.
    + rewrite run_bind.
      destruct (clear_requests env unpos w1) as [[[]|e] w2] eqn:Hc;
        intros [= <- <-]; apply clear_requests_store in Hc;
        right; exists ip, m'; (split; [by left|]); by rewrite Hc, Hs.
Qed.

Lemma monitor_round_keys x y w r w' :
  monitor_round env x y w = (r, w') → dom (store w') = dom (store w).
Proof.
  unfold monitor_round, try_except. rewrite run_bind.
  unfold get_minions, load_minions at 1.
  destruct (poll_requests env x y _ _ w) as [r1 w1] eqn:Hp.
  assert (Hd : dom (store w1) = dom (store w)).
  { apply poll_requests_store in Hp as [->|(ip & m' & Hin & ->)]; [done|].
    apply elem_of_elements in Hin. unfold unpositioned in Hin.
    rewrite dom_insert_L. set_solver. }
  destruct r1 as [o|e].
  - by intros [= <- <-].
  - rewrite run_ret. by intros [= <- <-].
Qed.

(** X4.  Positioning neither creates nor deletes a record: whatever the
    devices answer and however long it runs, [monitor_position] leaves
    the keys of the store as they were. *)
Theorem monitor_position_keeps_keys fuel x y :
  ∀ w r w',
    monitor_position env fuel x y w = (r, w') → dom (store w') = dom (store w).
Proof.
  induction fuel as [|fuel IH]; intros w r w'; cbn [monitor_position].
  - rewrite run_ret. by intros [= <- <-].
  - rewrite run_bind.
    destruct (monitor_round env x y w) as [[[b|]|e] w1] eqn:Hround;
      apply monitor_round_keys in Hround.
    + rewrite run_ret. by intros [= <- <-].
    + intros H. apply IH in H. congruence.
    + by intros [= <- <-].
Qed.

Hypothesis Hquiet : never_signalled env.

Lemma poll_requests_quiet x y unpos ips :
  ∀ w, ∃ r w',
    poll_requests env x y unpos ips w = (r, w')
    ∧ (r = Ok None ∨ ∃ e, r = Raise e)
    ∧ store w' = store w
    ∧ ∃ polls, trace w' = trace w ++ polls ∧ Forall is_poll polls
               ∧ (ips = [] → polls = []).
Proof.
  induction ips as [|ip ips IH]; intros w; cbn [poll_requests].
  - exists (Ok None), w. rewrite run_ret. split_and!; [done|by left|done|].
    exists []. by rewrite app_nil_r.
  - rewrite run_bind. unfold receive_file. rewrite remote_run.
    fold (poll_call ip).
    destruct (respond env _ (poll_call ip)) as [rp|e] eqn:Hr.
    + rewrite (Hquiet _ _ _ Hr).
      destruct (IH (called w (poll_call ip) (Ok rp)))
        as (r & w' & -> & Hres & Hs & polls & Ht & Hp & _).
      exists r, w'. split_and!; [done|done|done|].
      exists (Remote (poll_call ip) (Ok rp) :: polls). split_and!.
      * rewrite Ht. cbn. by rewrite <- app_assoc.
      * constructor; [by exists ip, (Ok rp)|done].
      * done.
    + eexists _, _. split_and!; [reflexivity|right; eauto|done|].
      exists [Remote (poll_call ip) (Raise e)]. split_and!; [done| |done].
      constructor; [by exists ip, (Raise e)|constructor].
Qed.

Lemma monitor_round_quiet x y w :
  ∃ w',
    monitor_round env x y w = (Ok None, w')
    ∧ store w' = store w
    ∧ ∃ polls, trace w' = trace w ++ polls ∧ Forall is_poll polls
               ∧ (store w = ∅ → polls = []).
Proof.
  unfold monitor_round, try_except. rewrite run_bind.
  unfold get_minions, load_minions at 1.
  destruct (poll_requests_quiet x y (elements (unpositioned (store w)))
              (elements (unpositioned (store w))) w)
    as (r & w' & -> & Hres & Hs & polls & Ht & Hp & Hnil).
  exists w'.
  assert (Hempty : store w = ∅ → polls = []).
  { intros He. apply Hnil. unfold unpositioned. rewrite He, dom_empty_L.
    apply elements_empty. }
  destruct Hres as [->|[e ->]]; [|rewrite run_ret]; eauto 10.
Qed.

(** X8.  As long as no device signals a request, positioning does not
    return: however many iterations it is given, [monitor_position] is
    still in its loop, the store is as it was, and the journal has grown
    by polls only (no commit, no clearing of request files); with no
    record in the store it does not even poll. *)
Theorem monitor_position_waits fuel x y :
  ∀ w, ∃ w',
    monitor_position env fuel x y w = (Ok None, w')
    ∧ store w' = store w
    ∧ ∃ polls, trace w' = trace w ++ polls ∧ Forall is_poll polls
               ∧ (store w = ∅ → polls = []).
Proof.
  induction fuel as [|fuel IH]; intros w; cbn [monitor_position].
  - exists w. rewrite run_ret. split_and!; [done|done|].
    exists []. by rewrite app_nil_r.
  - rewrite run_bind.
    destruct (monitor_round_quiet x y w) as (w1 & -> & Hs1 & p1 & Ht1 & Hp1 & Hn1).
    destruct (IH w1) as (w' & -> & Hs & p2 & Ht & Hp2 & Hn2).
    exists w'. split_and!; [done|congruence|].
    exists (p1 ++ p2). split_and!.
    + by rewrite Ht, Ht1, app_assoc.
    + by apply Forall_app.
    + intros He. rewrite Hn1, Hn2; [done|congruence|done].
Qed.

End Waiting.

Lemma monitor_position_waits_witness :
  never_signalled (constant_env transport_failure)
  ∧ ∃ w',
      monitor_position (constant_env transport_failure) 3 1 1 sample_world
      = (Ok None, w')
      ∧ store w' = store sample_world.
Proof.
  assert (Hq : never_signalled (constant_env transport_failure)).
  { intros n ip r [= <-]. reflexivity. }
  split; [exact Hq|].
  destruct (monitor_position_waits (constant_env transport_failure) Hq 3 1 1
              sample_world) as (w' & H & Hs & _).
  exists w'. split; [exact H|exact Hs].
Defined.

(** * The update pass *)

Section Pass.

Context (env : Env).

(** The three ways the loop body changes the counters. *)
Lemma update_one_counts force_update minion_ip st w :
  ∃ st' w',
    update_one env force_update minion_ip st w = (Ok st', w')
    ∧ n_total st' = n_total st
    ∧ accounted st' = S (accounted st)
    ∧ (force_update = true → n_skipped st' = n_skipped st).
Proof.
  unfold update_one. rewrite run_bind, has_run_today_run.
  destruct (negb _ || force_update) eqn:Hdue.
  - rewrite run_bind.
    destruct (update_minion_cases env
                (mkWorld (store w) (S (ticks w)) (trace w)) minion_ip)
      as (evs & s & confirmed & b & _ & ->).
    destruct b; rewrite run_ret; eexists _, _;
      (split; [reflexivity|]); unfold accounted; cbn; split_and!; auto; lia.
  - rewrite run_ret. eexists _, _. split; [reflexivity|].
    unfold accounted; cbn. split_and!; [done|lia|].
    intros ->. by rewrite orb_true_r in Hdue.
Qed.

Lemma update_each_counts force_update ips :
  ∀ st w, ∃ st' w',
    update_each env force_update ips st w = (Ok st', w')
    ∧ n_total st' = n_total st
    ∧ accounted st' = (accounted st + List.length ips)%nat
    ∧ (force_update = true → n_skipped st' = n_skipped st).
Proof.
  induction ips as [|ip ips IH]; intros st w; cbn [update_each].
  - exists st, w. rewrite run_ret. split_and!; [done|done|cbn; lia|done].
  - rewrite run_bind.
    destruct (update_one_counts force_update ip st w)
      as (st1 & w1 & -> & Ht1 & Ha1 & Hf1).
    destruct (IH st1 w1) as (st' & w' & -> & Ht & Ha & Hf).
    exists st', w'. split_and!; [done|congruence|cbn; lia|].
    intros Hforce. rewrite Hf, Hf1; done.
Qed.

(** X7.  The counters of an update pass add up: when
    [update_all_minions] returns, every leased address has been counted
    once as updated, skipped or failed, a forced pass skips none, and a
    pass that found no address (the lease file could not be fetched, or
    the table was empty) has journalled the fetching only and left the
    store as it was.  The pass raises only if the fetching does. *)
Theorem update_all_minions_counts linux select_hostname force_update w :
  let run := update_all_minions env linux select_hostname force_update w in
  match run.1 with
  | Ok st =>
      accounted st = n_total st
      ∧ (force_update = true → n_skipped st = 0%nat)
      ∧ (n_total st = 0%nat →
         store run.2 = store w
         ∧ ∃ r, new_events w run.2 = [Remote lease_call (Ok r)])
      ∧ (∀ r ips,
           respond env (List.length (trace w)) lease_call = Ok r →
           success r = true →
           lease_ips env (S (List.length (trace w))) linux select_hostname
           = Some ips →
           n_total st = List.length ips)
  | Raise e =>
      respond env (List.length (trace w)) lease_call = Raise e
      ∧ run.2 = called w lease_call (Raise e)
  end.
Proof.
  intros run. subst run. unfold update_all_minions, read_current_leases.
  rewrite !run_bind. unfold receive_file. rewrite remote_run. fold lease_call.
  destruct (respond env _ lease_call) as [r|e] eqn:Hr; [|done].
  assert (Hnone : new_events w (called w lease_call (Ok r))
                  = [Remote lease_call (Ok r)]).
  { by apply new_events_app. }
  destruct (success r) eqn:Hs; cbn [negb].
  - cbn [called trace]. rewrite length_app. cbn [List.length].
    replace (List.length (trace w) + 1)%nat with (S (List.length (trace w))) by lia.
    destruct (lease_ips env _ linux select_hostname) as [[|ip ips]|] eqn:Hl.
    + rewrite run_ret. cbn. split_and!; [done|done|eauto|].
      intros r0 ips0 [= <-] _ [= <-]. done.
    + destruct (update_each_counts force_update (ip :: ips)
                  (mkStats (List.length (ip :: ips)) 0 0 0)
                  (called w lease_call (Ok r)))
        as (st' & w' & -> & Ht & Ha & Hf).
      cbn [fst snd]. cbn in Ht, Ha. split_and!.
      * rewrite Ha, Ht. cbn. lia.
      * intros Hforce. by rewrite Hf.
      * rewrite Ht. done.
      * intros r0 ips0 [= <-] _ [= <-]. by rewrite Ht.
    + rewrite run_ret. cbn. split_and!; [done|done|eauto|].
      intros r0 ips0 [= <-] _ [=].
  - rewrite run_ret. cbn. split_and!; [done|done|eauto|].
    intros r0 ips0 [= <-]. congruence.
Qed.

(** Every remote operation of the update workflow is against the device. *)
Lemma update_calls_contact minion_ip :
  Forall (λ c, call_ip c = Some minion_ip)
    (config_calls minion_ip ++ core_calls minion_ip ++ services_calls minion_ip).
Proof. repeat constructor. Qed.

Lemma answered_contacts minion_ip c calls r rs :
  call_ip c = Some minion_ip →
  Exists (contacts minion_ip) (answered (c :: calls) (r :: rs)).
Proof. intros Hc. by apply Exists_cons_hd. Qed.

(** An update of a device journals a remote operation against it. *)
Lemma update_outcome_contacts minion_ip evs st confirmed b :
  update_outcome minion_ip evs st confirmed b →
  Exists (contacts minion_ip) evs.
Proof.
  assert (Hstage : ∀ rs1 ok evs',
            stage_ran (config_calls minion_ip) rs1 ok →
            Exists (contacts minion_ip)
              (answered (config_calls minion_ip) rs1 ++ evs')).
  { intros [|r rs1] ok evs' [Hlen _]; [done|].
    apply Exists_app. left. by apply answered_contacts. }
  destruct 1 as [rs1 H1|rs1 rs2 H1 H2|rs1 rs2 rs3 H1 H2 H3|rs1 rs2 rs3 H1 H2 H3
                |e done c rest rs Hsplit Hlen].
  - rewrite <- (app_nil_r (answered _ _)). by eapply Hstage.
  - by eapply Hstage.
  - by eapply Hstage.
  - by eapply Hstage.
  - apply Exists_app. right. apply Exists_cons_hd. cbn.
    pose proof (update_calls_contact minion_ip) as Hall.
    rewrite Hsplit in Hall. apply Forall_app in Hall as [_ Hall].
    by apply Forall_cons in Hall as [Hc _].
Qed.

(** A failed update leaves the update date of the record as it was. *)
Lemma update_minion_false w minion_ip w' :
  update_minion env minion_ip w = (Ok false, w') →
  ∃ m', store w' !! minion_ip = Some m'
    ∧ last_update m' = last_update (default fresh_minion (store w !! minion_ip)).
Proof.
  destruct (update_minion_cases env w minion_ip)
    as (evs & s & confirmed & b & Hout & ->).
  intros [= -> <-]. inversion Hout; subst;
    unfold committed; cbn; rewrite lookup_insert_eq; eauto.
Qed.

(** The world after [image_minion] returned for a device with a record:
    a commit with the confirm flag was the last thing done. *)
Lemma image_minion_returns w minion_ip system_name b w' :
  is_Some (store w !! minion_ip) →
  image_minion env minion_ip system_name w = (Ok b, w') →
  ∃ w2 st, w' = committed env w2 minion_ip st true.
Proof.
  intros [m Hm].
  pose proof (camera_coordinates_cases m) as Hc.
  destruct (camera_coordinates m) as [[p1 p2]|e] eqn:Ec.
  - destruct Hc as [H1 H2].
    rewrite (image_minion_positioned env w minion_ip system_name m p1 p2 Hm H1 H2).
    cbn zeta.
    destruct (respond env _ _) as [result|e]; [|done].
    destruct (negb (success result));
      [|destruct (Py.contains "Partial success" (output result));
        [destruct (scan_failed_cameras _ _); [|done]
        |destruct (Py.contains "Error: No images" (output result))]];
      intros [= <- <-]; eauto.
  - destruct Hc as [_ Hc].
    rewrite (image_minion_unpositioned env w minion_ip system_name m Hm Hc).
    intros [= <- <-]. eauto.
Qed.

(** X22.  A device that the update pass registers has no camera
    position: after [update_minion] for an address without a record,
    whatever its outcome, [image_minion] for that address performs no
    remote operation, commits ['position needed'] and returns [False]. *)
Theorem registered_device_needs_position w minion_ip system_name r w1 :
  store w !! minion_ip = None →
  update_minion env minion_ip w = (r, w1) →
  is_Some (store w1 !! minion_ip)
  ∧ image_minion env minion_ip system_name w1
    = (Ok false, committed env w1 minion_ip "position needed" true)
  ∧ new_events w1 (committed env w1 minion_ip "position needed" true)
    = [Commit minion_ip "position needed" true].
Proof.
  intros Hnone.
  destruct (update_minion_cases env w minion_ip)
    as (evs & s & confirmed & b & Hout & ->).
  intros [= <- <-].
  set (w1 := committed env (journalled w evs) minion_ip s confirmed).
  assert (Hm : ∃ m, store w1 !! minion_ip = Some m
                 ∧ cameras m = cameras fresh_minion).
  { subst w1. unfold committed. cbn. rewrite lookup_insert_eq, Hnone.
    eexists. split; reflexivity. }
  destruct Hm as (m & Hm & Hcams).
  split_and!.
  - by rewrite Hm.
  - apply (image_minion_unpositioned env w1 minion_ip system_name m Hm).
    left. unfold position_of. by rewrite Hcams.
  - by apply new_events_app.
Qed.

Section SameDay.

Context (today : string).
Hypothesis same_day : ∀ n, date_isoformat (clock env n) = today.

(** X5.  An imaging run counts as an update: once [image_minion] has
    returned for a device with a record, whatever the outcome of the
    capture, an update pass of the same day that is not forced skips
    the device without contacting it. *)
Theorem imaging_counts_as_update w minion_ip system_name b w' st :
  is_Some (store w !! minion_ip) →
  image_minion env minion_ip system_name w = (Ok b, w') →
  update_one env false minion_ip st w'
  = (Ok (one_more_skipped st), mkWorld (store w') (S (ticks w')) (trace w')).
Proof.
  intros Hm Hrun.
  destruct (image_minion_returns _ _ _ _ _ Hm Hrun) as (w2 & s & ->).
  eapply update_one_skip.
  - unfold committed. cbn. by rewrite lookup_insert_eq.
  - cbn. by rewrite !same_day.
Qed.

(** X6.  A failed update is tried again: when the loop body of a pass
    that is not forced has counted a device as failed, the next pass of
    the same day does not skip it, and contacts the device again. *)
Theorem failed_update_is_retried minion_ip st st' w w' :
  update_one env false minion_ip st w = (Ok st', w') →
  n_failed st' = S (n_failed st) →
  ∀ st2, ∃ st2' w'',
    update_one env false minion_ip st2 w' = (Ok st2', w'')
    ∧ n_skipped st2' = n_skipped st2
    ∧ Exists (contacts minion_ip) (new_events w' w'').
Proof.
  unfold update_one at 1. rewrite run_bind, has_run_today_run, same_day.
  rewrite orb_false_r.
  destruct (bool_decide _) eqn:Hran; cbn [negb].
  { rewrite run_ret. intros [= <- <-]. cbn. lia. }
  rewrite run_bind.
  destruct (update_minion env minion_ip _) as [[[|]|e] w1] eqn:Hup.
  { rewrite run_ret. intros [= <- <-]. cbn. lia. }
  2:{ done. }
  rewrite run_ret. intros [= <- ->] _ st2.
  apply update_minion_false in Hup as (m' & Hm' & Hlast). cbn [store] in Hlast.
  unfold update_one. rewrite run_bind, has_run_today_run, same_day, Hm'.
  assert (Hdue : bool_decide (last_update m' = Some today) = false).
  { apply bool_decide_eq_false_2. rewrite Hlast.
    apply bool_decide_eq_false_1 in Hran.
    destruct (store w !! minion_ip) as [m|]; [exact Hran|done]. }
  rewrite Hdue. cbn [negb orb]. rewrite run_bind.
  destruct (update_minion_cases env
              (mkWorld (store w') (S (ticks w')) (trace w')) minion_ip)
    as (evs & s & confirmed & b & Hout & ->).
  apply update_outcome_contacts in Hout.
  assert (Hev : new_events w'
                  (committed env
                     (journalled (mkWorld (store w') (S (ticks w')) (trace w')) evs)
                     minion_ip s confirmed)
                = evs ++ [Commit minion_ip s confirmed]).
  { apply new_events_app. cbn. by rewrite <- app_assoc. }
  destruct b; rewrite run_ret; eexists _, _;
    (split; [reflexivity|]); rewrite Hev;
    (split; [done|]); apply Exists_app; by left.
Qed.

End SameDay.

End Pass.

Lemma registered_device_needs_position_witness :
  let env := constant_env transport_failure in
  let w1 := (update_minion env sample_address empty_world).2 in
  is_Some (store w1 !! sample_address)
  ∧ image_minion env sample_address "lilo" w1
    = (Ok false, committed env w1 sample_address "position needed" true)
  ∧ new_events w1 (committed env w1 sample_address "position needed" true)
    = [Commit sample_address "position needed" true].
Proof.
  intros env w1.
  apply (registered_device_needs_position env empty_world sample_address "lilo"
           (update_minion env sample_address empty_world).1).
  - reflexivity.
  - apply surjective_pairing.
Defined.

Lemma imaging_counts_as_update_witness :
  let env := constant_env transport_failure in
  let w' := (image_minion env sample_address "lilo" sample_world).2 in
  update_one env false sample_address (mkStats 1 0 0 0) w'
  = (Ok (mkStats 1 0 1 0), mkWorld (store w') (S (ticks w')) (trace w')).
Proof.
  intros env w'.
  apply (imaging_counts_as_update env "2024-01-02" (λ n, eq_refl) sample_world
           sample_address "lilo" false).
  - eexists. vm_compute. reflexivity.
  - vm_compute. reflexivity.
Defined.

Lemma failed_update_is_retried_witness :
  let env := constant_env transport_failure in
  let run := update_one env false sample_address (mkStats 1 0 0 0) sample_world in
  ∃ st2' w'',
    update_one env false sample_address (mkStats 1 0 0 0) run.2 = (Ok st2', w'')
    ∧ n_skipped st2' = 0%nat
    ∧ Exists (contacts sample_address) (new_events run.2 w'').
Proof.
  intros env run.
  apply (failed_update_is_retried env "2024-01-02" (λ n, eq_refl) sample_address
           (mkStats 1 0 0 0) (mkStats 1 0 0 1) sample_world run.2).
  - vm_compute. reflexivity.
  - reflexivity.
Defined.

(** * Resolving the target and running the command *)

(** X12.  [_get_target_ip] returns a target exactly when the configuration
    has a section for the connection type and either the type is
    ['router'] and the section names a host, which is the target whatever
    [ip] is, or the type is ['minion'] and [ip] is a non-empty address,
    which is the target.  The parameters returned are that section. *)
Theorem _get_target_ip_ok (config : option (gmap string (gmap string string)))
    (connection_type : string) (ip : option string)
    (target : string) (params : gmap string string) :
  _get_target_ip config connection_type ip = Ok (target, params)
  ↔ ∃ cfg,
      config = Some cfg
      ∧ cfg !! connection_type = Some params
      ∧ (connection_type = "router" ∧ params !! "host" = Some target
         ∨ connection_type = "minion" ∧ ip = Some target ∧ target ≠ "").
Proof.
  unfold _get_target_ip. split.
  - destruct config as [cfg|]; [|done].
    case_bool_decide as Hempty; [done|].
    case_bool_decide as Htype; cbn [negb]; [|done].
    unfold mbind, Res_bind, getitem.
    destruct (cfg !! connection_type) as [section|] eqn:Hsec; [|done].
    destruct (String.eqb connection_type "router") eqn:Hrouter.
    + apply String.eqb_eq in Hrouter.
      destruct (section !! "host") as [host|] eqn:Hhost; [|done].
      intros [= <- <-]. exists cfg. split_and!; [done|done|]. by left.
    + apply String.eqb_neq in Hrouter.
      destruct ip as [a|]; cbn [truthy negb]; [|done].
      destruct (String.eqb a "") eqn:Ha; cbn [negb]; [done|].
      apply String.eqb_neq in Ha.
      intros [= <- <-]. exists cfg. split_and!; [done|done|]. right.
      split_and!; [|done|done].
      set_solver.
  - intros (cfg & -> & Hsec & Hcase).
    rewrite bool_decide_eq_false_2
      by (intros ->; by rewrite lookup_empty in Hsec).
    destruct Hcase as [[-> Hhost]|(-> & -> & Hne)].
    + rewrite bool_decide_eq_true_2 by set_solver. cbn [negb].
      unfold mbind, Res_bind, getitem. rewrite Hsec. cbn. by rewrite Hhost.
    + rewrite bool_decide_eq_true_2 by set_solver. cbn [negb].
      unfold mbind, Res_bind, getitem. rewrite Hsec. cbn.
      apply String.eqb_neq in Hne. by rewrite Hne.
Qed.

(** The errors of [_get_target_ip], in the order in which it checks. *)
Lemma _get_target_ip_raises (config : option (gmap string (gmap string string)))
    (connection_type : string) (ip : option string) (e : exn) :
  _get_target_ip config connection_type ip = Raise e →
  e = Exception "Could not load config file"
  ∨ e = Exception "connection_type must be either 'minion' or 'router'"
  ∨ e = KeyError connection_type
  ∨ e = Exception "Host not specified in router config"
  ∨ e = Exception "IP required for minion".
Proof.
  unfold _get_target_ip.
  destruct config as [cfg|]; [|intros [= <-]; auto].
  case_bool_decide; [intros [= <-]; auto|].
  case_bool_decide; cbn [negb]; [|intros [= <-]; auto].
  unfold mbind, Res_bind, getitem.
  destruct (cfg !! connection_type) as [section|]; [|intros [= <-]; auto].
  destruct (String.eqb connection_type "router").
  - destruct (section !! "host"); [done|intros [= <-]; auto 10].
  - destruct (negb (truthy ip)); [intros [= <-]; auto 10|done].
Qed.

(** X13.  [_run_ssh_command] turns every outcome of the shell into a
    result and never raises: the result reports success exactly when the
    shell returned with code 0, carries an error text exactly when it
    reports failure, and for a shell that raised (a timeout) has no output
    and the text of the exception as its error. *)
Theorem _run_ssh_command_result (shell : string → option Z → Res Completed)
    (command : string) (timeout : option Z) :
  let result := _run_ssh_command shell command timeout in
  (success result = true
   ↔ ∃ completed, shell command timeout = Ok completed
       ∧ returncode completed = 0%Z ∧ output result = stdout completed)
  ∧ (error result = None ↔ success result = true)
  ∧ (∀ e, shell command timeout = Raise e →
       result = mkResult false "" (Some (str_exn e))).
Proof.
  unfold _run_ssh_command.
  destruct (shell command timeout) as [completed|e]; cbn zeta.
  - destruct (returncode completed =? 0)%Z eqn:Hrc; cbn.
    + apply Z.eqb_eq in Hrc. split_and!; [|done|done].
      split; [intros _; by exists completed|done].
    + apply Z.eqb_neq in Hrc. split_and!; [|done|done].
      split; [done|]. intros (c & [= <-] & H0 & _). done.
  - cbn. split_and!; [|done|by intros e' [= <-]].
    split; [done|]. by intros (c & [=] & _).
Qed.

(** X15.  A remote operation raises only before anything is run: if
    [execute_ssh_command], [transfer_file] or [receive_file] raises, the
    target could not be resolved or the section lacks one of
    ['password'], ['options'] and ['user']; no outcome of the shell makes
    them raise. *)
Theorem remote_operation_raises
    (config : option (gmap string (gmap string string)))
    (shell : string → option Z → Res Completed)
    (connection_type : string) (ip : option string) (e : exn) :
  ∀ a b command sudo timeout,
    (execute_ssh_command_shell config shell connection_type command ip sudo timeout
     = Raise e
     ∨ transfer_file_shell config shell connection_type a b ip = Raise e
     ∨ receive_file_shell config shell connection_type a b ip = Raise e) →
    _get_target_ip config connection_type ip = Raise e
    ∨ ∃ target params k,
        _get_target_ip config connection_type ip = Ok (target, params)
        ∧ k ∈ ["password"; "options"; "user"]
        ∧ params !! k = None ∧ e = KeyError k.
Proof.
  intros a b command sudo timeout.
  unfold execute_ssh_command_shell, transfer_file_shell, receive_file_shell,
    ssh_command_line.
  destruct (_get_target_ip config connection_type ip) as [[target params]|e0];
    [|intros [H|[H|H]]; injection H as <-; by left].
  intros H. right. exists target, params.
  unfold mbind, Res_bind, getitem in H. cbn in H.
  destruct (params !! "password") eqn:Hp.
  - destruct (params !! "options") eqn:Ho.
    + destruct (params !! "user") eqn:Hu.
      * destruct sudo; cbn in H; rewrite ?Hp, ?Ho, ?Hu in H; cbn in H;
          destruct H as [H|[H|H]]; discriminate H.
      * exists "user". split_and!; [done|set_solver|done|].
        destruct sudo; cbn in H; rewrite ?Hp, ?Ho, ?Hu in H; cbn in H;
          destruct H as [H|[H|H]]; by injection H.
    + exists "options". split_and!; [done|set_solver|done|].
      destruct sudo; cbn in H; rewrite ?Hp, ?Ho in H; cbn in H;
        destruct H as [H|[H|H]]; by injection H.
  - exists "password". split_and!; [done|set_solver|done|].
    destruct sudo; cbn in H; rewrite ?Hp in H; cbn in H;
      destruct H as [H|[H|H]]; by injection H.
Qed.

(** * The capture program and the imaging workflow *)

Section Capture.

Lemma prefix_app_l sub a b : prefix sub a = true → prefix sub (a +:+ b) = true.
Proof.
  revert a. induction sub as [|c sub IH]; intros a.
  - intros _. by destruct (a +:+ b).
  - destruct a as [|x a]; [done|]. rewrite append_cons. cbn [prefix].
    destruct (ascii_dec c x); [apply IH|done].
Qed.

Lemma contains_app_l sub a b :
  Py.contains sub a = true → Py.contains sub (a +:+ b) = true.
Proof.
  induction a as [|x a IH]; cbn [Py.contains].
  - rewrite orb_false_r. intros H. destruct sub; [|done].
    destruct ("" +:+ b); done.
  - intros [H|H]%orb_true_iff; rewrite append_cons; cbn [Py.contains].
    + pose proof (prefix_app_l _ _ b H) as Hp. rewrite append_cons in Hp.
      by rewrite Hp.
    + rewrite (IH H). apply orb_true_r.
Qed.

(** The first line that [main] prints names the outcome. *)
Lemma main_output_marker captures :
  if existsb (λ c, cap_success c.2) captures
  then Py.contains "Partial success" (main_output captures) = true
  else main_output captures
       = "Error: No images captured from either camera" +:+ newline.
Proof.
  unfold main_output. destruct (existsb _ captures); [|done].
  by apply contains_app_l.
Qed.

Context (env : Env).

(** The outcome of [image_minion] once the capture command has run. *)
Lemma image_minion_captured w minion_ip system_name m p1 p2 result :
  store w !! minion_ip = Some m →
  position_of m "camera1" = Some p1 →
  position_of m "camera2" = Some p2 →
  respond env (S (List.length (trace w)))
    (capture_call system_name minion_ip p1 p2) = Ok result →
  success result = true →
  ∃ w2,
    image_minion env minion_ip system_name w
    = if Py.contains "Partial success" (output result)
      then match scan_failed_cameras (output_lines result) [] with
           | Ok failed_cameras =>
               (Ok false,
                committed env w2 minion_ip
                  ("partial - " +:+ Py.join ", " failed_cameras) true)
           | Raise e => (Raise e, w2)
           end
      else if Py.contains "Error: No images" (output result)
      then (Ok false, committed env w2 minion_ip "error" true)
      else (Ok true, committed env w2 minion_ip "ready" true).
Proof.
  intros Hm H1 H2 Hr Hs.
  rewrite (image_minion_positioned env w minion_ip system_name m p1 p2 Hm H1 H2).
  cbn zeta. rewrite Hr, Hs. cbn [negb]. eauto.
Qed.

Lemma partial_is_not_ready failed_cameras :
  "partial - " +:+ Py.join ", " failed_cameras ≠ "ready".
Proof. rewrite append_cons. intros [=]. Qed.

(** X9.  The controller never records a capture by this capture program
    as ['ready']: whatever the cameras did, when the output of the
    capture command is what [main] prints, [image_minion] returns
    [False] and the status it commits is ['error'] if no camera
    succeeded and begins with ['partial - '] otherwise. *)
Theorem capture_is_never_ready w minion_ip system_name m p1 p2 result captures :
  store w !! minion_ip = Some m →
  position_of m "camera1" = Some p1 →
  position_of m "camera2" = Some p2 →
  respond env (S (List.length (trace w)))
    (capture_call system_name minion_ip p1 p2) = Ok result →
  success result = true →
  output result = main_output captures →
  ∃ st w',
    image_minion env minion_ip system_name w = (Ok false, w')
    ∧ final_commit w' minion_ip st true
    ∧ st ≠ "ready"
    ∧ if existsb (λ c, cap_success c.2) captures
      then ∃ failed_cameras, st = "partial - " +:+ Py.join ", " failed_cameras
      else st = "error".
Proof.
  intros Hm H1 H2 Hr Hs Hout.
  destruct (image_minion_captured _ _ system_name _ _ _ _ Hm H1 H2 Hr Hs)
    as [w2 ->].
  pose proof (main_output_marker captures) as Hmark.
  destruct (existsb _ captures).
  - rewrite Hout, Hmark.
    destruct (scan_failed_cameras_ok (output_lines result) []) as [l Hl].
    rewrite Hl. eexists _, _.
    split_and!; [reflexivity|apply final_commit_committed
                |apply partial_is_not_ready|eauto].
  - rewrite Hout, Hmark.
    eexists _, _.
    split_and!; [vm_compute Py.contains; reflexivity
                |apply final_commit_committed|done|done].
Qed.

(** X10.  Two captured images are recorded as a partial result: when
    both cameras succeed, [take_images] returns [True] and the log row
    says ['SUCCESS'], yet [image_minion], reading what [main] prints,
    commits the status ['partial - '] with an empty camera list and
    returns [False]. *)
Theorem both_cameras_captured w minion_ip system_name m p1 p2 result
    attempt path1 path2 :
  store w !! minion_ip = Some m →
  position_of m "camera1" = Some p1 →
  position_of m "camera2" = Some p2 →
  respond env (S (List.length (trace w)))
    (capture_call system_name minion_ip p1 p2) = Ok result →
  success result = true →
  attempt 1%nat = Ok path1 →
  attempt 2%nat = Ok path2 →
  output result = main_output (take_images attempt).2 →
  (take_images attempt).1 = true
  ∧ log_status (take_images attempt).2 = "SUCCESS"
  ∧ ∃ w',
      image_minion env minion_ip system_name w = (Ok false, w')
      ∧ final_commit w' minion_ip "partial - " true.
Proof.
  intros Hm H1 H2 Hr Hs Ha1 Ha2 Hout.
  destruct (image_minion_captured _ _ system_name _ _ _ _ Hm H1 H2 Hr Hs)
    as [w2 ->].
  unfold output_lines. rewrite Hout.
  unfold take_images. cbn [map snd fst]. rewrite Ha1, Ha2.
  split_and!; [done|done|].
  eexists. split; [vm_compute Py.contains; vm_compute scan_failed_cameras;
                   reflexivity|].
  apply final_commit_committed.
Qed.

End Capture.

(** * Reading back the report of a failed camera *)

Section Report.

Lemma rstrip_space_end s c :
  Py.isspace c = true → Py.rstrip (s +:+ String c "") = Py.rstrip s.
Proof.
  intros Hc. induction s as [|a s IH].
  - rewrite append_nil_l. cbn [Py.rstrip]. by rewrite Hc.
  - rewrite append_cons. cbn [Py.rstrip]. by rewrite IH.
Qed.

Lemma split_char c x y :
  Py.contains (String c "") x = false →
  Py.split (String c "") (x +:+ String c "" +:+ y)
  = x :: Py.split (String c "") y.
Proof.
  unfold Py.split. induction x as [|a x IH].
  - intros _. rewrite append_nil_l, append_cons, append_nil_l.
    cbn [Py.split_from]. rewrite prefix_char.
    destruct (ascii_dec c c); [|done]. cbn [String.length]. by destruct y.
  - cbn [Py.contains]. intros [Hp Hc]%orb_false_iff.
    rewrite append_cons. cbn [Py.split_from].
    assert (prefix (String c "") (String a (x +:+ String c "" +:+ y)) = false)
      as ->.
    { rewrite prefix_char in Hp. by rewrite prefix_char. }
    by rewrite (IH Hc).
Qed.

Lemma contains_char_app c x y :
  Py.contains (String c "") (x +:+ y)
  = Py.contains (String c "") x || Py.contains (String c "") y.
Proof.
  induction x as [|a x IH].
  - rewrite append_nil_l. cbn [Py.contains prefix]. done.
  - rewrite append_cons. cbn [Py.contains]. rewrite !prefix_char, IH.
    by rewrite orb_assoc.
Qed.

Lemma prefix_app_last sub x c :
  prefix sub (x +:+ String c "") = true →
  prefix sub x = true ∨ sub = x +:+ String c "".
Proof.
  revert x. induction sub as [|b sub IH]; intros x.
  - intros _. left. by destruct x.
  - destruct x as [|a x].
    + rewrite append_nil_l. cbn [prefix].
      destruct (ascii_dec b c) as [->|]; [|done].
      destruct sub; [by right|done].
    + rewrite append_cons. cbn [prefix].
      destruct (ascii_dec b a) as [->|]; [|done].
      intros [H| ->]%IH; [by left|by right].
Qed.

(** A text that does not end with [c] does not occur at the end of a
    string extended by [c], unless it occurred before. *)
Lemma contains_app_end sub x c :
  (∀ u, sub ≠ u +:+ String c "") →
  Py.contains sub x = false →
  Py.contains sub (x +:+ String c "") = false.
Proof.
  intros Hend. induction x as [|a x IH].
  - cbn [Py.contains]. rewrite orb_false_r. intros Hnil.
    rewrite append_nil_l. cbn [Py.contains]. rewrite orb_false_r, Hnil, orb_false_r.
    destruct (prefix sub (String c "")) eqn:Hp; [|done].
    change (String c "") with ("" +:+ String c "") in Hp.
    apply prefix_app_last in Hp as [Hp|Hp]; [congruence|by apply Hend in Hp].
  - cbn [Py.contains]. intros [Hp Hc]%orb_false_iff.
    rewrite append_cons. cbn [Py.contains]. rewrite (IH Hc), orb_false_r.
    destruct (prefix sub (String a (x +:+ String c ""))) eqn:Hq; [|done].
    rewrite <- append_cons in Hq.
    apply prefix_app_last in Hq as [Hq|Hq]; [congruence|by apply Hend in Hq].
Qed.

Lemma marker_end u : "Failed cameras:" ≠ u +:+ ")".
Proof.
  intros Hu.
  do 14 (destruct u as [|? u]; [discriminate Hu|];
         rewrite append_cons in Hu; injection Hu as _ Hu).
  destruct u as [|? u]; [discriminate Hu|].
  rewrite append_cons in Hu. injection Hu as _ Hu.
  destruct u; discriminate Hu.
Qed.

(** The two lines that [main] prints when one camera failed with the
    error text [e] are read back as the one entry [label e)]. *)
Lemma scan_one_failed (first label e : string) :
  first ≠ "" → Py.lstrip first = first →
  Py.contains newline first = false →
  Py.contains "Failed cameras:" first = false →
  label ≠ "" → Py.lstrip label = label →
  Py.contains newline label = false →
  Py.contains ";" label = false →
  (∀ z, Py.contains "Failed cameras:" (" " +:+ label +:+ z)
        = Py.contains "Failed cameras:" z) →
  Py.contains newline e = false →
  Py.contains ";" e = false →
  Py.contains "Failed cameras:" e = false →
  scan_failed_cameras
    (Py.split newline
       (Py.strip (first +:+ newline +:+ "Failed cameras: "
                  +:+ Py.join "; " [label +:+ e +:+ ")"] +:+ newline))) []
  = Ok [label +:+ e +:+ ")"].
Proof.
  unfold newline. set (nl := String (ascii_of_nat 10) "").
  intros Hf1 Hf2 Hf3 Hf4 Hl1 Hl2 Hl3 Hl4 Hl5 He1 He2 He3.
  set (cam := label +:+ e +:+ ")").
  change (Py.join "; " [cam]) with cam.
  set (line := "Failed cameras: " +:+ cam).
  assert (Hcam : camera_name cam).
  { subst cam. split_and!.
    - destruct label; [done|]. by rewrite append_cons.
    - by apply lstrip_append.
    - rewrite <- append_assoc. by apply rstrip_append.
    - rewrite !contains_char_app, Hl4, He2. done. }
  assert (Hmark : Py.contains "Failed cameras:" (" " +:+ Py.join "; " [cam]) = false).
  { change (Py.join "; " [cam]) with cam. subst cam. rewrite Hl5.
    by apply contains_app_end; [apply marker_end|]. }
  assert (Hline : Py.contains nl line = false).
  { subst line cam nl. rewrite !contains_char_app, Hl3, He1. done. }
  assert (Hstrip : Py.strip (first +:+ nl +:+ "Failed cameras: " +:+ cam +:+ nl)
                   = first +:+ nl +:+ line).
  { unfold Py.strip. rewrite (lstrip_append first) by done.
    rewrite <- !append_assoc.
    subst nl. rewrite (rstrip_space_end _ (ascii_of_nat 10)) by done.
    subst line cam. rewrite <- !append_assoc. by apply rstrip_append. }
  rewrite Hstrip. subst nl.
  rewrite (split_char (ascii_of_nat 10) first line Hf3).
  rewrite (split_absent _ line Hline).
  change [first; line] with ([first] ++ line :: []).
  rewrite scan_failed_cameras_last.
  - subst line. change cam with (Py.join "; " [cam]) at 1.
    rewrite parse_failed_line_join; [done|done|by constructor|done].
  - subst line. by apply contains_app_l.
  - constructor.
Qed.

End Report.

Section OneFailed.

Context (env : Env).

Lemma main_output_second_failed path e :
  main_output [(1%nat, mkCapture true (Some path) None);
               (2%nat, mkCapture false None (Some e))]
  = "Partial success: Images captured from Camera 1" +:+ newline
    +:+ "Failed cameras: " +:+ Py.join "; " ["Camera 2 (" +:+ e +:+ ")"]
    +:+ newline.
Proof. reflexivity. Qed.

Lemma main_output_first_failed path e :
  main_output [(1%nat, mkCapture false None (Some e));
               (2%nat, mkCapture true (Some path) None)]
  = "Partial success: Images captured from Camera 2" +:+ newline
    +:+ "Failed cameras: " +:+ Py.join "; " ["Camera 1 (" +:+ e +:+ ")"]
    +:+ newline.
Proof. reflexivity. Qed.

(** X11.  The report of a failed camera survives the trip from the
    device to the store: when one camera raised an exception whose text
    has no line break, no [';'] and no ['Failed cameras:'] in it and the
    other camera succeeded, the log row says ['PARTIAL'] and
    [image_minion], reading what [main] prints, commits the status
    ['partial - Camera j (text)'] for the failed camera [j]. *)
Theorem one_camera_failed w minion_ip system_name m p1 p2 result
    attempt (failed other : nat) path ex :
  store w !! minion_ip = Some m →
  position_of m "camera1" = Some p1 →
  position_of m "camera2" = Some p2 →
  respond env (S (List.length (trace w)))
    (capture_call system_name minion_ip p1 p2) = Ok result →
  success result = true →
  failed = 1%nat ∧ other = 2%nat ∨ failed = 2%nat ∧ other = 1%nat →
  attempt failed = Raise ex →
  attempt other = Ok path →
  Py.contains newline (str_exn ex) = false →
  Py.contains ";" (str_exn ex) = false →
  Py.contains "Failed cameras:" (str_exn ex) = false →
  output result = main_output (take_images attempt).2 →
  log_status (take_images attempt).2 = "PARTIAL"
  ∧ ∃ w',
      image_minion env minion_ip system_name w = (Ok false, w')
      ∧ final_commit w' minion_ip
          ("partial - Camera " +:+ pretty failed +:+ " (" +:+ str_exn ex +:+ ")")
          true.
Proof.
  intros Hm H1 H2 Hr Hs Hwhich Hfail Hok He1 He2 He3 Hout.
  destruct (image_minion_captured env _ _ system_name _ _ _ _ Hm H1 H2 Hr Hs)
    as [w2 ->].
  unfold output_lines. rewrite Hout. clear Hout.
  unfold take_images. cbn [map snd fst].
  destruct Hwhich as [[-> ->]|[-> ->]]; rewrite Hfail, Hok;
    (split; [reflexivity|]).
  - rewrite main_output_first_failed.
    rewrite contains_app_l by reflexivity.
    rewrite (scan_one_failed "Partial success: Images captured from Camera 2"
               "Camera 1 (" (str_exn ex)) by done.
    eexists. split; [reflexivity|]. apply final_commit_committed.
  - rewrite main_output_second_failed.
    rewrite contains_app_l by reflexivity.
    rewrite (scan_one_failed "Partial success: Images captured from Camera 1"
               "Camera 2 (" (str_exn ex)) by done.
    eexists. split; [reflexivity|]. apply final_commit_committed.
Qed.

End OneFailed.

(** * The fleet pass of the imaging workflow *)

Section Fleet.

Context (env : Env).

(** X16.  [image_minion] raises only when the capture command could not
    be issued: the record is then left with the transient status
    ['imaging'] and its update date as it was, and the journal holds
    the commit of that status and the call that raised. *)
Theorem image_minion_raises w minion_ip system_name e w' :
  image_minion env minion_ip system_name w = (Raise e, w') →
  ∃ m p1 p2,
    store w !! minion_ip = Some m
    ∧ position_of m "camera1" = Some p1
    ∧ position_of m "camera2" = Some p2
    ∧ respond env (S (List.length (trace w)))
        (capture_call system_name minion_ip p1 p2) = Raise e
    ∧ new_events w w'
      = [Commit minion_ip "imaging" false;
         Remote (capture_call system_name minion_ip p1 p2) (Raise e)]
    ∧ status_of w' minion_ip = Some "imaging"
    ∧ last_update_of w' minion_ip = last_update_of w minion_ip.
Proof.
  destruct (store w !! minion_ip) as [m|] eqn:Hm.
  2:{ by rewrite image_minion_absent. }
  pose proof (camera_coordinates_cases m) as Hc.
  destruct (camera_coordinates m) as [[p1 p2]|e0] eqn:Ec.
  2:{ destruct Hc as [_ Hc].
      by rewrite (image_minion_unpositioned env w minion_ip system_name m Hm Hc). }
  destruct Hc as [H1 H2].
  rewrite (image_minion_positioned env w minion_ip system_name m p1 p2 Hm H1 H2).
  cbn zeta.
  destruct (respond env _ _) as [result|e1] eqn:Hr.
  - destruct (negb (success result)); [done|].
    destruct (Py.contains "Partial success" (output result)).
    + destruct (scan_failed_cameras_ok (output_lines result) []) as [l ->]. done.
    + by destruct (Py.contains "Error: No images" (output result)).
  - intros [= <- <-]. exists m, p1, p2. split_and!; try done.
    + apply new_events_app. cbn. by rewrite <- app_assoc.
    + unfold status_of, called, committed. cbn. by rewrite lookup_insert_eq.
    + unfold last_update_of, called, committed. cbn.
      by rewrite lookup_insert_eq, Hm.
Qed.

Hypothesis Hans : answers env.

(** With every call answered, [image_minion] for a device with a record
    returns, and returns [True] exactly when it stored ['ready']. *)
Lemma image_minion_result w minion_ip system_name :
  is_Some (store w !! minion_ip) →
  ∃ b st w',
    image_minion env minion_ip system_name w = (Ok b, w')
    ∧ status_of w' minion_ip = Some st
    ∧ st ≠ "imaging"
    ∧ (b = true ↔ st = "ready").
Proof.
  intros [m Hm].
  assert (Hst : ∀ w2 st, status_of (committed env w2 minion_ip st true) minion_ip
                         = Some st).
  { intros w2 st. unfold status_of, committed. cbn. by rewrite lookup_insert_eq. }
  pose proof (camera_coordinates_cases m) as Hc.
  destruct (camera_coordinates m) as [[p1 p2]|e0] eqn:Ec.
  - destruct Hc as [H1 H2].
    rewrite (image_minion_positioned env w minion_ip system_name m p1 p2 Hm H1 H2).
    cbn zeta.
    destruct (Hans (S (List.length (trace w)))
                (capture_call system_name minion_ip p1 p2)) as [result ->].
    destruct (negb (success result)).
    { eexists _, _, _. split_and!; [reflexivity|apply Hst|done|done]. }
    destruct (Py.contains "Partial success" (output result)).
    { destruct (scan_failed_cameras_ok (output_lines result) []) as [l ->].
      eexists _, _, _. split_and!; [reflexivity|apply Hst| |].
      - rewrite append_cons. intros [=].
      - split; [done|]. rewrite append_cons. intros [=]. }
    destruct (Py.contains "Error: No images" (output result)).
    { eexists _, _, _. split_and!; [reflexivity|apply Hst|done|done]. }
    eexists _, _, _. split_and!; [reflexivity|apply Hst|done|done].
  - destruct Hc as [_ Hc].
    rewrite (image_minion_unpositioned env w minion_ip system_name m Hm Hc).
    eexists _, _, _. split_and!; [reflexivity|apply Hst|done|done].
Qed.

Lemma image_each_results system_name ips :
  NoDup ips →
  ∀ results w,
    (∀ ip, ip ∈ ips → is_Some (store w !! ip)) →
    ∃ results' w',
      image_each env system_name ips results w = (Ok results', w')
      ∧ dom results' = dom results ∪ list_to_set ips
      ∧ (∀ ip, ip ∉ ips →
           results' !! ip = results !! ip ∧ status_of w' ip = status_of w ip)
      ∧ (∀ ip, ip ∈ ips →
           ∃ b st, results' !! ip = Some b
             ∧ status_of w' ip = Some st
             ∧ st ≠ "imaging"
             ∧ (b = true ↔ st = "ready")).
Proof.
  induction 1 as [|k rest Hk Hnd IH]; intros results w Hall; cbn [image_each].
  - exists results, w. rewrite run_ret. split_and!; [done|set_solver|done|].
    intros ip Hin. by apply elem_of_nil in Hin.
  - rewrite run_bind.
    destruct (image_minion_result w k system_name) as (b & st & w1 & Hrun & Hst & Hne & Hb).
    { apply Hall. by left. }
    rewrite Hrun.
    destruct (image_minion_touches env w k system_name _ _ Hrun) as [Hd Hf].
    destruct (IH (<[k := b]> results) w1) as (results' & w' & -> & Hdom & Hout & Hin).
    { intros ip Hip. apply elem_of_dom. rewrite Hd. apply elem_of_dom.
      apply Hall. by right. }
    exists results', w'. split_and!; [done| | |].
    + rewrite Hdom, dom_insert_L. set_solver.
    + intros ip Hip. apply not_elem_of_cons in Hip as [Hne' Hip].
      destruct (Hout ip Hip) as [-> ->]. split.
      * by rewrite lookup_insert_ne.
      * unfold status_of. by rewrite Hf.
    + intros ip [->|Hip]%elem_of_cons.
      * destruct (Hout k Hk) as [-> ->]. exists b, st.
        rewrite lookup_insert_eq. done.
      * by apply Hin.
Qed.

(** X14.  With every call answered, [image_all_minions] returns a result
    for exactly the addresses of the store, each imaged once; the result
    of an address is [True] exactly when the status left in the store
    for it is ['ready'], and no record is left with the transient status
    ['imaging']. *)
Theorem image_all_minions_results w system_name :
  ∃ results w',
    image_all_minions env system_name w = (Ok results, w')
    ∧ dom results = dom (store w)
    ∧ ∀ ip, ip ∈ dom (store w) →
        ∃ b st, results !! ip = Some b
          ∧ status_of w' ip = Some st
          ∧ st ≠ "imaging"
          ∧ (b = true ↔ st = "ready").
Proof.
  unfold image_all_minions. rewrite run_bind. cbn [get_minions load_minions].
  assert (Hkeys : ∀ ip, ip ∈ (map_to_list (store w)).*1 ↔ ip ∈ dom (store w)).
  { intros ip. rewrite elem_of_dom, list_elem_of_fmap. split.
    - intros ([k m] & -> & Hin). apply elem_of_map_to_list in Hin. by exists m.
    - intros [m Hm]. exists (ip, m). split; [done|]. by apply elem_of_map_to_list. }
  destruct (image_each_results system_name (map_to_list (store w)).*1
              (NoDup_fst_map_to_list _) ∅ w)
    as (results & w' & -> & Hdom & _ & Hin).
  { intros ip Hip. apply elem_of_dom. by apply Hkeys. }
  exists results, w'. split_and!; [done| |].
  - rewrite Hdom, dom_empty_L. apply set_eq. intros ip.
    rewrite elem_of_union, elem_of_list_to_set, Hkeys, elem_of_empty. tauto.
  - intros ip Hip. apply Hin. by apply Hkeys.
Qed.

End Fleet.

(** * From positioning and registration to imaging *)

Section Protocol.

Context (env : Env).

(** The journal of an answered imaging run. *)
Lemma image_minion_events w minion_ip system_name m p1 p2 result :
  store w !! minion_ip = Some m →
  position_of m "camera1" = Some p1 →
  position_of m "camera2" = Some p2 →
  respond env (S (List.length (trace w)))
    (capture_call system_name minion_ip p1 p2) = Ok result →
  ∃ b st w',
    image_minion env minion_ip system_name w = (Ok b, w')
    ∧ new_events w w'
      = [Commit minion_ip "imaging" false;
         Remote (capture_call system_name minion_ip p1 p2) (Ok result);
         Commit minion_ip st true]
    ∧ status_of w' minion_ip = Some st.
Proof.
  intros Hm H1 H2 Hr.
  rewrite (image_minion_positioned env w minion_ip system_name m p1 p2 Hm H1 H2).
  cbn zeta. rewrite Hr.
  assert (Hev : ∀ st,
            new_events w
              (committed env
                 (called (committed env w minion_ip "imaging" false)
                    (capture_call system_name minion_ip p1 p2) (Ok result))
                 minion_ip st true)
            = [Commit minion_ip "imaging" false;
               Remote (capture_call system_name minion_ip p1 p2) (Ok result);
               Commit minion_ip st true]
            ∧ status_of
                (committed env
                   (called (committed env w minion_ip "imaging" false)
                      (capture_call system_name minion_ip p1 p2) (Ok result))
                   minion_ip st true) minion_ip
              = Some st).
  { intros st. split.
    - apply new_events_app. cbn. by rewrite <- !app_assoc.
    - unfold status_of, committed. cbn. by rewrite lookup_insert_eq. }
  destruct (negb (success result)).
  { eexists _, _, _. split; [reflexivity|apply Hev]. }
  destruct (Py.contains "Partial success" (output result)).
  { destruct (scan_failed_cameras_ok (output_lines result) []) as [l ->].
    eexists _, _, _. split; [reflexivity|apply Hev]. }
  destruct (Py.contains "Error: No images" (output result));
    eexists _, _, _; (split; [reflexivity|apply Hev]).
Qed.

(** X19.  The imaging of a positioned device is one remote operation
    between two commits: when the capture command is answered,
    [image_minion] returns and has journalled, in this order, the commit
    of ['imaging'] without the confirm flag, the capture command with the
    two stored positions, and the commit of the final status with the
    confirm flag. *)
Theorem image_minion_protocol w minion_ip system_name m p1 p2 result :
  store w !! minion_ip = Some m →
  position_of m "camera1" = Some p1 →
  position_of m "camera2" = Some p2 →
  respond env (S (List.length (trace w)))
    (capture_call system_name minion_ip p1 p2) = Ok result →
  ∃ b st w',
    image_minion env minion_ip system_name w = (Ok b, w')
    ∧ new_events w w'
      = [Commit minion_ip "imaging" false;
         Remote (capture_call system_name minion_ip p1 p2) (Ok result);
         Commit minion_ip st true]
    ∧ status_of w' minion_ip = Some st.
Proof. apply image_minion_events. Qed.

(** X18.  An update pass always attempts a leased address that has no
    record, and registers it: when the date of the day is not the empty
    text, the loop body does not skip such an address, contacts the
    device, and leaves a record for it whatever the outcome. *)
Theorem unknown_address_is_registered force_update minion_ip st w :
  store w !! minion_ip = None →
  date_isoformat (clock env (ticks w)) ≠ "" →
  ∃ st' w',
    update_one env force_update minion_ip st w = (Ok st', w')
    ∧ n_skipped st' = n_skipped st
    ∧ is_Some (store w' !! minion_ip)
    ∧ Exists (contacts minion_ip) (new_events w w').
Proof.
  intros Hnone Hdate.
  unfold update_one. rewrite run_bind, has_run_today_run, Hnone.
  rewrite bool_decide_eq_false_2 by (intros [= H]; by apply Hdate).
  cbn [negb orb]. rewrite run_bind.
  destruct (update_minion_cases env
              (mkWorld (store w) (S (ticks w)) (trace w)) minion_ip)
    as (evs & s & confirmed & b & Hout & ->).
  apply (update_outcome_contacts minion_ip) in Hout.
  assert (Hev : new_events w
                  (committed env
                     (journalled (mkWorld (store w) (S (ticks w)) (trace w)) evs)
                     minion_ip s confirmed)
                = evs ++ [Commit minion_ip s confirmed]).
  { apply new_events_app. cbn. by rewrite <- app_assoc. }
  destruct b; rewrite run_ret; eexists _, _;
    (split; [reflexivity|]); rewrite Hev;
    (split_and!; [done| |apply Exists_app; by left]);
    unfold committed; cbn; by rewrite lookup_insert_eq.
Qed.

Hypothesis Hans : answers env.

(** X20.  Positioning enables imaging: when [monitor_position] has
    returned for the coordinate [(x, y)], there is a device of the store
    whose next [image_minion] issues the capture command with the
    positions [XxYy] and [XxY(y+1)] and returns. *)
Theorem positioning_enables_imaging fuel x y w b w1 system_name :
  monitor_position env fuel x y w = (Ok (Some b), w1) →
  ∃ minion_ip result b' st w2,
    minion_ip ∈ dom (store w)
    ∧ image_minion env minion_ip system_name w1 = (Ok b', w2)
    ∧ new_events w1 w2
      = [Commit minion_ip "imaging" false;
         Remote (capture_call system_name minion_ip
                   (position_string x y) (position_string x (y + 1)))
           (Ok result);
         Commit minion_ip st true].
Proof.
  intros Hrun.
  destruct (monitor_position_cases env Hans _ _ _ _ _ _ Hrun)
    as [(Hr & _)|(_ & Hassigned)]; [done|].
  destruct Hassigned
    as (minion_ip & m & m' & polls & signal & clears
        & Hm & Hs & (_ & _ & Hp1 & Hp2) & _).
  set (c := capture_call system_name minion_ip
              (position_string x y) (position_string x (y + 1))).
  destruct (Hans (S (List.length (trace w1))) c) as [result Hres].
  assert (Hm' : store w1 !! minion_ip = Some m').
  { by rewrite Hs, lookup_insert_eq. }
  destruct (image_minion_events w1 minion_ip system_name m' _ _ result
              Hm' Hp1 Hp2 Hres) as (b' & st & w2 & Hrun2 & Hev & _).
  exists minion_ip, result, b', st, w2. split_and!; [|done|done].
  apply elem_of_dom. by rewrite Hm.
Qed.

End Protocol.

(** * The status log of the capture program *)

Section StatusLog.

(** X17.  The row of the status log has no field outside the header:
    every key of [row_data] is one of [headers], so the writer's check
    for unknown fields cannot fail; and for the captures of
    [take_images] the ['status'] is ['FAILED'] exactly when
    [take_images] returns [False], and ['SUCCESS'] exactly when both
    cameras delivered an image. *)
Theorem status_log_row timestamp captures attempt :
  (∀ k, k ∈ (row_data timestamp captures).*1 → k ∈ headers captures)
  ∧ (log_status (take_images attempt).2 = "FAILED"
     ↔ (take_images attempt).1 = false)
  ∧ (log_status (take_images attempt).2 = "SUCCESS"
     ↔ ∃ path1 path2, attempt 1%nat = Ok path1 ∧ attempt 2%nat = Ok path2).
Proof.
  split_and!.
  - unfold row_data, headers. intros k. rewrite fmap_app.
    rewrite !elem_of_app. intros [Hk|Hk]; [left; exact Hk|right].
    induction captures as [|c captures IH]; [done|].
    cbn [flat_map] in *. rewrite fmap_app in Hk.
    apply elem_of_app in Hk as [Hk|Hk]; apply elem_of_app; [left|right; auto].
    cbn [fmap list_fmap fst] in Hk. cbn [map].
    destruct (negb (cap_success c.2) && truthy (cap_error c.2));
      cbn [fmap list_fmap fst] in Hk; set_solver.
  - unfold take_images, log_status. cbn [map snd fst existsb forallb].
    destruct (attempt 1%nat), (attempt 2%nat); cbn; split; done.
  - unfold take_images, log_status. cbn [map snd fst existsb forallb].
    destruct (attempt 1%nat), (attempt 2%nat); cbn;
      (split; [try done; eauto|intros (? & ? & ? & ?); done]).
Qed.

End StatusLog.

(** * What imaging and updating leave alone *)

Section Frame.

Context (env : Env).

Lemma committed_cameras w minion_ip st updated :
  ∃ m', store (committed env w minion_ip st updated) = <[minion_ip := m']> (store w)
    ∧ cameras m' = cameras (default fresh_minion (store w !! minion_ip)).
Proof. eexists. split; reflexivity. Qed.

(** The record of [minion_ip] after [image_minion]: its camera entries
    are those it had. *)
Lemma image_minion_cameras w minion_ip system_name m r w' :
  store w !! minion_ip = Some m →
  image_minion env minion_ip system_name w = (r, w') →
  ∃ m', store w' !! minion_ip = Some m' ∧ cameras m' = cameras m.
Proof.
  intros Hm.
  assert (H1 : ∀ w1 st u,
            (∃ m1, store w1 !! minion_ip = Some m1 ∧ cameras m1 = cameras m) →
            ∃ m', store (committed env w1 minion_ip st u) !! minion_ip = Some m'
                  ∧ cameras m' = cameras m).
  { intros w1 st u (m1 & Hm1 & Hc1).
    destruct (committed_cameras w1 minion_ip st u) as (m' & -> & Hc).
    exists m'. rewrite lookup_insert_eq. split; [done|].
    by rewrite Hc, Hm1. }
  assert (H0 : ∃ m1, store w !! minion_ip = Some m1 ∧ cameras m1 = cameras m)
    by eauto.
  pose proof (camera_coordinates_cases m) as Hc.
  destruct (camera_coordinates m) as [[p1 p2]|e] eqn:Ec.
  - destruct Hc as [Hp1 Hp2].
    rewrite (image_minion_positioned env w minion_ip system_name m p1 p2 Hm Hp1 Hp2).
    cbn zeta.
    pose proof (H1 w "imaging" false H0) as Himg.
    destruct (respond env _ _) as [result|e].
    + assert (Hcalled : ∃ m1,
                store (called (committed env w minion_ip "imaging" false)
                         (capture_call system_name minion_ip p1 p2) (Ok result))
                !! minion_ip = Some m1 ∧ cameras m1 = cameras m) by exact Himg.
      destruct (negb (success result));
        [|destruct (Py.contains "Partial success" (output result));
          [destruct (scan_failed_cameras _ _)
          |destruct (Py.contains "Error: No images" (output result))]];
        intros [= <- <-]; first [by apply H1 | exact Hcalled].
    + intros [= <- <-]. exact Himg.
  - destruct Hc as [_ Hc].
    rewrite (image_minion_unpositioned env w minion_ip system_name m Hm Hc).
    intros [= <- <-]. by apply H1.
Qed.

(** The record of [minion_ip] after [update_minion]: it exists, and its
    camera entries are those it had, or the two empty ones. *)
Lemma update_minion_cameras w minion_ip r w' :
  update_minion env minion_ip w = (r, w') →
  ∃ m', store w' = <[minion_ip := m']> (store w)
    ∧ cameras m' = cameras (default fresh_minion (store w !! minion_ip)).
Proof.
  destruct (update_minion_cases env w minion_ip)
    as (evs & s & confirmed & b & _ & ->).
  intros [= <- <-].
  destruct (committed_cameras (journalled w evs) minion_ip s confirmed)
    as (m' & Hs & Hc).
  by exists m'.
Qed.

(** X21.  Only positioning changes camera entries: whatever their
    outcome, [image_minion] and [update_minion] leave the camera entries
    of the record of [minion_ip] (positions included) as they were, so
    that a device stays positioned across imaging runs and updates. *)
Theorem cameras_survive_imaging_and_update w minion_ip m :
  store w !! minion_ip = Some m →
  (∀ system_name r w',
     image_minion env minion_ip system_name w = (r, w') →
     ∃ m', store w' !! minion_ip = Some m' ∧ cameras m' = cameras m)
  ∧ (∀ r w',
       update_minion env minion_ip w = (r, w') →
       ∃ m', store w' !! minion_ip = Some m' ∧ cameras m' = cameras m).
Proof.
  intros Hm. split.
  - intros system_name r w'. by apply image_minion_cameras.
  - intros r w' H. apply update_minion_cameras in H as (m' & -> & Hc).
    exists m'. rewrite lookup_insert_eq. split; [done|]. by rewrite Hc, Hm.
Qed.

Lemma update_one_keys force_update minion_ip st w r w' :
  update_one env force_update minion_ip st w = (r, w') →
  dom (store w) ⊆ dom (store w')
  ∧ dom (store w') ⊆ dom (store w) ∪ {[minion_ip]}.
Proof.
  unfold update_one. rewrite run_bind, has_run_today_run.
  destruct (negb _ || force_update).
  - rewrite run_bind.
    destruct (update_minion env minion_ip _) as [rb w1] eqn:Hup.
    apply update_minion_cameras in Hup as (m' & Hs & _). cbn [store] in Hs.
    assert (Hd : dom (store w) ⊆ dom (store w1)
                 ∧ dom (store w1) ⊆ dom (store w) ∪ {[minion_ip]}).
    { rewrite Hs, dom_insert_L. set_solver. }
    destruct rb as [[|]|e]; [rewrite run_ret..|]; by intros [= <- <-].
  - rewrite run_ret. intros [= <- <-]. cbn. set_solver.
Qed.

Lemma update_each_effects Q K force_update ips :
  (∀ ip, ip ∈ ips → (∀ ev, update_event ip ev → Q ev) ∧ ¬ K ip) →
  ∀ st, respects (effects Q K) (update_each env force_update ips st).
Proof.
  induction ips as [|k rest IH]; intros Hall st; cbn [update_each].
  - apply effects_ret.
  - apply effects_bind.
    + apply update_one_effects; apply Hall; by left.
    + intros st1. apply IH. intros ip Hip. apply Hall. by right.
Qed.

Lemma update_each_keys force_update ips :
  ∀ st w r w',
    update_each env force_update ips st w = (r, w') →
    dom (store w) ⊆ dom (store w')
    ∧ dom (store w') ⊆ dom (store w) ∪ list_to_set ips.
Proof.
  induction ips as [|k rest IH]; intros st w r w'; cbn [update_each].
  - rewrite run_ret. intros [= <- <-]. set_solver.
  - rewrite run_bind.
    destruct (update_one env force_update k st w) as [r1 w1] eqn:Hone.
    pose proof (update_one_keys _ _ _ _ _ _ Hone) as [Hd1 Hd2].
    destruct r1 as [st1|e].
    + intros Hrest. destruct (IH _ _ _ _ Hrest) as (Hd3 & Hd4). set_solver.
    + intros [= <- <-]. set_solver.
Qed.

(** X23.  An update pass touches leased devices only: the loop over the
    leased addresses deletes no record and creates records for leased
    addresses only, and an address that is not leased is neither
    contacted nor has its record changed. *)
Theorem update_pass_touches_leased_only force_update ips st w r w' :
  update_each env force_update ips st w = (r, w') →
  dom (store w) ⊆ dom (store w')
  ∧ dom (store w') ⊆ dom (store w) ∪ list_to_set ips
  ∧ ∀ ip, ip ∉ ips →
      store w' !! ip = store w !! ip
      ∧ Forall (λ ev, ¬ contacts ip ev) (new_events w w').
Proof.
  intros Hrun.
  destruct (update_each_keys _ _ _ _ _ _ Hrun) as [Hd1 Hd2].
  split_and!; [done|done|].
  intros ip Hip.
  assert (He : effects (λ ev, ¬ contacts ip ev) (λ a, a = ip) w w').
  { eapply (update_each_effects (λ ev, ¬ contacts ip ev) (λ a, a = ip));
      [|exact Hrun].
    intros k Hk. split.
    - intros [c rc|a s u]; cbn; [|tauto]. intros Hc Hc'.
      assert (k = ip) by congruence. by subst.
    - intros ->. done. }
  split; [by apply He|by eapply effects_new_events].
Qed.

End Frame.

Lemma cameras_survive_imaging_and_update_witness :
  (∀ system_name r w',
     image_minion (constant_env transport_failure) sample_address system_name
       sample_world = (r, w') →
     ∃ m', store w' !! sample_address = Some m'
           ∧ cameras m' = cameras sample_minion)
  ∧ (∀ r w',
       update_minion (constant_env transport_failure) sample_address sample_world
       = (r, w') →
       ∃ m', store w' !! sample_address = Some m'
             ∧ cameras m' = cameras sample_minion).
Proof.
  apply (cameras_survive_imaging_and_update (constant_env transport_failure)
           sample_world sample_address sample_minion).
  reflexivity.
Defined.

Lemma update_pass_touches_leased_only_witness :
  let run := update_each (constant_env all_good) false [sample_address]
               (mkStats 1 0 0 0) sample_world in
  dom (store sample_world) ⊆ dom (store run.2)
  ∧ dom (store run.2) ⊆ dom (store sample_world) ∪ list_to_set [sample_address]
  ∧ ∀ ip, ip ∉ [sample_address] →
      store run.2 !! ip = store sample_world !! ip
      ∧ Forall (λ ev, ¬ contacts ip ev) (new_events sample_world run.2).
Proof.
  intros run.
  apply (update_pass_touches_leased_only (constant_env all_good) false
           [sample_address] (mkStats 1 0 0 0) sample_world run.1 run.2).
  apply surjective_pairing.
Defined.

(** * Instances *)

Lemma monitor_position_keeps_keys_witness :
  dom (store (monitor_position (constant_env all_good) 2 1 1 sample_world).2)
  = dom (store sample_world).
Proof.
  apply (monitor_position_keeps_keys (constant_env all_good) 2 1 1 sample_world
           (monitor_position (constant_env all_good) 2 1 1 sample_world).1).
  apply surjective_pairing.
Defined.

Lemma remote_operation_raises_witness :
  _get_target_ip (Some sample_config) "minion" (Some sample_address)
  = Raise (KeyError "options")
  ∨ ∃ target params k,
      _get_target_ip (Some sample_config) "minion" (Some sample_address)
      = Ok (target, params)
      ∧ k ∈ ["password"; "options"; "user"]
      ∧ params !! k = None ∧ KeyError "options" = KeyError k.
Proof.
  apply (remote_operation_raises (Some sample_config)
           (λ _ _, Ok (mkCompleted 0 "" "")) "minion" (Some sample_address)
           (KeyError "options") "a" "b" "ls" false None).
  left. vm_compute. reflexivity.
Defined.

Lemma capture_is_never_ready_witness :
  ∃ st w',
    image_minion (capture_env no_camera_works) sample_address "lilo" sample_world
    = (Ok false, w')
    ∧ final_commit w' sample_address st true
    ∧ st ≠ "ready"
    ∧ st = "error".
Proof.
  apply (capture_is_never_ready (capture_env no_camera_works) sample_world
           sample_address "lilo" sample_minion "X1Y1" "X1Y2"
           (mkResult true (main_output (take_images no_camera_works).2) None)
           (take_images no_camera_works).2); reflexivity.
Defined.

Lemma both_cameras_captured_witness :
  (take_images both_cameras_work).1 = true
  ∧ log_status (take_images both_cameras_work).2 = "SUCCESS"
  ∧ ∃ w',
      image_minion (capture_env both_cameras_work) sample_address "lilo" sample_world
      = (Ok false, w')
      ∧ final_commit w' sample_address "partial - " true.
Proof.
  apply (both_cameras_captured (capture_env both_cameras_work) sample_world
           sample_address "lilo" sample_minion "X1Y1" "X1Y2"
           (mkResult true (main_output (take_images both_cameras_work).2) None)
           both_cameras_work sample_path sample_path); reflexivity.
Defined.

Lemma one_camera_failed_witness :
  log_status (take_images second_camera_busy).2 = "PARTIAL"
  ∧ ∃ w',
      image_minion (capture_env second_camera_busy) sample_address "lilo" sample_world
      = (Ok false, w')
      ∧ final_commit w' sample_address "partial - Camera 2 (busy)" true.
Proof.
  apply (one_camera_failed (capture_env second_camera_busy) sample_world
           sample_address "lilo" sample_minion "X1Y1" "X1Y2"
           (mkResult true (main_output (take_images second_camera_busy).2) None)
           second_camera_busy 2 1 sample_path (Exception "busy"));
    try reflexivity.
  right. split; reflexivity.
Defined.

Lemma image_minion_raises_witness :
  ∃ m p1 p2,
    store sample_world !! sample_address = Some m
    ∧ position_of m "camera1" = Some p1
    ∧ position_of m "camera2" = Some p2
    ∧ respond unconfigured_env (S (List.length (trace sample_world)))
        (capture_call "lilo" sample_address p1 p2)
      = Raise (Exception "Could not load config file")
    ∧ new_events sample_world
        (image_minion unconfigured_env sample_address "lilo" sample_world).2
      = [Commit sample_address "imaging" false;
         Remote (capture_call "lilo" sample_address p1 p2)
           (Raise (Exception "Could not load config file"))]
    ∧ status_of (image_minion unconfigured_env sample_address "lilo" sample_world).2
        sample_address = Some "imaging"
    ∧ last_update_of
        (image_minion unconfigured_env sample_address "lilo" sample_world).2
        sample_address
      = last_update_of sample_world sample_address.
Proof.
  apply (image_minion_raises unconfigured_env sample_world sample_address "lilo").
  vm_compute. reflexivity.
Defined.

Lemma image_all_minions_results_witness :
  ∃ results w',
    image_all_minions (constant_env all_good) "lilo" sample_world = (Ok results, w')
    ∧ dom results = dom (store sample_world)
    ∧ ∀ ip, ip ∈ dom (store sample_world) →
        ∃ b st, results !! ip = Some b
          ∧ status_of w' ip = Some st
          ∧ st ≠ "imaging"
          ∧ (b = true ↔ st = "ready").
Proof.
  apply (image_all_minions_results (constant_env all_good)).
  intros n c. exists all_good. reflexivity.
Defined.

Lemma image_minion_protocol_witness :
  ∃ b st w',
    image_minion (constant_env all_good) sample_address "lilo" sample_world
    = (Ok b, w')
    ∧ new_events sample_world w'
      = [Commit sample_address "imaging" false;
         Remote (capture_call "lilo" sample_address "X1Y1" "X1Y2") (Ok all_good);
         Commit sample_address st true]
    ∧ status_of w' sample_address = Some st.
Proof.
  apply (image_minion_protocol (constant_env all_good) sample_world sample_address
           "lilo" sample_minion "X1Y1" "X1Y2" all_good); reflexivity.
Defined.

Lemma unknown_address_is_registered_witness :
  ∃ st' w',
    update_one (constant_env all_good) false sample_address (mkStats 1 0 0 0)
      empty_world = (Ok st', w')
    ∧ n_skipped st' = 0%nat
    ∧ is_Some (store w' !! sample_address)
    ∧ Exists (contacts sample_address) (new_events empty_world w').
Proof.
  apply (unknown_address_is_registered (constant_env all_good) false sample_address
           (mkStats 1 0 0 0) empty_world).
  - reflexivity.
  - vm_compute. discriminate.
Defined.

Lemma positioning_enables_imaging_witness :
  let w := world_of {[ sample_address := unpositioned_minion ]} in
  let w1 := (monitor_position (constant_env all_good) 1 1 1 w).2 in
  ∃ minion_ip result b' st w2,
    minion_ip ∈ dom (store w)
    ∧ image_minion (constant_env all_good) minion_ip "lilo" w1 = (Ok b', w2)
    ∧ new_events w1 w2
      = [Commit minion_ip "imaging" false;
         Remote (capture_call "lilo" minion_ip
                   (position_string 1 1) (position_string 1 (1 + 1)))
           (Ok result);
         Commit minion_ip st true].
Proof.
  intros w w1.
  apply (positioning_enables_imaging (constant_env all_good)
           (λ n c, ex_intro _ all_good eq_refl) 1 1 1 w true w1 "lilo").
  vm_compute. reflexivity.
Defined.
